(** * The event-thread subsystem of brother-scand (event_thread.c)

    A shallow embedding of the event-thread registry, the per-worker
    mailbox, the dispatch loop and the lifecycle operations, followed by
    the properties of the specification that concern them.

    The C code runs on a global table of thread slots, a heap of
    [calloc]ed objects and a set of POSIX threads.  The embedding keeps
    these three stores explicit: every function of event_thread.c is a
    state transformer that either returns a value and a new state, or
    faults where the C program has undefined behaviour (an access outside
    the table, a null or dangling pointer), or is terminated by a signal,
    or blocks.  The worker threads run in parallel with the threads that
    call the API: a step of a worker can be scheduled between any two
    calls, and the two scans of the table take a schedule that says which
    workers move while the scan is under way. *)

From stdpp Require Import gmap strings list fin_maps.
From Stdlib Require Import ZArith Lia Sorted.

Local Open Scope Z_scope.

(** ** Data model *)

(** [#define MAX_EVENT_THREADS 32] *)
Definition MAX_EVENT_THREADS : Z := 32.

(** [size_t] arithmetic wraps around at 2^64. *)
Definition size_t (z : Z) : Z := z mod 2 ^ 64.

(** Function pointers [void ( * )(void *, void * )]: null, the static
    [event_thread_stop_cb] of this file, or a callback of a collaborator,
    named by a number. *)
Inductive fnptr :=
| fn_null
| fn_event_thread_stop_cb
| fn_extern (f : nat).

(** Untyped [void *] arguments: null, the address [&g_threads[i]] of a
    table slot, or data of a collaborator. *)
Inductive pointer :=
| p_null
| p_thread (i : Z)
| p_extern (d : Z).

(** [struct event] *)
Record event := {
  callback : fnptr;
  arg1 : pointer;
  arg2 : pointer
}.

#[global] Instance fnptr_eq_dec : EqDecision fnptr.
Proof. solve_decision. Defined.

#[global] Instance pointer_eq_dec : EqDecision pointer.
Proof. solve_decision. Defined.

#[global] Instance event_eq_dec : EqDecision event.
Proof. solve_decision. Defined.

(** Modelled from the spec: con_queue.c and con_queue.h are not among the
    sources.  The mailbox is a bounded FIFO of opaque payload pointers
    whose capacity is fixed at creation; the field [size] is the one
    [event_thread_create] writes: 32, the number of slots it allocates. *)
Record con_queue := {
  size : Z;
  data : list nat
}.

(** Modelled from the spec: con_queue_push of con_queue.c.  While the
    mailbox holds fewer payloads than its capacity, it appends the payload
    to the tail and returns the status of a successful push.  What it does
    on a full mailbox (block, fail, grow) is an open question of the spec
    and cannot be read off event_thread.c, which drops the status: the
    model gives no result there. *)
Definition con_queue_push (q : con_queue) (p : nat) : option (con_queue * Z) :=
  if decide (Z.of_nat (length (data q)) < size q)
  then Some ({| size := size q; data := data q ++ [p] |}, 0)
  else None.

(** Modelled from the spec: con_queue_pop of con_queue.c.  It removes and
    returns the head payload; without a payload (empty mailbox, or a wait
    that was interrupted) it returns the distinguished result [None], a
    non-zero status in C. *)
Definition con_queue_pop (q : con_queue) : option (nat * con_queue) :=
  match data q with
  | [] => None
  | p :: rest => Some (p, {| size := size q; data := rest |})
  end.

(** [struct event_thread]; a pointer field is [None] when null, otherwise
    the heap address it holds.  [tid] 0 is the zero-initialised field. *)
Record event_thread := {
  running : bool;
  name : option nat;
  events : option nat;
  tid : nat
}.

(** Static storage is zero-initialised. *)
Definition zero_thread : event_thread :=
  {| running := false; name := None; events := None; tid := 0%nat |}.

(** Objects of the C heap. *)
Inductive obj :=
| OName (n : string)
| OQueue (q : con_queue)
| OEvent (e : event).

(** Where a thread running [event_thread_loop] stands: before the loop,
    inside it with its local [update_ev], or after [pthread_exit]. *)
Inductive pc :=
| AtStart
| InLoop (update_ev : nat)
| Exited.

#[global] Instance pc_eq_dec : EqDecision pc.
Proof. solve_decision. Defined.

(** A POSIX thread started on [event_thread_loop]: [th_arg] is the index
    of the slot it was given, [th_signal_ok] whether its call of [signal]
    succeeds. *)
Record pthread := {
  th_arg : Z;
  th_signal_ok : bool;
  th_pc : pc
}.

(** The program state.  [g_thread_cnt] and [g_threads] are the two
    globals of event_thread.c; [g_threads] maps an index to the slot
    stored there, an absent index being a slot that is still zero.  The
    rest is the environment: the heap with its bump allocator, the
    threads, and four logs: callbacks invoked (with the address of their
    record), addresses freed, signals sent and threads joined. *)
Record state := {
  g_thread_cnt : Z;
  g_threads : gmap Z event_thread;
  heap : gmap nat obj;
  next_addr : nat;
  threads : gmap nat pthread;
  next_tid : nat;
  trace : list (nat * event);
  freed : list nat;
  signals : list nat;
  joined : list nat
}.

Definition init_state : state :=
  {| g_thread_cnt := 0; g_threads := ∅; heap := ∅; next_addr := 1%nat;
     threads := ∅; next_tid := 1%nat; trace := []; freed := [];
     signals := []; joined := [] |}.

Definition with_cnt (c : Z) (s : state) : state :=
  {| g_thread_cnt := c; g_threads := g_threads s; heap := heap s;
     next_addr := next_addr s; threads := threads s; next_tid := next_tid s;
     trace := trace s; freed := freed s; signals := signals s;
     joined := joined s |}.

Definition with_slots (g : gmap Z event_thread) (s : state) : state :=
  {| g_thread_cnt := g_thread_cnt s; g_threads := g; heap := heap s;
     next_addr := next_addr s; threads := threads s; next_tid := next_tid s;
     trace := trace s; freed := freed s; signals := signals s;
     joined := joined s |}.

Definition with_heap (h : gmap nat obj) (s : state) : state :=
  {| g_thread_cnt := g_thread_cnt s; g_threads := g_threads s; heap := h;
     next_addr := next_addr s; threads := threads s; next_tid := next_tid s;
     trace := trace s; freed := freed s; signals := signals s;
     joined := joined s |}.

Definition with_next_addr (n : nat) (s : state) : state :=
  {| g_thread_cnt := g_thread_cnt s; g_threads := g_threads s; heap := heap s;
     next_addr := n; threads := threads s; next_tid := next_tid s;
     trace := trace s; freed := freed s; signals := signals s;
     joined := joined s |}.

Definition with_threads (t : gmap nat pthread) (s : state) : state :=
  {| g_thread_cnt := g_thread_cnt s; g_threads := g_threads s; heap := heap s;
     next_addr := next_addr s; threads := t; next_tid := next_tid s;
     trace := trace s; freed := freed s; signals := signals s;
     joined := joined s |}.

Definition with_next_tid (n : nat) (s : state) : state :=
  {| g_thread_cnt := g_thread_cnt s; g_threads := g_threads s; heap := heap s;
     next_addr := next_addr s; threads := threads s; next_tid := n;
     trace := trace s; freed := freed s; signals := signals s;
     joined := joined s |}.

Definition with_trace (t : list (nat * event)) (s : state) : state :=
  {| g_thread_cnt := g_thread_cnt s; g_threads := g_threads s; heap := heap s;
     next_addr := next_addr s; threads := threads s; next_tid := next_tid s;
     trace := t; freed := freed s; signals := signals s;
     joined := joined s |}.

Definition with_freed (f : list nat) (s : state) : state :=
  {| g_thread_cnt := g_thread_cnt s; g_threads := g_threads s; heap := heap s;
     next_addr := next_addr s; threads := threads s; next_tid := next_tid s;
     trace := trace s; freed := f; signals := signals s;
     joined := joined s |}.

Definition with_signals (l : list nat) (s : state) : state :=
  {| g_thread_cnt := g_thread_cnt s; g_threads := g_threads s; heap := heap s;
     next_addr := next_addr s; threads := threads s; next_tid := next_tid s;
     trace := trace s; freed := freed s; signals := l;
     joined := joined s |}.

Definition with_joined (l : list nat) (s : state) : state :=
  {| g_thread_cnt := g_thread_cnt s; g_threads := g_threads s; heap := heap s;
     next_addr := next_addr s; threads := threads s; next_tid := next_tid s;
     trace := trace s; freed := freed s; signals := signals s;
     joined := l |}.

(** ** Outcomes and the state monad *)

(** Where the execution of the C program stops being defined by its
    source: undefined behaviour, by kind; the death of the process by a
    signal; and a push on a full mailbox, whose outcome is not known. *)
Inductive fault :=
| OutOfBounds (i : Z)       (* access to g_threads[i] outside the table *)
| NullDeref                 (* dereference of a null pointer *)
| WildPointer               (* dereference of a pointer to foreign data *)
| BadAccess (a : nat)       (* access to a freed or foreign heap object *)
| InvalidFree (a : nat)     (* free of an address that is not allocated *)
| NullCall                  (* call through a null function pointer *)
| NoSuchThread (t : nat)    (* pthread_join or pthread_kill on an id that
                               names no thread *)
| KilledBySignal (t : nat)  (* SIGUSR1 sent to thread t while the process
                               has no handler for it: the default action
                               terminates the process *)
| MailboxFull (q : nat).    (* con_queue_push on the mailbox at q, which
                               holds as many payloads as its capacity *)

(** A call returns a value and a state, stops with a fault, or does not
    return within the steps the schedule gives to the threads it waits
    for. *)
Inductive outcome (A : Type) :=
| Ret (a : A) (s : state)
| Fault (f : fault)
| Blocked.

Arguments Ret {A} a s.
Arguments Fault {A} f.
Arguments Blocked {A}.

Definition M (A : Type) : Type := state -> outcome A.

Definition ret {A} (a : A) : M A := fun s => Ret a s.

Definition bind {A B} (m : M A) (k : A -> M B) : M B :=
  fun s => match m s with
           | Ret a s' => k a s'
           | Fault f => Fault f
           | Blocked => Blocked
           end.

Definition fail {A} (f : fault) : M A := fun _ => Fault f.

Declare Scope mon_scope.
Delimit Scope mon_scope with mon.
Notation "'let*' x ':=' m 'in' k" := (bind m (fun x => k))
  (at level 10, x name, m at level 100, k at level 200) : mon_scope.
Local Open Scope mon_scope.

(** ** Memory primitives *)

(** Whether [g_threads[i]] lies inside the table. *)
Definition in_table (i : Z) : Prop := 0 <= i < MAX_EVENT_THREADS.

Definition slot (s : state) (i : Z) : event_thread :=
  default zero_thread (g_threads s !! i).

(** Read of [g_threads[i]]. *)
Definition slot_load (i : Z) : M event_thread :=
  fun s => if decide (in_table i) then Ret (slot s i) s
           else Fault (OutOfBounds i).

(** Write to a field of [g_threads[i]]. *)
Definition slot_modify (i : Z) (f : event_thread -> event_thread) : M unit :=
  fun s => if decide (in_table i)
           then Ret tt (with_slots (<[i := f (slot s i)]> (g_threads s)) s)
           else Fault (OutOfBounds i).

Definition set_running (b : bool) (t : event_thread) : event_thread :=
  {| running := b; name := name t; events := events t; tid := tid t |}.
Definition set_name (n : option nat) (t : event_thread) : event_thread :=
  {| running := running t; name := n; events := events t; tid := tid t |}.
Definition set_events (q : option nat) (t : event_thread) : event_thread :=
  {| running := running t; name := name t; events := q; tid := tid t |}.
Definition set_tid (x : nat) (t : event_thread) : event_thread :=
  {| running := running t; name := name t; events := events t; tid := x |}.

(** [calloc] and [strdup]: on success a fresh address holding [o], on
    failure the null pointer.  Addresses are never handed out twice. *)
Definition alloc (ok : bool) (o : obj) : M (option nat) :=
  fun s => if ok
           then Ret (Some (next_addr s))
                    (with_next_addr (S (next_addr s))
                       (with_heap (<[next_addr s := o]> (heap s)) s))
           else Ret None s.

(** [free]: a no-op on null, undefined on an address that is not live. *)
Definition free (p : option nat) : M unit :=
  fun s => match p with
           | None => Ret tt s
           | Some a =>
               match heap s !! a with
               | Some _ => Ret tt (with_freed (freed s ++ [a])
                                     (with_heap (delete a (heap s)) s))
               | None => Fault (InvalidFree a)
               end
           end.

Definition load_queue (p : option nat) : M con_queue :=
  fun s => match p with
           | None => Fault NullDeref
           | Some a => match heap s !! a with
                       | Some (OQueue q) => Ret q s
                       | _ => Fault (BadAccess a)
                       end
           end.

Definition load_event (a : nat) : M event :=
  fun s => match heap s !! a with
           | Some (OEvent e) => Ret e s
           | _ => Fault (BadAccess a)
           end.

(** Write to a live heap object. *)
Definition store (a : nat) (o : obj) : M unit :=
  fun s => match heap s !! a with
           | Some _ => Ret tt (with_heap (<[a := o]> (heap s)) s)
           | None => Fault (BadAccess a)
           end.

(** [con_queue_push(queue, element)] on the queue a pointer refers to. *)
Definition queue_push (p : option nat) (e : nat) : M Z :=
  let* q := load_queue p in
  match p, con_queue_push q e with
  | None, _ => fail NullDeref
  | Some a, Some (q', r) => let* _ := store a (OQueue q') in ret r
  | Some a, None => fail (MailboxFull a)
  end.

(** [con_queue_pop(queue, &element)]: the payload, or [None] for a
    non-zero status. *)
Definition queue_pop (p : option nat) : M (option nat) :=
  let* q := load_queue p in
  match p, con_queue_pop q with
  | None, _ => fail NullDeref
  | Some a, Some (e, q') => let* _ := store a (OQueue q') in ret (Some e)
  | Some a, None => ret None
  end.

(** ** The functions of event_thread.c *)

(** [get_event_thread]: null above the table, otherwise the address of
    slot [thread_id - 1], computed in [size_t]. *)
Definition get_event_thread (thread_id : Z) : option Z :=
  if decide (thread_id > MAX_EVENT_THREADS) then None
  else Some (size_t (thread_id - 1)).

Definition zero_event : event :=
  {| callback := fn_null; arg1 := p_null; arg2 := p_null |}.

(** [event_thread_enqueue_event]; [calloc_ok] tells whether the [calloc]
    of the record succeeds.  The status of [con_queue_push] is dropped, as
    in the source. *)
Definition event_thread_enqueue_event (thread_id : Z) (cb : fnptr)
    (a1 a2 : pointer) (calloc_ok : bool) : M Z :=
  match get_event_thread thread_id with
  | None => ret (-1)
  | Some i =>
      let* ev := alloc calloc_ok (OEvent zero_event) in
      match ev with
      | None => ret (-1)
      | Some a =>
          let* _ := store a (OEvent {| callback := cb; arg1 := a1; arg2 := a2 |}) in
          let* thread := slot_load i in
          let* _ := queue_push (events thread) a in
          ret 0
      end
  end.

(** The loop of [event_thread_destroy]: pop and free until a pop yields
    nothing.  [n] bounds the number of pops. *)
Fixpoint destroy_loop (n : nat) (i : Z) : M unit :=
  match n with
  | O => fun _ => Blocked
  | S n' =>
      let* thread := slot_load i in
      let* r := queue_pop (events thread) in
      match r with
      | Some a => let* _ := free (Some a) in destroy_loop n' i
      | None => ret tt
      end
  end.

(** Number of payloads pending in the mailbox of slot [i]. *)
Definition pending (s : state) (i : Z) : list nat :=
  match events (slot s i) with
  | Some q => match heap s !! q with
              | Some (OQueue c) => data c
              | _ => []
              end
  | None => []
  end.

(** [event_thread_destroy] on [&g_threads[i]]. *)
Definition event_thread_destroy (i : Z) : M unit :=
  fun s =>
    (let* _ := destroy_loop (S (length (pending s i))) i in
     let* thread := slot_load i in
     let* _ := free (events thread) in
     let* thread := slot_load i in
     free (name thread)) s.

(** [event_thread_stop_cb]: [arg1] is taken as a pointer to a slot, whose
    [running] flag is cleared. *)
Definition event_thread_stop_cb (a1 a2 : pointer) : M unit :=
  match a1 with
  | p_thread i => slot_modify i (set_running false)
  | p_null => fail NullDeref
  | p_extern _ => fail WildPointer
  end.

(** A call through a function pointer.  A callback of a collaborator is
    opaque: its call is recorded and nothing else.  [a] is the address of
    the record the call was read from. *)
Definition invoke (a : nat) (e : event) : M unit :=
  fun s =>
    match callback e with
    | fn_null => Fault NullCall
    | fn_event_thread_stop_cb =>
        event_thread_stop_cb (arg1 e) (arg2 e)
          (with_trace (trace s ++ [(a, e)]) s)
    | fn_extern _ => Ret tt (with_trace (trace s ++ [(a, e)]) s)
    end.

(** The body of the [while] loop of [event_thread_loop], for the thread
    given slot [i] and holding [update_ev]. *)
Definition loop_body (i : Z) (update_ev : nat) : M unit :=
  let* u := load_event update_ev in
  let* _ := match callback u with
            | fn_null => ret tt
            | _ => invoke update_ev u
            end in
  let* thread := slot_load i in
  let* r := queue_pop (events thread) in
  match r with
  | Some a =>
      let* e := load_event a in
      let* _ := invoke a e in
      free (Some a)
  | None => ret tt
  end.

Definition set_pc (t : nat) (p : pc) : M unit :=
  fun s => match threads s !! t with
           | Some th =>
               Ret tt (with_threads
                         (<[t := {| th_arg := th_arg th;
                                    th_signal_ok := th_signal_ok th;
                                    th_pc := p |}]> (threads s)) s)
           | None => Fault (NoSuchThread t)
           end.

(** The label [out] of [event_thread_loop]: free [update_ev], destroy the
    slot, exit the thread. *)
Definition loop_out (t : nat) (i : Z) (update_ev : option nat) : M unit :=
  let* _ := free update_ev in
  let* _ := event_thread_destroy i in
  set_pc t Exited.

(** One scheduling step of thread [t] in [event_thread_loop]: the
    prologue up to the loop, one test of [thread->running] with the
    iteration or the exit that follows it, or nothing once the thread has
    exited. *)
Definition event_thread_loop_step (t : nat) : M unit :=
  fun s =>
    match threads s !! t with
    | None => Fault (NoSuchThread t)
    | Some th =>
        let i := th_arg th in
        match th_pc th with
        | AtStart =>
            if th_signal_ok th
            then (let* thread := slot_load i in
                  let* r := queue_pop (events thread) in
                  match r with
                  | Some u => set_pc t (InLoop u)
                  | None => loop_out t i None
                  end) s
            else loop_out t i None s
        | InLoop u =>
            (let* thread := slot_load i in
             if running thread then loop_body i u
             else loop_out t i (Some u)) s
        | Exited => Ret tt s
        end
    end.

(** [event_thread_loop] run for at most [n] steps. *)
Fixpoint event_thread_loop (n : nat) (t : nat) : M unit :=
  match n with
  | O => ret tt
  | S n' => let* _ := event_thread_loop_step t in event_thread_loop n' t
  end.

(** What the environment decides during one [event_thread_create]:
    whether [strdup], the two [calloc]s and [pthread_create] succeed, and
    whether [signal] will succeed in the new thread. *)
Record create_env := {
  strdup_ok : bool;
  calloc_queue_ok : bool;
  calloc_event_ok : bool;
  pthread_create_ok : bool;
  signal_ok : bool
}.

(** [pthread_create(&thread->tid, NULL, event_thread_loop, thread)]: on
    success a new thread at the start of [event_thread_loop] and its id
    stored in the slot. *)
Definition pthread_create (ok sig : bool) (i : Z) : M bool :=
  if ok then
    fun s =>
      (let* _ := slot_modify i (set_tid (next_tid s)) in ret true)
        (with_next_tid (S (next_tid s))
           (with_threads (<[next_tid s := {| th_arg := i; th_signal_ok := sig;
                                             th_pc := AtStart |}]> (threads s)) s))
  else ret false.

Definition zero_queue : con_queue := {| size := 0; data := [] |}.

(** [event_thread_create] *)
Definition event_thread_create (nm : string) (update_cb : fnptr)
    (a1 a2 : pointer) (env : create_env) : M Z :=
  fun s =>
    let thread_id := size_t (g_thread_cnt s + 1) in
    let i := size_t (thread_id - 1) in
    (let* _ := slot_modify i (set_running true) in
     let* n := alloc (strdup_ok env) (OName nm) in
     let* _ := slot_modify i (set_name n) in
     match n with
     | None => ret 0
     | Some _ =>
         let* q := alloc (calloc_queue_ok env) (OQueue zero_queue) in
         let* _ := slot_modify i (set_events q) in
         match q with
         | None =>
             let* thread := slot_load i in
             let* _ := free (name thread) in
             ret 0
         | Some qa =>
             let* _ := store qa (OQueue {| size := 32; data := [] |}) in
             let* _ := event_thread_enqueue_event thread_id update_cb a1 a2
                         (calloc_event_ok env) in
             let* started := pthread_create (pthread_create_ok env)
                               (signal_ok env) i in
             if started then ret thread_id
             else
               let* thread := slot_load i in
               let* _ := free (events thread) in
               let* thread := slot_load i in
               let* _ := free (name thread) in
               ret 0
         end
     end) (with_cnt (size_t (g_thread_cnt s + 1)) s).

(** The disposition of SIGUSR1 is one for the whole process.  Its handler
    is installed by the call [signal(SIGUSR1, sig_handler)] at the start
    of [event_thread_loop] and by nothing else: it is in place once a
    worker thread has got past that call with success. *)
Definition handler_installed (s : state) : Prop :=
  map_Exists (fun _ th => th_signal_ok th = true /\ th_pc th <> AtStart)
             (threads s).

#[global] Instance handler_installed_dec s : Decision (handler_installed s).
Proof. unfold handler_installed. apply _. Defined.

(** [pthread_kill(tid, SIGUSR1)].  With the handler installed the signal
    runs [sig_handler], which does nothing: the signal is only recorded.
    Without it the default action of SIGUSR1 terminates the process. *)
Definition pthread_kill (t : nat) : M unit :=
  fun s => match threads s !! t with
           | None => Fault (NoSuchThread t)
           | Some _ =>
               if decide (handler_installed s)
               then Ret tt (with_signals (signals s ++ [t]) s)
               else Fault (KilledBySignal t)
           end.

(** [event_thread_stop] *)
Definition event_thread_stop (thread_id : Z) (calloc_ok : bool) : M Z :=
  match get_event_thread thread_id with
  | None => ret (-1)
  | Some i =>
      let* r := event_thread_enqueue_event thread_id fn_event_thread_stop_cb
                  (p_thread i) p_null calloc_ok in
      if decide (r = 0)
      then let* thread := slot_load i in
           let* _ := pthread_kill (tid thread) in
           ret 0
      else ret (-1)
  end.

(** [event_thread_lib_init] *)
Definition event_thread_lib_init : M unit :=
  fun s => Ret tt (with_cnt 0 s).

(** Steps of worker threads, in the order the scheduler runs them: [l]
    lists the ids of the threads that take a step. *)
Fixpoint run_workers (l : list nat) : M unit :=
  match l with
  | [] => ret tt
  | t :: l' => let* _ := event_thread_loop_step t in run_workers l'
  end.

(** [pthread_join(tid, NULL)]: the caller waits until thread [t] has
    exited.  While it waits the workers run: [sch] lists the threads that
    take a step, in order, the joined one or any other.  The join returns
    as soon as [t] has exited, and has not returned when the steps of
    [sch] are used up before that. *)
Fixpoint pthread_join (sch : list nat) (t : nat) : M unit :=
  fun s =>
    match threads s !! t with
    | None => Fault (NoSuchThread t)
    | Some th =>
        match th_pc th with
        | Exited => Ret tt (with_joined (joined s ++ [t]) s)
        | _ =>
            match sch with
            | [] => Blocked
            | t' :: sch' =>
                (let* _ := event_thread_loop_step t' in pthread_join sch' t) s
            end
        end
    end.

(** What the workers do while the calling thread scans the table, slot by
    slot: the ids of the threads that take a step, in order, before the
    scan reads the [running] flag of slot [i], and, when the flag was
    read as set, before the call the scan makes for the slot
    ([event_thread_stop]) or while that call waits ([pthread_join]). *)
Record schedule := {
  before_test : Z -> list nat;
  after_test : Z -> list nat
}.

(** The schedule in which no worker moves during the scan. *)
Definition idle : schedule :=
  {| before_test := fun _ => []; after_test := fun _ => [] |}.

(** The table indices [0 .. MAX_EVENT_THREADS - 1], in scan order. *)
Definition table_indices : list Z := seqZ 0 MAX_EVENT_THREADS.

(** The [for] loop of [event_thread_lib_wait] over the indices [l], with
    the workers running as [sch] says. *)
Fixpoint wait_loop (sch : schedule) (l : list Z) : M unit :=
  match l with
  | [] => ret tt
  | i :: l' =>
      let* _ := run_workers (before_test sch i) in
      let* thread := slot_load i in
      let* _ := if running thread
                then pthread_join (after_test sch i) (tid thread)
                else ret tt in
      wait_loop sch l'
  end.

(** [event_thread_lib_wait] *)
Definition event_thread_lib_wait (sch : schedule) : M unit :=
  wait_loop sch table_indices.

(** The [for] loop of [event_thread_lib_shutdown] over the indices [l],
    with the workers running as [sch] says; [calloc_ok i] tells whether
    the record of the stop of slot [i] can be allocated.  The status of
    [event_thread_stop] is dropped. *)
Fixpoint shutdown_loop (calloc_ok : Z -> bool) (sch : schedule) (l : list Z)
    : M unit :=
  match l with
  | [] => ret tt
  | i :: l' =>
      let* _ := run_workers (before_test sch i) in
      let* thread := slot_load i in
      let* _ := if running thread
                then let* _ := run_workers (after_test sch i) in
                     let* _ := event_thread_stop (i + 1) (calloc_ok i) in
                     ret tt
                else ret tt in
      shutdown_loop calloc_ok sch l'
  end.

(** [event_thread_lib_shutdown]: [sch_stop] is the schedule of the workers
    during the scan that stops them, [sch_wait] the one during the scan of
    [event_thread_lib_wait]. *)
Definition event_thread_lib_shutdown (calloc_ok : Z -> bool)
    (sch_stop sch_wait : schedule) : M unit :=
  let* _ := shutdown_loop calloc_ok sch_stop table_indices in
  event_thread_lib_wait sch_wait.

(** ** Vocabulary of the properties *)

(** The mailbox holds fewer payloads than its capacity. *)
Definition has_room (c : con_queue) : Prop :=
  Z.of_nat (length (data c)) < size c.

#[global] Instance has_room_dec c : Decision (has_room c).
Proof. unfold has_room. apply _. Defined.

(** A record whose callback can be called: a callback of a collaborator,
    or the stop callback bound to a slot of the table. *)
Definition callable (e : event) : Prop :=
  match callback e with
  | fn_null => False
  | fn_extern _ => True
  | fn_event_thread_stop_cb =>
      match arg1 e with
      | p_thread j => in_table j
      | _ => False
      end
  end.

(** The calls one tick adds to the trace: none for a null update
    callback, otherwise the call of the update record. *)
Definition tick_calls (u : nat) (ue : event) : list (nat * event) :=
  match callback ue with
  | fn_null => []
  | _ => [(u, ue)]
  end.

(** Whether calling the callback of [e] clears the [running] flag of
    slot [j]: it is the stop callback bound to that slot. *)
Definition clears (e : event) (j : Z) : bool :=
  bool_decide (callback e = fn_event_thread_stop_cb /\ arg1 e = p_thread j).

(** What a callback or a loop iteration never touches: the threads, the
    allocator, the signal and join logs and the handle counter. *)
Definition same_env (s s' : state) : Prop :=
  threads s' = threads s /\ next_addr s' = next_addr s /\
  signals s' = signals s /\ joined s' = joined s /\
  next_tid s' = next_tid s /\ g_thread_cnt s' = g_thread_cnt s.

(** The pointer fields and the thread id of every slot are the same. *)
Definition same_fields (s s' : state) : Prop :=
  forall i, events (slot s' i) = events (slot s i) /\
            name (slot s' i) = name (slot s i) /\
            tid (slot s' i) = tid (slot s i).

(** The head of mailbox [c], if any, is a live callable record. *)
Definition head_callable (s : state) (c : con_queue) : Prop :=
  match data c with
  | [] => True
  | a :: _ => match heap s !! a with
              | Some (OEvent e) => callable e
              | _ => False
              end
  end.

(** The state a call leaves behind, for concrete scenarios. *)
Definition after {A} (m : M A) (s : state) : state :=
  match m s with
  | Ret _ s' => s'
  | _ => s
  end.

(** An environment in which nothing fails. *)
Definition all_ok : create_env :=
  {| strdup_ok := true; calloc_queue_ok := true; calloc_event_ok := true;
     pthread_create_ok := true; signal_ok := true |}.

(** Scenario: a worker "probe" with a tick callback, created on an empty
    registry, its thread advanced to the loop, and three events enqueued. *)
Definition probe_created : state :=
  after (event_thread_create "probe" (fn_extern 0) (p_extern 0) p_null all_ok)
        init_state.

Definition probe_started : state :=
  after (event_thread_loop_step 1) probe_created.

Definition probe_loaded : state :=
  after (event_thread_enqueue_event 1 (fn_extern 3) (p_extern 3) p_null true)
    (after (event_thread_enqueue_event 1 (fn_extern 2) (p_extern 2) p_null true)
       (after (event_thread_enqueue_event 1 (fn_extern 1) (p_extern 1) p_null true)
          probe_started)).

(** Scenario: a worker created with a null update callback, in its loop
    with one event enqueued. *)
Definition silent_loaded : state :=
  after (event_thread_enqueue_event 1 (fn_extern 1) (p_extern 1) p_null true)
    (after (event_thread_loop_step 1)
       (after (event_thread_create "silent" fn_null p_null p_null all_ok)
              init_state)).

(** The registry after [n] creations in which nothing failed. *)
Fixpoint registry_after (n : nat) : state :=
  match n with
  | O => init_state
  | S n' =>
      after (event_thread_create "worker" (fn_extern 0) p_null p_null all_ok)
            (registry_after n')
  end.

(** The value a call returns, if it returns. *)
Definition returned {A} (o : outcome A) : option A :=
  match o with
  | Ret a _ => Some a
  | _ => None
  end.

(** The handles returned by [n] creations in which nothing failed. *)
Fixpoint handles_after (n : nat) : list (option Z) :=
  match n with
  | O => []
  | S n' =>
      handles_after n' ++
      [returned (event_thread_create "worker" (fn_extern 0) p_null p_null all_ok
                   (registry_after n'))]
  end.

(** Every address in use lies below the allocation pointer: what the
    allocator hands out is fresh. *)
Definition heap_bounded (s : state) : Prop :=
  map_Forall (fun a _ => (a < next_addr s)%nat) (heap s).

(** A record the worker of slot [i] can take from its mailbox and call: a
    callback of a collaborator, or the stop callback bound to slot [i]
    itself, as [event_thread_stop] enqueues it. *)
Definition mail_ok (i : Z) (e : event) : Prop :=
  match callback e with
  | fn_null => False
  | fn_extern _ => True
  | fn_event_thread_stop_cb => arg1 e = p_thread i
  end.

(** A record that can serve as update record: as above, or with a null
    callback. *)
Definition update_ok (i : Z) (e : event) : Prop :=
  callback e = fn_null \/ mail_ok i e.

(** Address [a] holds a live record that satisfies [P]. *)
Definition record_at (s : state) (P : event -> Prop) (a : nat) : Prop :=
  match heap s !! a with
  | Some (OEvent e) => P e
  | _ => False
  end.

(** The live mailbox of slot [i]: its address and its content. *)
Definition mailbox (s : state) (i : Z) : option (nat * con_queue) :=
  match events (slot s i) with
  | Some q => match heap s !! q with
              | Some (OQueue c) => Some (q, c)
              | _ => None
              end
  | None => None
  end.

(** The mailbox of slot [i] is live and holds fewer payloads than its
    capacity. *)
Definition room (s : state) (i : Z) : Prop :=
  match mailbox s i with
  | Some (_, c) => has_room c
  | None => False
  end.

#[global] Instance room_dec s i : Decision (room s i).
Proof. unfold room. destruct (mailbox s i) as [[q c]|]; apply _. Defined.

(** The live name of slot [i]. *)
Definition name_live (s : state) (i : Z) : option nat :=
  match name (slot s i) with
  | Some n => match heap s !! n with
              | Some (OName _) => Some n
              | _ => None
              end
  | None => None
  end.

(** The records of a mailbox whose head will become the update record:
    the head may have a null callback, the others can be called. *)
Definition start_queue_ok (s : state) (i : Z) (l : list nat) : Prop :=
  match l with
  | [] => True
  | u :: rest => record_at s (update_ok i) u /\
                 Forall (record_at s (mail_ok i)) rest
  end.

(** What a thread that has not exited relies on: its slot is in the
    table, the mailbox and the name of the slot are live, the pending
    records are live, pairwise distinct and can be called, and the update
    record it holds is live and not pending. *)
Definition worker_inv (s : state) (th : pthread) : Prop :=
  in_table (th_arg th) /\
  match mailbox s (th_arg th), name_live s (th_arg th) with
  | Some (q, c), Some n =>
      NoDup (data c) /\
      match th_pc th with
      | AtStart => start_queue_ok s (th_arg th) (data c)
      | InLoop u =>
          record_at s (update_ok (th_arg th)) u /\ (u ∉ data c) /\
          Forall (record_at s (mail_ok (th_arg th))) (data c)
      | Exited => True
      end
  | _, _ => False
  end.

(** The heap addresses a thread that has not exited owns: mailbox, name,
    update record and pending records. *)
Definition footprint (s : state) (th : pthread) : list nat :=
  match th_pc th, mailbox s (th_arg th), name_live s (th_arg th) with
  | Exited, _, _ => []
  | AtStart, Some (q, c), Some n => q :: n :: data c
  | InLoop u, Some (q, c), Some n => q :: n :: u :: data c
  | _, _, _ => []
  end.

(** Thread [t] has exited, or it is the thread of its slot and has what
    it relies on. *)
Definition thread_ok (s : state) (t : nat) (th : pthread) : Prop :=
  th_pc th = Exited \/
  (worker_inv s th /\ tid (slot s (th_arg th)) = t).

(** No other thread owns an address thread [t1] owns. *)
Definition apart (s : state) (t1 : nat) (th1 : pthread) : Prop :=
  map_Forall (fun t2 th2 =>
                t1 = t2 \/
                Forall (fun a => a ∉ footprint s th2) (footprint s th1))
             (threads s).

(** The invariant of the system of workers. *)
Definition system_inv (s : state) : Prop :=
  heap_bounded s /\
  map_Forall (thread_ok s) (threads s) /\
  map_Forall (apart s) (threads s).

(** The thread record [th] moved to the program point [p]. *)
Definition at_pc (th : pthread) (p : pc) : pthread :=
  {| th_arg := th_arg th; th_signal_ok := th_signal_ok th; th_pc := p |}.

(** The four kinds of step of a thread [t] that has not exited, with
    mailbox [c] at address [q] and name at address [n], and what each
    does to the state: entering the loop with the head of the mailbox as
    update record; an iteration that finds the mailbox empty; an iteration
    that runs the head of the mailbox; and the exit, which frees what the
    thread owns. *)
Inductive step_effect (s : state) (t : nat) (th : pthread)
    (q : nat) (c : con_queue) (n : nat) (s' : state) : Prop :=
| step_enter u rest :
    th_pc th = AtStart -> th_signal_ok th = true -> data c = u :: rest ->
    threads s' = <[t := at_pc th (InLoop u)]> (threads s) ->
    heap s' = <[q := OQueue {| size := size c; data := rest |}]> (heap s) ->
    g_threads s' = g_threads s ->
    trace s' = trace s -> freed s' = freed s ->
    step_effect s t th q c n s'
| step_idle u ue :
    th_pc th = InLoop u -> running (slot s (th_arg th)) = true ->
    data c = [] -> heap s !! u = Some (OEvent ue) ->
    threads s' = threads s -> heap s' = heap s ->
    same_fields s s' ->
    (forall j, running (slot s' j) =
               if clears ue j then false else running (slot s j)) ->
    trace s' = trace s ++ tick_calls u ue -> freed s' = freed s ->
    step_effect s t th q c n s'
| step_run u ue a e rest :
    th_pc th = InLoop u -> running (slot s (th_arg th)) = true ->
    data c = a :: rest ->
    heap s !! u = Some (OEvent ue) -> heap s !! a = Some (OEvent e) ->
    threads s' = threads s ->
    heap s' = delete a (<[q := OQueue {| size := size c; data := rest |}]>
                          (heap s)) ->
    same_fields s s' ->
    (forall j, running (slot s' j) =
               if clears ue j || clears e j then false
               else running (slot s j)) ->
    trace s' = trace s ++ tick_calls u ue ++ [(a, e)] ->
    freed s' = freed s ++ [a] ->
    step_effect s t th q c n s'
| step_exit uo :
    match th_pc th with
    | AtStart => uo = None /\ (th_signal_ok th = false \/ data c = [])
    | InLoop u => uo = Some u /\ running (slot s (th_arg th)) = false
    | Exited => False
    end ->
    threads s' = <[t := at_pc th Exited]> (threads s) ->
    g_threads s' = g_threads s ->
    trace s' = trace s ->
    freed s' = freed s ++ option_list uo ++ data c ++ [q; n] ->
    (forall a, a ∈ option_list uo ++ q :: n :: data c -> heap s' !! a = None) ->
    (forall x, x ∉ option_list uo ++ q :: n :: data c ->
               heap s' !! x = heap s !! x) ->
    step_effect s t th q c n s'.

(** What no step of a thread touches: the allocator, the signal and join
    logs, the thread ids and the handle counter. *)
Definition same_rest (s s' : state) : Prop :=
  next_addr s' = next_addr s /\ signals s' = signals s /\
  joined s' = joined s /\ next_tid s' = next_tid s /\
  g_thread_cnt s' = g_thread_cnt s.

(** The state an enqueue of the record [e] on the live mailbox [c] at
    address [q] leaves behind. *)
Definition enqueued (q : nat) (c : con_queue) (e : event) (s : state) : state :=
  with_heap
    (<[q := OQueue {| size := size c; data := data c ++ [next_addr s] |}]>
       (<[next_addr s := OEvent e]> (heap s)))
    (with_next_addr (S (next_addr s)) s).

(** What a producer thread and the worker do to one mailbox: the producer
    enqueues a callback of a collaborator (its allocation may fail), the
    worker takes a step. *)
Inductive action :=
| produce (f : nat) (a1 a2 : pointer) (calloc_ok : bool)
| consume.

(** An interleaving of enqueues on handle [h] and of steps of thread
    [t]. *)
Fixpoint run_schedule (h : Z) (t : nat) (l : list action) : M unit :=
  match l with
  | [] => ret tt
  | produce f a1 a2 ok :: l' =>
      let* _ := event_thread_enqueue_event h (fn_extern f) a1 a2 ok in
      run_schedule h t l'
  | consume :: l' =>
      let* _ := event_thread_loop_step t in run_schedule h t l'
  end.

(** The schedule never has the producer push on a full mailbox, when the
    mailbox holds [n] payloads at its start: an enqueue whose allocation
    succeeds finds fewer than 32 payloads pending, and a step of the
    worker takes one payload out if there is one. *)
Fixpoint within_capacity (n : nat) (l : list action) : Prop :=
  match l with
  | [] => True
  | produce _ _ _ true :: l' => (n < 32)%nat /\ within_capacity (S n) l'
  | produce _ _ _ false :: l' => within_capacity n l'
  | consume :: l' => within_capacity (pred n) l'
  end.

#[global] Instance within_capacity_dec n l : Decision (within_capacity n l).
Proof.
  revert n. induction l as [|[f a1 a2 [|]|] l IH]; intros n; simpl; apply _.
Defined.

(** The records the producer got enqueued, in the order of its calls. *)
Fixpoint produced (l : list action) : list event :=
  match l with
  | [] => []
  | produce f a1 a2 true :: l' =>
      {| callback := fn_extern f; arg1 := a1; arg2 := a2 |} :: produced l'
  | _ :: l' => produced l'
  end.

(** The calls of a trace that are not ticks of the update record [u]:
    the mailbox events that were run, in the order of their calls. *)
Definition mail_calls (u : nat) (tr : list (nat * event)) : list event :=
  snd <$> filter (fun x => fst x <> u) tr.

(** Address [a] holds the record [e]. *)
Definition holds (s : state) (a : nat) (e : event) : Prop :=
  heap s !! a = Some (OEvent e).

Definition no_stop (e : event) : Prop :=
  callback e <> fn_event_thread_stop_cb.

(** The invariant of a run of a producer against the worker of slot [i]
    with thread [t] and update record [u]: the worker stays alive, and the
    mailbox events called since the trace [tr0], followed by the records
    still pending, are the records [P] produced so far, in order. *)
Definition fifo_inv (t : nat) (i : Z) (u : nat) (tr0 : list (nat * event))
    (P : list event) (s : state) : Prop :=
  heap_bounded s /\ running (slot s i) = true /\
  exists th q c T evs,
    threads s !! t = Some th /\ th_arg th = i /\ th_signal_ok th = true /\
    worker_inv s th /\ mailbox s i = Some (q, c) /\ size c = 32 /\
    record_at s no_stop u /\ Forall (record_at s no_stop) (data c) /\
    trace s = tr0 ++ T /\ mail_calls u T ++ evs = P /\
    match th_pc th with
    | AtStart => T = [] /\ exists rest, data c = u :: rest /\
                                        Forall2 (holds s) rest evs
    | InLoop u' => u' = u /\ Forall2 (holds s) (data c) evs
    | Exited => False
    end.

(** A stop record bound to the slot of the thread is among the records
    the thread will call: the pending ones and its update record. *)
Definition stop_pending (s : state) (th : pthread) : Prop :=
  match mailbox s (th_arg th) with
  | Some (q, c) =>
      Exists (record_at s (fun e => clears e (th_arg th) = true))
        (match th_pc th with
         | InLoop u => u :: data c
         | _ => data c
         end)
  | None => False
  end.

(** The thread has exited or will leave its loop: its [running] flag is
    cleared or a stop record is on its way. *)
Definition will_stop (s : state) (th : pthread) : Prop :=
  th_pc th = Exited \/ running (slot s (th_arg th)) = false \/
  stop_pending s th.

(** A bound on the steps a thread that will stop takes to exit. *)
Definition steps_to_exit (s : state) (th : pthread) : nat :=
  match th_pc th with
  | Exited => 0
  | AtStart => length (pending s (th_arg th)) + 3
  | InLoop _ =>
      length (pending s (th_arg th)) +
      (if running (slot s (th_arg th)) then 2 else 1)
  end.

(** Scenario: two workers with pending events, one of them already in its
    loop. *)
Definition two_workers : state :=
  after (event_thread_enqueue_event 2 (fn_extern 5) (p_extern 5) p_null true)
    (after (event_thread_loop_step 1)
       (after (event_thread_enqueue_event 1 (fn_extern 4) (p_extern 4) p_null true)
          (after (event_thread_create "b" fn_null p_null p_null all_ok)
             (after (event_thread_create "a" (fn_extern 0) (p_extern 0) p_null
                       all_ok) init_state)))).

(** The invariant can be checked on a concrete state. *)
#[global] Instance mail_ok_dec i e : Decision (mail_ok i e).
Proof. unfold mail_ok. destruct (callback e); apply _. Defined.

#[global] Instance update_ok_dec i e : Decision (update_ok i e).
Proof. unfold update_ok. apply _. Defined.

#[global] Instance record_at_dec s (P : event -> Prop)
  `{!forall e, Decision (P e)} a : Decision (record_at s P a).
Proof.
  unfold record_at. destruct (heap s !! a) as [[| |e]|]; apply _.
Defined.

#[global] Instance start_queue_ok_dec s i l : Decision (start_queue_ok s i l).
Proof. unfold start_queue_ok. destruct l; apply _. Defined.

#[global] Instance in_table_dec i : Decision (in_table i).
Proof. unfold in_table. apply _. Defined.

#[global] Instance worker_inv_dec s th : Decision (worker_inv s th).
Proof.
  unfold worker_inv.
  destruct (mailbox s (th_arg th)) as [[q c]|], (name_live s (th_arg th));
    try apply _.
  destruct (th_pc th); apply _.
Defined.

#[global] Instance thread_ok_dec s t th : Decision (thread_ok s t th).
Proof. unfold thread_ok. apply _. Defined.

#[global] Instance apart_dec s t th : Decision (apart s t th).
Proof. unfold apart. apply _. Defined.

#[global] Instance system_inv_dec s : Decision (system_inv s).
Proof. unfold system_inv, heap_bounded. apply _. Defined.

(** The calls a process makes on the subsystem, together with the
    scheduling steps of its worker threads. *)
Inductive api_call :=
| call_create (nm : string) (cb : fnptr) (a1 a2 : pointer) (env : create_env)
| call_enqueue (h : Z) (cb : fnptr) (a1 a2 : pointer) (calloc_ok : bool)
| call_stop (h : Z) (calloc_ok : bool)
| call_wait (sch : schedule)
| call_shutdown (calloc_ok : Z -> bool) (sch_stop sch_wait : schedule)
| thread_step (t : nat).

(** A run of calls; the result is the list of the handles returned by the
    creations that succeeded, in the order of the calls. *)
Fixpoint run_calls (l : list api_call) : M (list Z) :=
  match l with
  | [] => ret []
  | c :: l' =>
      match c with
      | call_create nm cb a1 a2 env =>
          let* h := event_thread_create nm cb a1 a2 env in
          let* hs := run_calls l' in
          ret (if decide (h = 0) then hs else h :: hs)
      | call_enqueue h cb a1 a2 ok =>
          let* _ := event_thread_enqueue_event h cb a1 a2 ok in run_calls l'
      | call_stop h ok =>
          let* _ := event_thread_stop h ok in run_calls l'
      | call_wait sch =>
          let* _ := event_thread_lib_wait sch in run_calls l'
      | call_shutdown ok sch_stop sch_wait =>
          let* _ := event_thread_lib_shutdown ok sch_stop sch_wait in
          run_calls l'
      | thread_step t =>
          let* _ := event_thread_loop_step t in run_calls l'
      end
  end.

(** A computation that leaves the table of slots as it found it. *)
Definition keeps_slots {A} (m : M A) : Prop :=
  forall s a s', m s = Ret a s' -> g_threads s' = g_threads s.

(** A computation that leaves the handle counter as it found it. *)
Definition keeps_cnt {A} (m : M A) : Prop :=
  forall s a s', m s = Ret a s' -> g_thread_cnt s' = g_thread_cnt s.

(** The number of steps the schedule [sch] gives to thread [t]. *)
Definition turns (t : nat) (sch : list nat) : nat :=
  length (filter (fun x => x = t) sch).

(** An environment in which only the allocation of the update record
    fails. *)
Definition no_update_record : create_env :=
  {| strdup_ok := true; calloc_queue_ok := true; calloc_event_ok := false;
     pthread_create_ok := true; signal_ok := true |}.

(** An environment in which only [pthread_create] fails. *)
Definition no_thread : create_env :=
  {| strdup_ok := true; calloc_queue_ok := true; calloc_event_ok := true;
     pthread_create_ok := false; signal_ok := true |}.

(** Scenario: a producer enqueues three events, the worker taking a step
    after each, and one more. *)
Definition three_events : list action :=
  [produce 1 (p_extern 1) p_null true; consume;
   produce 2 (p_extern 2) p_null true; consume;
   produce 3 (p_extern 3) p_null true; consume; consume].

(** Scenario: while the caller is blocked in the join of the thread of
    slot 0, thread 2 takes three steps, then thread 1 takes three. *)
Definition overtaking : schedule :=
  {| before_test := fun _ => [];
     after_test := fun i => if decide (i = 0) then [2; 2; 2; 1; 1; 1]%nat else [] |}.


(** An environment in which only the call of [signal] in the new thread
    fails. *)
Definition deaf : create_env :=
  {| strdup_ok := true; calloc_queue_ok := true; calloc_event_ok := true;
     pthread_create_ok := true; signal_ok := false |}.


(** * Properties *)

(** ** Evaluation lemmas for the primitives *)

Lemma bind_Ret {A B} (m : M A) (k : A -> M B) s a s' :
  m s = Ret a s' -> bind m k s = k a s'.
Proof. intros H. unfold bind. now rewrite H. Qed.

Lemma bind_Ret_inv {A B} (m : M A) (k : A -> M B) s b s'' :
  bind m k s = Ret b s'' ->
  exists a s', m s = Ret a s' /\ k a s' = Ret b s''.
Proof.
  unfold bind. destruct (m s) as [a s'| |]; try discriminate.
  intros H. now exists a, s'.
Qed.

Lemma slot_load_in i s :
  in_table i -> slot_load i s = Ret (slot s i) s.
Proof. intros H. unfold slot_load. now rewrite decide_True. Qed.

Lemma slot_load_out i s :
  ~ in_table i -> slot_load i s = Fault (OutOfBounds i).
Proof. intros H. unfold slot_load. now rewrite decide_False. Qed.

Lemma slot_modify_in i f s :
  in_table i ->
  slot_modify i f s = Ret tt (with_slots (<[i := f (slot s i)]> (g_threads s)) s).
Proof. intros H. unfold slot_modify. now rewrite decide_True. Qed.

Lemma slot_modify_out i f s :
  ~ in_table i -> slot_modify i f s = Fault (OutOfBounds i).
Proof. intros H. unfold slot_modify. now rewrite decide_False. Qed.

Lemma slot_with_slots_eq g s i x :
  slot (with_slots (<[i := x]> g) s) i = x.
Proof. unfold slot. simpl. now rewrite lookup_insert_eq. Qed.

Lemma slot_with_slots_ne g s i j x :
  i <> j -> slot (with_slots (<[i := x]> g) s) j = default zero_thread (g !! j).
Proof. intros H. unfold slot. simpl. now rewrite lookup_insert_ne. Qed.

Lemma load_event_live a e s :
  heap s !! a = Some (OEvent e) -> load_event a s = Ret e s.
Proof. intros H. unfold load_event. now rewrite H. Qed.

Lemma load_queue_live a c s :
  heap s !! a = Some (OQueue c) -> load_queue (Some a) s = Ret c s.
Proof. intros H. unfold load_queue. now rewrite H. Qed.

Lemma store_live a o o' s :
  heap s !! a = Some o' ->
  store a o s = Ret tt (with_heap (<[a := o]> (heap s)) s).
Proof. intros H. unfold store. now rewrite H. Qed.

Lemma free_live a o s :
  heap s !! a = Some o ->
  free (Some a) s =
  Ret tt (with_freed (freed s ++ [a]) (with_heap (delete a (heap s)) s)).
Proof. intros H. unfold free. now rewrite H. Qed.

Lemma queue_pop_empty q c s :
  heap s !! q = Some (OQueue c) -> data c = [] ->
  queue_pop (Some q) s = Ret None s.
Proof.
  intros H E. unfold queue_pop. rewrite (bind_Ret _ _ _ _ _ (load_queue_live _ _ _ H)).
  unfold con_queue_pop. now rewrite E.
Qed.

Lemma queue_pop_cons q c a rest s :
  heap s !! q = Some (OQueue c) -> data c = a :: rest ->
  queue_pop (Some q) s =
  Ret (Some a)
      (with_heap (<[q := OQueue {| size := size c; data := rest |}]> (heap s)) s).
Proof.
  intros H E. unfold queue_pop. rewrite (bind_Ret _ _ _ _ _ (load_queue_live _ _ _ H)).
  unfold con_queue_pop. rewrite E.
  now rewrite (bind_Ret _ _ _ _ _ (store_live _ _ _ _ H)).
Qed.

Lemma queue_push_live q c a s :
  heap s !! q = Some (OQueue c) -> has_room c ->
  queue_push (Some q) a s =
  Ret 0 (with_heap (<[q := OQueue {| size := size c; data := data c ++ [a] |}]>
                      (heap s)) s).
Proof.
  intros H Hroom. unfold queue_push.
  rewrite (bind_Ret _ _ _ _ _ (load_queue_live _ _ _ H)).
  unfold con_queue_push. rewrite decide_True by exact Hroom.
  now rewrite (bind_Ret _ _ _ _ _ (store_live _ _ _ _ H)).
Qed.

Lemma queue_push_full q c a s :
  heap s !! q = Some (OQueue c) -> ~ has_room c ->
  queue_push (Some q) a s = Fault (MailboxFull q).
Proof.
  intros H Hroom. unfold queue_push.
  rewrite (bind_Ret _ _ _ _ _ (load_queue_live _ _ _ H)).
  unfold con_queue_push. now rewrite decide_False by exact Hroom.
Qed.

(** A call through a callable record returns; it leaves the heap, the
    threads and the pointer fields of every slot as they are, and adds
    itself to the trace. *)
Lemma invoke_callable a e s :
  callable e ->
  exists s', invoke a e s = Ret tt s' /\
    heap s' = heap s /\ freed s' = freed s /\
    trace s' = trace s ++ [(a, e)] /\
    same_env s s' /\ same_fields s s' /\
    (forall i, running (slot s' i) =
               if clears e i then false else running (slot s i)).
Proof.
  unfold callable, invoke. destruct (callback e) eqn:Hc; try contradiction.
  - destruct (arg1 e) as [|j|] eqn:Ha; try contradiction. intros Hj.
    simpl. rewrite slot_modify_in by assumption. eexists. split; [reflexivity|].
    simpl. do 3 (split; [reflexivity|]). split; [now repeat split|]. split.
    + intros i. destruct (decide (j = i)) as [->|Hne].
      * now rewrite slot_with_slots_eq.
      * now rewrite slot_with_slots_ne.
    + intros i. destruct (decide (j = i)) as [->|Hne].
      * rewrite slot_with_slots_eq. unfold clears.
        rewrite bool_decide_eq_true_2; [reflexivity|now split].
      * rewrite slot_with_slots_ne by assumption. unfold clears.
        rewrite bool_decide_eq_false_2; [reflexivity|]. intros [_ E]. congruence.
  - intros _. eexists. split; [reflexivity|]. simpl.
    do 3 (split; [reflexivity|]). split; [now repeat split|]. split.
    + intros i. now repeat split.
    + intros i. unfold clears.
      rewrite bool_decide_eq_false_2; [reflexivity|]. intros [E _]. congruence.
Qed.

(** The tick: the call of the update record, skipped when its callback is
    null. *)
Lemma tick_spec u ue s :
  callback ue = fn_null \/ callable ue ->
  exists s', (match callback ue with
              | fn_null => ret tt
              | _ => invoke u ue
              end) s = Ret tt s' /\
    heap s' = heap s /\ freed s' = freed s /\
    trace s' = trace s ++ tick_calls u ue /\
    same_env s s' /\ same_fields s s' /\
    (forall i, running (slot s' i) =
               if clears ue i then false else running (slot s i)).
Proof.
  intros [Hn|Hc].
  - unfold tick_calls, clears. rewrite Hn. exists s. split; [reflexivity|].
    rewrite app_nil_r. do 3 (split; [reflexivity|]).
    split; [now repeat split|]. split; [intros i; now repeat split|].
    intros i. rewrite bool_decide_eq_false_2; [reflexivity|].
    intros [E _]. congruence.
  - destruct (invoke_callable u ue s Hc) as (s' & Hs' & H).
    exists s'. unfold tick_calls. unfold callable in Hc.
    destruct (callback ue); [contradiction| |]; (split; [exact Hs'|exact H]).
Qed.

Lemma same_env_refl s : same_env s s.
Proof. now repeat split. Qed.

Lemma same_env_trans s1 s2 s3 :
  same_env s1 s2 -> same_env s2 s3 -> same_env s1 s3.
Proof.
  unfold same_env. intros (?&?&?&?&?&?) (?&?&?&?&?&?).
  repeat split; congruence.
Qed.

Lemma same_fields_refl s : same_fields s s.
Proof. intros i. now repeat split. Qed.

Lemma same_fields_trans s1 s2 s3 :
  same_fields s1 s2 -> same_fields s2 s3 -> same_fields s1 s3.
Proof.
  intros H1 H2 i. destruct (H1 i) as (?&?&?), (H2 i) as (?&?&?).
  repeat split; congruence.
Qed.

(** One iteration of the loop, from a state where the update record and
    the mailbox are live and the head of the mailbox, if any, is a
    callable record: the tick, then at most one mailbox event, which is
    called and freed. *)
Lemma loop_body_spec i u ue q c s :
  in_table i ->
  heap s !! u = Some (OEvent ue) ->
  callback ue = fn_null \/ callable ue ->
  events (slot s i) = Some q ->
  heap s !! q = Some (OQueue c) ->
  (forall a rest, data c = a :: rest ->
                  exists e, heap s !! a = Some (OEvent e) /\ callable e) ->
  exists s', loop_body i u s = Ret tt s' /\ same_env s s' /\ same_fields s s' /\
    match data c with
    | [] =>
        heap s' = heap s /\ freed s' = freed s /\
        trace s' = trace s ++ tick_calls u ue /\
        (forall j, running (slot s' j) =
                   if clears ue j then false else running (slot s j))
    | a :: rest =>
        exists e, heap s !! a = Some (OEvent e) /\
          heap s' = delete a (<[q := OQueue {| size := size c; data := rest |}]>
                                (heap s)) /\
          freed s' = freed s ++ [a] /\
          trace s' = trace s ++ tick_calls u ue ++ [(a, e)] /\
          (forall j, running (slot s' j) =
                     if clears ue j || clears e j then false
                     else running (slot s j))
    end.
Proof.
  intros Hi Hu Hue Hq Hc Hhead. unfold loop_body.
  rewrite (bind_Ret _ _ _ _ _ (load_event_live _ _ _ Hu)).
  destruct (tick_spec u ue s Hue) as (s1 & Ht & Hh1 & Hf1 & Htr1 & He1 & Hp1 & Hr1).
  rewrite (bind_Ret _ _ _ _ _ Ht).
  rewrite (bind_Ret _ _ _ _ _ (slot_load_in _ _ Hi)).
  destruct (Hp1 i) as (Hev1 & _ & _). rewrite Hev1, Hq.
  assert (Hc1 : heap s1 !! q = Some (OQueue c)) by now rewrite Hh1.
  destruct (data c) as [|a rest] eqn:Hd.
  - rewrite (bind_Ret _ _ _ _ _ (queue_pop_empty _ _ _ Hc1 Hd)).
    exists s1. split; [reflexivity|]. split; [assumption|].
    split; [assumption|]. now repeat split.
  - destruct (Hhead a rest eq_refl) as (e & Ha & Hce).
    assert (Hne : q <> a) by (intros ->; congruence).
    rewrite (bind_Ret _ _ _ _ _ (queue_pop_cons _ _ _ _ _ Hc1 Hd)).
    set (s2 := with_heap _ s1).
    assert (Ha2 : heap s2 !! a = Some (OEvent e)).
    { subst s2. simpl. rewrite lookup_insert_ne by assumption. now rewrite Hh1. }
    rewrite (bind_Ret _ _ _ _ _ (load_event_live _ _ _ Ha2)).
    destruct (invoke_callable a e s2 Hce)
      as (s3 & Hinv & Hh3 & Hf3 & Htr3 & He3 & Hp3 & Hr3).
    rewrite (bind_Ret _ _ _ _ _ Hinv).
    assert (Ha3 : heap s3 !! a = Some (OEvent e)) by now rewrite Hh3.
    rewrite (free_live _ _ _ Ha3).
    eexists. split; [reflexivity|]. split; [|split].
    + apply (same_env_trans _ s1); [assumption|].
      apply (same_env_trans _ s2); [now repeat split|].
      apply (same_env_trans _ s3); [assumption|now repeat split].
    + apply (same_fields_trans _ s1); [assumption|].
      apply (same_fields_trans _ s2); [intros j; now repeat split|].
      apply (same_fields_trans _ s3); [assumption|intros j; now repeat split].
    + exists e. split; [assumption|]. simpl. split; [|split; [|split]].
      * rewrite Hh3. subst s2. simpl. now rewrite Hh1.
      * rewrite Hf3. subst s2. simpl. now rewrite Hf1.
      * rewrite Htr3. subst s2. simpl. rewrite Htr1. now rewrite <- app_assoc.
      * intros j. change (running (slot s3 j) =
                          if clears ue j || clears e j then false
                          else running (slot s j)).
        rewrite Hr3. change (slot s2 j) with (slot s1 j). rewrite Hr1.
        now destruct (clears ue j), (clears e j).
Qed.

Lemma head_callable_inv s c a rest :
  head_callable s c -> data c = a :: rest ->
  exists e, heap s !! a = Some (OEvent e) /\ callable e.
Proof.
  unfold head_callable. intros H E. rewrite E in H.
  destruct (heap s !! a) as [[| |e]|]; try contradiction. now exists e.
Qed.

(** A step of a thread that is in its loop and finds [running] set is one
    iteration; the thread stays in the loop with the same update record. *)
Lemma loop_step_running t th u ue q c s :
  threads s !! t = Some th -> th_pc th = InLoop u ->
  in_table (th_arg th) -> running (slot s (th_arg th)) = true ->
  heap s !! u = Some (OEvent ue) ->
  callback ue = fn_null \/ callable ue ->
  events (slot s (th_arg th)) = Some q ->
  heap s !! q = Some (OQueue c) ->
  head_callable s c ->
  exists s', event_thread_loop_step t s = Ret tt s' /\
    loop_body (th_arg th) u s = Ret tt s' /\
    threads s' !! t = Some th /\
    match data c with
    | [] =>
        heap s' = heap s /\ freed s' = freed s /\
        trace s' = trace s ++ tick_calls u ue /\
        pending s' (th_arg th) = []
    | a :: rest =>
        exists e, heap s !! a = Some (OEvent e) /\
          heap s' = delete a (<[q := OQueue {| size := size c; data := rest |}]>
                                (heap s)) /\
          freed s' = freed s ++ [a] /\
          trace s' = trace s ++ tick_calls u ue ++ [(a, e)] /\
          pending s' (th_arg th) = rest
    end.
Proof.
  intros Ht Hpc Hi Hrun Hu Hue Hq Hc Hhead.
  destruct (loop_body_spec (th_arg th) u ue q c s Hi Hu Hue Hq Hc)
    as (s' & Hb & He & Hp & Hres).
  { intros a rest E. exact (head_callable_inv _ _ _ _ Hhead E). }
  exists s'. split; [|split; [exact Hb|split]].
  - unfold event_thread_loop_step. rewrite Ht, Hpc.
    rewrite (bind_Ret _ _ _ _ _ (slot_load_in _ _ Hi)). now rewrite Hrun.
  - destruct He as (Hth & _). now rewrite Hth.
  - destruct (Hp (th_arg th)) as (Hev & _ & _).
    destruct (data c) as [|a rest] eqn:Hd.
    + destruct Hres as (Hh & Hf & Htr & _). repeat split; try assumption.
      unfold pending. now rewrite Hev, Hq, Hh, Hc.
    + destruct Hres as (e & Ha & Hh & Hf & Htr & _).
      exists e. repeat split; try assumption.
      unfold pending. rewrite Hev, Hq, Hh.
      assert (Hne : a <> q) by (intros ->; congruence).
      rewrite lookup_delete_ne by assumption. now rewrite lookup_insert_eq.
Qed.

(** ** The dispatch loop *)

(** C3: an iteration of the loop of a worker whose [running] flag is set
    first calls the update callback with its bound arguments and then
    makes one dequeue attempt.  With a payload, the callback of that
    record is called next and the record is freed; without one, the
    iteration ends there, without fault, and the thread stays in the
    loop.  So the trace grows by the update call followed by at most one
    mailbox call. *)
Theorem loop_iteration_tick_then_one_event t th u ue q c s :
  threads s !! t = Some th -> th_pc th = InLoop u ->
  in_table (th_arg th) -> running (slot s (th_arg th)) = true ->
  heap s !! u = Some (OEvent ue) -> callable ue ->
  events (slot s (th_arg th)) = Some q ->
  heap s !! q = Some (OQueue c) ->
  head_callable s c ->
  exists s', event_thread_loop_step t s = Ret tt s' /\
    threads s' !! t = Some th /\
    match data c with
    | [] =>
        trace s' = trace s ++ [(u, ue)] /\
        freed s' = freed s /\ heap s' = heap s
    | a :: rest =>
        exists e, heap s !! a = Some (OEvent e) /\
          trace s' = trace s ++ [(u, ue); (a, e)] /\
          freed s' = freed s ++ [a] /\
          heap s' !! a = None /\
          pending s' (th_arg th) = rest
    end.
Proof.
  intros Ht Hpc Hi Hrun Hu Hue Hq Hc Hhead.
  destruct (loop_step_running t th u ue q c s Ht Hpc Hi Hrun Hu (or_intror Hue)
              Hq Hc Hhead) as (s' & Hstep & _ & Hth & Hres).
  exists s'. split; [exact Hstep|]. split; [exact Hth|].
  assert (Htick : tick_calls u ue = [(u, ue)]).
  { unfold tick_calls. unfold callable in Hue.
    now destruct (callback ue). }
  rewrite Htick in Hres. destruct (data c) as [|a rest].
  - destruct Hres as (Hh & Hf & Htr & _). now repeat split.
  - destruct Hres as (e & Ha & Hh & Hf & Htr & Hp).
    exists e. repeat split; try assumption.
    rewrite Hh. apply lookup_delete_eq.
Qed.

Lemma loop_iteration_tick_then_one_event_witness :
  exists s', event_thread_loop_step 1 probe_loaded = Ret tt s' /\
    trace s' = [(3%nat, {| callback := fn_extern 0; arg1 := p_extern 0;
                           arg2 := p_null |});
                (4%nat, {| callback := fn_extern 1; arg1 := p_extern 1;
                           arg2 := p_null |})] /\
    freed s' = [4%nat] /\ pending s' 0 = [5%nat; 6%nat].
Proof.
  destruct (loop_iteration_tick_then_one_event 1%nat
              {| th_arg := 0; th_signal_ok := true; th_pc := InLoop 3 |}
              3%nat {| callback := fn_extern 0; arg1 := p_extern 0; arg2 := p_null |}
              2%nat {| size := 32; data := [4%nat; 5%nat; 6%nat] |} probe_loaded)
    as (s' & Hstep & _ & e & He & Htr & Hf & _ & Hp).
  - vm_compute; reflexivity.
  - vm_compute; reflexivity.
  - unfold in_table, MAX_EVENT_THREADS. simpl. lia.
  - vm_compute; reflexivity.
  - vm_compute; reflexivity.
  - vm_compute; exact I.
  - vm_compute; reflexivity.
  - vm_compute; reflexivity.
  - vm_compute; exact I.
  - exists s'. split; [exact Hstep|].
    vm_compute in He. injection He as <-. now repeat split.
Defined.

(** C10: a worker whose update callback is null is tolerated.  An
    iteration of its loop makes no call for the tick, does not fault, and
    dequeues and runs a mailbox event as usual. *)
Theorem null_update_callback_is_skipped t th u ue q c s :
  threads s !! t = Some th -> th_pc th = InLoop u ->
  in_table (th_arg th) -> running (slot s (th_arg th)) = true ->
  heap s !! u = Some (OEvent ue) -> callback ue = fn_null ->
  events (slot s (th_arg th)) = Some q ->
  heap s !! q = Some (OQueue c) ->
  head_callable s c ->
  exists s', event_thread_loop_step t s = Ret tt s' /\
    threads s' !! t = Some th /\
    match data c with
    | [] => trace s' = trace s /\ freed s' = freed s /\ heap s' = heap s
    | a :: rest =>
        exists e, heap s !! a = Some (OEvent e) /\
          trace s' = trace s ++ [(a, e)] /\
          freed s' = freed s ++ [a] /\
          heap s' !! a = None /\
          pending s' (th_arg th) = rest
    end.
Proof.
  intros Ht Hpc Hi Hrun Hu Hue Hq Hc Hhead.
  destruct (loop_step_running t th u ue q c s Ht Hpc Hi Hrun Hu (or_introl Hue)
              Hq Hc Hhead) as (s' & Hstep & _ & Hth & Hres).
  exists s'. split; [exact Hstep|]. split; [exact Hth|].
  assert (Htick : tick_calls u ue = []) by (unfold tick_calls; now rewrite Hue).
  rewrite Htick in Hres. destruct (data c) as [|a rest].
  - destruct Hres as (Hh & Hf & Htr & _). rewrite app_nil_r in Htr.
    now repeat split.
  - destruct Hres as (e & Ha & Hh & Hf & Htr & Hp).
    exists e. repeat split; try assumption.
    rewrite Hh. apply lookup_delete_eq.
Qed.

Lemma null_update_callback_is_skipped_witness :
  exists s', event_thread_loop_step 1 silent_loaded = Ret tt s' /\
    trace s' = [(4%nat, {| callback := fn_extern 1; arg1 := p_extern 1;
                           arg2 := p_null |})] /\
    freed s' = [4%nat] /\ pending s' 0 = [].
Proof.
  destruct (null_update_callback_is_skipped 1%nat
              {| th_arg := 0; th_signal_ok := true; th_pc := InLoop 3 |}
              3%nat {| callback := fn_null; arg1 := p_null; arg2 := p_null |}
              2%nat {| size := 32; data := [4%nat] |} silent_loaded)
    as (s' & Hstep & _ & e & He & Htr & Hf & _ & Hp).
  - vm_compute; reflexivity.
  - vm_compute; reflexivity.
  - unfold in_table, MAX_EVENT_THREADS. simpl. lia.
  - vm_compute; reflexivity.
  - vm_compute; reflexivity.
  - vm_compute; reflexivity.
  - vm_compute; reflexivity.
  - vm_compute; reflexivity.
  - vm_compute; exact I.
  - exists s'. split; [exact Hstep|].
    vm_compute in He. injection He as <-. now repeat split.
Defined.

(** ** Handles and the bounds of the table *)

Lemma size_t_small z : 0 <= z < 2 ^ 64 -> size_t z = z.
Proof. intros H. unfold size_t. now apply Z.mod_small. Qed.

Lemma get_event_thread_valid h :
  1 <= h <= MAX_EVENT_THREADS -> get_event_thread h = Some (h - 1).
Proof.
  unfold get_event_thread, MAX_EVENT_THREADS. intros H.
  rewrite decide_False by lia. rewrite size_t_small by lia. reflexivity.
Qed.

Lemma get_event_thread_above h :
  h > MAX_EVENT_THREADS -> get_event_thread h = None.
Proof. intros H. unfold get_event_thread. now rewrite decide_True. Qed.

(** The bounds check lets handle 0 through: it yields the address of the
    slot at index [SIZE_MAX], which is outside the table. *)
Lemma get_event_thread_zero :
  get_event_thread 0 = Some 18446744073709551615.
Proof. reflexivity. Qed.

(** When the record cannot be allocated, the enqueue returns -1 for every
    handle the bounds check lets through. *)
Lemma enqueue_calloc_failure h cb a1 a2 s :
  h <= MAX_EVENT_THREADS ->
  event_thread_enqueue_event h cb a1 a2 false s = Ret (-1) s.
Proof.
  intros H. unfold event_thread_enqueue_event, get_event_thread.
  rewrite decide_False by lia. reflexivity.
Qed.

Lemma enqueue_above_table h cb a1 a2 ok s :
  h > MAX_EVENT_THREADS ->
  event_thread_enqueue_event h cb a1 a2 ok s = Ret (-1) s.
Proof.
  intros H. unfold event_thread_enqueue_event.
  now rewrite get_event_thread_above.
Qed.

(** An enqueue that returns, returns 0 or -1, and -1 only when the handle
    is above the table or the allocation fails. *)
Lemma enqueue_status h cb a1 a2 ok s r s' :
  event_thread_enqueue_event h cb a1 a2 ok s = Ret r s' ->
  (r = -1 /\ s' = s /\ (h > MAX_EVENT_THREADS \/ ok = false)) \/
  (r = 0 /\ h <= MAX_EVENT_THREADS /\ ok = true).
Proof.
  unfold event_thread_enqueue_event, get_event_thread.
  destruct (decide (h > MAX_EVENT_THREADS)) as [Hh|Hh].
  - intros [= <- <-]. left. auto.
  - destruct ok.
    + intros H. right. split; [|split; [lia|reflexivity]].
      apply bind_Ret_inv in H as (ev & s1 & Hev & H).
      unfold alloc in Hev. injection Hev as <- <-.
      apply bind_Ret_inv in H as (? & s2 & _ & H).
      apply bind_Ret_inv in H as (? & s3 & _ & H).
      apply bind_Ret_inv in H as (? & s4 & _ & H).
      now injection H as <- _.
    + intros [= <- <-]. left. auto.
Qed.

(** An enqueue to a created worker whose mailbox is live and not full
    succeeds: the new record goes to the tail. *)
Lemma enqueue_live h cb a1 a2 q c s :
  1 <= h <= MAX_EVENT_THREADS ->
  events (slot s (h - 1)) = Some q ->
  heap s !! q = Some (OQueue c) -> has_room c ->
  heap s !! next_addr s = None ->
  event_thread_enqueue_event h cb a1 a2 true s =
  Ret 0 (with_heap
           (<[q := OQueue {| size := size c; data := data c ++ [next_addr s] |}]>
              (<[next_addr s := OEvent {| callback := cb; arg1 := a1; arg2 := a2 |}]>
                 (heap s)))
           (with_next_addr (S (next_addr s)) s)).
Proof.
  intros Hh Hq Hc Hroom Hfresh. unfold event_thread_enqueue_event.
  rewrite get_event_thread_valid by assumption.
  assert (Hne : next_addr s <> q) by (intros E; rewrite E in Hfresh; congruence).
  unfold alloc at 1. unfold bind at 1.
  erewrite bind_Ret; [|eapply store_live; simpl; apply lookup_insert_eq].
  erewrite bind_Ret; [|apply slot_load_in; unfold in_table; lia].
  change (slot _ (h - 1)) with (slot s (h - 1)). rewrite Hq.
  erewrite bind_Ret;
    [|eapply queue_push_live; [|exact Hroom]; simpl; rewrite insert_insert_eq;
      rewrite lookup_insert_ne by assumption; exact Hc].
  unfold ret. simpl. now rewrite insert_insert_eq.
Qed.

(** C2 (failing input): an enqueue on handle 0, the reserved invalid
    handle, with a successful allocation does not return -1.  The bounds
    check of [get_event_thread] only rejects handles above the table, so
    the code goes on to read [thread->events] from the slot at index
    [SIZE_MAX], outside the table. *)
Theorem enqueue_handle_zero_reads_outside_table cb a1 a2 s :
  event_thread_enqueue_event 0 cb a1 a2 true s =
  Fault (OutOfBounds 18446744073709551615).
Proof.
  unfold event_thread_enqueue_event. rewrite get_event_thread_zero.
  unfold alloc at 1. unfold bind at 1.
  erewrite bind_Ret; [|eapply store_live; simpl; apply lookup_insert_eq].
  unfold bind. rewrite slot_load_out; [reflexivity|].
  unfold in_table, MAX_EVENT_THREADS. lia.
Qed.

(** C4 (failing input): a stop on handle 0 does not return -1 either: it
    goes through the same enqueue and faults on the same read outside the
    table. *)
Theorem stop_handle_zero_reads_outside_table s :
  event_thread_stop 0 true s = Fault (OutOfBounds 18446744073709551615).
Proof.
  unfold event_thread_stop. rewrite get_event_thread_zero.
  unfold bind. unfold event_thread_enqueue_event. rewrite get_event_thread_zero.
  unfold alloc at 1. unfold bind at 1.
  erewrite bind_Ret; [|eapply store_live; simpl; apply lookup_insert_eq].
  unfold bind. rewrite slot_load_out; [reflexivity|].
  unfold in_table, MAX_EVENT_THREADS. lia.
Qed.

(** Once the counter stands at the capacity of the table, a creation
    writes to the slot one past its end. *)
Lemma create_on_full_table nm cb a1 a2 env s :
  g_thread_cnt s = MAX_EVENT_THREADS ->
  event_thread_create nm cb a1 a2 env s = Fault (OutOfBounds 32).
Proof.
  intros H. unfold event_thread_create. rewrite H.
  change (size_t (MAX_EVENT_THREADS + 1)) with 33.
  change (size_t (33 - 1)) with 32.
  unfold bind. rewrite slot_modify_out; [reflexivity|].
  unfold in_table, MAX_EVENT_THREADS. lia.
Qed.

(** C1 (failing input): 32 creations succeed with the handles 1 to 32;
    the next creation does not return 0: it makes no capacity check and
    writes [running], [name] and [events] to [g_threads[32]], one slot
    past the end of the table. *)
Theorem create_beyond_capacity_writes_outside_table :
  handles_after 32 = Some <$> seqZ 1 32 /\
  forall nm cb a1 a2 env,
    event_thread_create nm cb a1 a2 env (registry_after 32) =
    Fault (OutOfBounds 32).
Proof.
  split.
  - vm_compute. reflexivity.
  - intros. apply create_on_full_table. vm_compute. reflexivity.
Qed.

(** ** Creation *)

Lemma heap_bounded_fresh s a :
  heap_bounded s -> (next_addr s <= a)%nat -> heap s !! a = None.
Proof.
  intros Hb Ha. destruct (heap s !! a) as [o|] eqn:E; [|reflexivity].
  apply (map_Forall_lookup_1 _ _ _ _ Hb) in E. lia.
Qed.

Ltac unfold_state :=
  unfold with_cnt, with_slots, with_heap, with_next_addr, with_threads,
    with_next_tid, with_trace, with_freed, with_signals, with_joined in *.

Ltac unfold_prims :=
  unfold bind, ret, fail, slot_modify, slot_load, alloc, store, free,
    queue_push, queue_pop, con_queue_push, load_queue, load_event,
    pthread_create, set_pc, slot in *.

Ltac side := unfold in_table, MAX_EVENT_THREADS in *; lia.

(** Symbolic execution of straight-line code on a state given by its
    fields. *)
Ltac exec :=
  repeat (unfold_prims; unfold_state; cbn;
          rewrite ?lookup_insert_eq, ?lookup_delete_eq, ?decide_True by side;
          rewrite ?lookup_insert_ne, ?lookup_delete_ne by side).

Ltac enter_create Hi :=
  unfold in_table, MAX_EVENT_THREADS in Hi;
  unfold event_thread_create, event_thread_enqueue_event;
  rewrite !size_t_small by (rewrite ?size_t_small; lia);
  rewrite get_event_thread_valid by (unfold MAX_EVENT_THREADS; lia);
  rewrite ?Z.add_simpl_r.

(** The slot a creation initialises, from the slot it finds. *)
Lemma create_strdup_failure nm cb a1 a2 env s :
  in_table (g_thread_cnt s) ->
  strdup_ok env = false ->
  event_thread_create nm cb a1 a2 env s =
  Ret 0 (with_slots
           (<[g_thread_cnt s :=
                set_name None (set_running true (slot s (g_thread_cnt s)))]>
              (g_threads s))
           (with_cnt (g_thread_cnt s + 1) s)).
Proof.
  intros Hi E1. enter_create Hi. rewrite E1.
  destruct s as [cnt g h na th nt tr fr sg jn]. simpl in *. exec.
  now rewrite insert_insert_eq.
Qed.

Lemma create_queue_failure nm cb a1 a2 env s :
  in_table (g_thread_cnt s) ->
  heap s !! next_addr s = None ->
  strdup_ok env = true -> calloc_queue_ok env = false ->
  event_thread_create nm cb a1 a2 env s =
  Ret 0 (with_freed (freed s ++ [next_addr s])
           (with_next_addr (S (next_addr s))
              (with_slots
                 (<[g_thread_cnt s :=
                      set_events None
                        (set_name (Some (next_addr s))
                           (set_running true (slot s (g_thread_cnt s))))]>
                    (g_threads s))
                 (with_cnt (g_thread_cnt s + 1) s)))).
Proof.
  intros Hi Hf E1 E2. enter_create Hi. rewrite E1, E2.
  destruct s as [cnt g h na th nt tr fr sg jn]. simpl in *. exec.
  rewrite !insert_insert_eq. now rewrite delete_insert_id.
Qed.

Lemma create_spawn_failure nm cb a1 a2 env s :
  in_table (g_thread_cnt s) ->
  heap_bounded s ->
  strdup_ok env = true -> calloc_queue_ok env = true ->
  pthread_create_ok env = false ->
  event_thread_create nm cb a1 a2 env s =
  Ret 0 (with_freed (freed s ++ [S (next_addr s); next_addr s])
           (with_heap
              (if calloc_event_ok env
               then <[S (S (next_addr s)) :=
                        OEvent {| callback := cb; arg1 := a1; arg2 := a2 |}]>
                      (heap s)
               else heap s)
              (with_next_addr
                 (if calloc_event_ok env then S (S (S (next_addr s)))
                  else S (S (next_addr s)))
                 (with_slots
                    (<[g_thread_cnt s :=
                         set_events (Some (S (next_addr s)))
                           (set_name (Some (next_addr s))
                              (set_running true (slot s (g_thread_cnt s))))]>
                       (g_threads s))
                    (with_cnt (g_thread_cnt s + 1) s))))).
Proof.
  intros Hi Hb E1 E2 E4.
  assert (H0 : heap s !! next_addr s = None)
    by (apply (heap_bounded_fresh _ _ Hb); lia).
  assert (H1 : heap s !! S (next_addr s) = None)
    by (apply (heap_bounded_fresh _ _ Hb); lia).
  enter_create Hi. rewrite E1, E2, E4.
  destruct s as [cnt g h na th nt tr fr sg jn]. simpl in *.
  destruct (calloc_event_ok env); exec.
  - rewrite !insert_insert_eq, <- app_assoc. simpl.
    do 2 f_equal. apply map_eq. intros k.
    destruct (decide (k = na)) as [->|]; [now rewrite lookup_delete_eq, lookup_insert_ne, H0 by lia|].
    destruct (decide (k = S na)) as [->|]; [rewrite lookup_delete_ne, lookup_delete_eq, lookup_insert_ne, H1 by lia; reflexivity|].
    rewrite !lookup_delete_ne by congruence.
    rewrite lookup_insert_ne by congruence.
    destruct (decide (k = S (S na))) as [->|].
    + now rewrite !lookup_insert_eq.
    + now rewrite !lookup_insert_ne by congruence.
  - rewrite !insert_insert_eq, <- app_assoc. simpl.
    do 2 f_equal. rewrite delete_insert_eq. rewrite delete_insert_ne by lia.
    rewrite (delete_id _ _ H1). now rewrite delete_insert_id.
Qed.

(** Equality of two maps built from inserts and deletes, by cases on the
    key. *)
Ltac map_cases :=
  let k := fresh "k" in
  apply map_eq; intros k;
  rewrite ?lookup_insert, ?lookup_delete;
  repeat case_decide; subst; try reflexivity; try congruence; try lia.

Lemma create_success nm cb a1 a2 env s :
  in_table (g_thread_cnt s) ->
  heap_bounded s ->
  strdup_ok env = true -> calloc_queue_ok env = true ->
  pthread_create_ok env = true ->
  event_thread_create nm cb a1 a2 env s =
  Ret (g_thread_cnt s + 1)
    (with_threads
       (<[next_tid s := {| th_arg := g_thread_cnt s;
                           th_signal_ok := signal_ok env;
                           th_pc := AtStart |}]> (threads s))
       (with_next_tid (S (next_tid s))
          (with_heap
             (if calloc_event_ok env
              then <[S (next_addr s) :=
                       OQueue {| size := 32; data := [S (S (next_addr s))] |}]>
                     (<[S (S (next_addr s)) :=
                          OEvent {| callback := cb; arg1 := a1; arg2 := a2 |}]>
                        (<[next_addr s := OName nm]> (heap s)))
              else <[S (next_addr s) := OQueue {| size := 32; data := [] |}]>
                     (<[next_addr s := OName nm]> (heap s)))
             (with_next_addr
                (if calloc_event_ok env then S (S (S (next_addr s)))
                 else S (S (next_addr s)))
                (with_slots
                   (<[g_thread_cnt s :=
                        {| running := true; name := Some (next_addr s);
                           events := Some (S (next_addr s));
                           tid := next_tid s |}]> (g_threads s))
                   (with_cnt (g_thread_cnt s + 1) s)))))).
Proof.
  intros Hi Hb E1 E2 E4.
  enter_create Hi. rewrite E1, E2, E4.
  destruct s as [cnt g h na th nt tr fr sg jn]. simpl in *.
  destruct (calloc_event_ok env); exec.
  - rewrite !insert_insert_eq. do 2 f_equal. map_cases.
  - rewrite !insert_insert_eq. reflexivity.
Qed.

(** C7 (failing input): when [pthread_create] fails after the name, the
    mailbox and the update record were allocated, the creation returns 0
    and frees the mailbox and the name, but not the update record it had
    pushed into the mailbox: that record stays on the heap, so the
    allocations of the call are not all rolled back. *)
Theorem create_spawn_failure_leaks_update_record :
  exists s',
    event_thread_create "probe" (fn_extern 0) (p_extern 0) p_null
      {| strdup_ok := true; calloc_queue_ok := true; calloc_event_ok := true;
         pthread_create_ok := false; signal_ok := true |} init_state
    = Ret 0 s' /\
    freed s' = [2%nat; 1%nat] /\
    heap s' = {[ 3%nat := OEvent {| callback := fn_extern 0;
                                    arg1 := p_extern 0; arg2 := p_null |} ]} /\
    heap s' <> heap init_state.
Proof.
  eexists. split; [vm_compute; reflexivity|]. simpl.
  split; [reflexivity|]. split; [vm_compute; reflexivity|].
  intros E. apply (f_equal (fun m => m !! 3%nat)) in E. vm_compute in E.
  discriminate.
Qed.

(** The frees of a failed creation, case by case: none when [strdup]
    fails, the name when the mailbox cannot be allocated, the mailbox and
    then the name when the thread cannot be spawned. *)
Lemma create_failure_frees nm cb a1 a2 env s :
  in_table (g_thread_cnt s) ->
  heap_bounded s ->
  strdup_ok env && calloc_queue_ok env && pthread_create_ok env = false ->
  exists s', event_thread_create nm cb a1 a2 env s = Ret 0 s' /\
    freed s' = freed s ++
      (if negb (strdup_ok env) then []
       else if negb (calloc_queue_ok env) then [next_addr s]
       else [S (next_addr s); next_addr s]).
Proof.
  intros Hi Hb E.
  destruct (strdup_ok env) eqn:E1; simpl in *.
  - destruct (calloc_queue_ok env) eqn:E2; simpl in *.
    + rewrite (create_spawn_failure _ _ _ _ _ _ Hi Hb E1 E2 E).
      eexists. split; reflexivity.
    + rewrite (create_queue_failure _ _ _ _ _ _ Hi)
        by (try apply (heap_bounded_fresh _ _ Hb); auto).
      eexists. split; reflexivity.
  - rewrite (create_strdup_failure _ _ _ _ _ _ Hi E1).
    eexists. split; [reflexivity|]. simpl. now rewrite app_nil_r.
Qed.

(** ** The handle counter *)

Lemma keeps_cnt_ret {A} (a : A) : keeps_cnt (ret a).
Proof. intros s b s' H. inversion H; subst; reflexivity. Qed.

Lemma keeps_cnt_fail {A} f : keeps_cnt (@fail A f).
Proof. intros s b s' H. discriminate. Qed.

Lemma keeps_cnt_bind {A B} (m : M A) (k : A -> M B) :
  keeps_cnt m -> (forall a, keeps_cnt (k a)) -> keeps_cnt (bind m k).
Proof.
  intros Hm Hk s b s'' H. apply bind_Ret_inv in H as (a & s' & H1 & H2).
  rewrite (Hk _ _ _ _ H2). exact (Hm _ _ _ H1).
Qed.

Lemma keeps_cnt_slot_load i : keeps_cnt (slot_load i).
Proof.
  intros s a s'. unfold slot_load. case_decide; [|discriminate].
  intros HRet; inversion HRet; subst; reflexivity.
Qed.

Lemma keeps_cnt_slot_modify i f : keeps_cnt (slot_modify i f).
Proof.
  intros s a s'. unfold slot_modify. case_decide; [|discriminate].
  intros HRet; inversion HRet; subst; reflexivity.
Qed.

Lemma keeps_cnt_alloc ok o : keeps_cnt (alloc ok o).
Proof. intros s a s'. unfold alloc. destruct ok; intros HRet; inversion HRet; subst; reflexivity. Qed.

Lemma keeps_cnt_free p : keeps_cnt (free p).
Proof.
  intros s a s'. unfold free. destruct p as [x|]; [|intros HRet; inversion HRet; subst; reflexivity].
  destruct (heap s !! x); [|discriminate]. intros HRet; inversion HRet; subst; reflexivity.
Qed.

Lemma keeps_cnt_load_queue p : keeps_cnt (load_queue p).
Proof.
  intros s a s'. unfold load_queue. destruct p as [x|]; [|discriminate].
  destruct (heap s !! x) as [[| |]|]; try discriminate. intros HRet; inversion HRet; subst; reflexivity.
Qed.

Lemma keeps_cnt_load_event x : keeps_cnt (load_event x).
Proof.
  intros s a s'. unfold load_event.
  destruct (heap s !! x) as [[| |]|]; try discriminate. intros HRet; inversion HRet; subst; reflexivity.
Qed.

Lemma keeps_cnt_store x o : keeps_cnt (store x o).
Proof.
  intros s a s'. unfold store. destruct (heap s !! x); [|discriminate].
  intros HRet; inversion HRet; subst; reflexivity.
Qed.

Lemma keeps_cnt_set_pc t p : keeps_cnt (set_pc t p).
Proof.
  intros s a s'. unfold set_pc. destruct (threads s !! t); [|discriminate].
  intros HRet; inversion HRet; subst; reflexivity.
Qed.

Lemma keeps_cnt_pthread_kill t : keeps_cnt (pthread_kill t).
Proof.
  intros s a s'. unfold pthread_kill.
  destruct (threads s !! t); [|discriminate].
  destruct (decide (handler_installed s)); [|discriminate].
  intros HRet; inversion HRet; subst; reflexivity.
Qed.

Create HintDb cnt.
#[local] Hint Resolve keeps_cnt_ret keeps_cnt_fail keeps_cnt_slot_load
  keeps_cnt_slot_modify keeps_cnt_alloc keeps_cnt_free keeps_cnt_load_queue
  keeps_cnt_load_event keeps_cnt_store keeps_cnt_set_pc keeps_cnt_pthread_kill
  : cnt.

(** Decomposition of a monadic body into its primitives. *)
Ltac cnt_steps :=
  repeat first
    [ solve [auto with cnt]
    | apply keeps_cnt_bind; [|intros ?]
    | match goal with
      | |- keeps_cnt (match ?x with _ => _ end) => destruct x
      end ].

Lemma keeps_cnt_queue_push p e : keeps_cnt (queue_push p e).
Proof. unfold queue_push. cnt_steps. Qed.

Lemma keeps_cnt_queue_pop p : keeps_cnt (queue_pop p).
Proof. unfold queue_pop. cnt_steps. Qed.

#[local] Hint Resolve keeps_cnt_queue_push keeps_cnt_queue_pop : cnt.

Lemma keeps_cnt_enqueue h cb a1 a2 ok :
  keeps_cnt (event_thread_enqueue_event h cb a1 a2 ok).
Proof. unfold event_thread_enqueue_event. cnt_steps. Qed.

#[local] Hint Resolve keeps_cnt_enqueue : cnt.

Lemma keeps_cnt_stop h ok : keeps_cnt (event_thread_stop h ok).
Proof. unfold event_thread_stop. cnt_steps. Qed.

Lemma keeps_cnt_invoke a e : keeps_cnt (invoke a e).
Proof.
  intros s x s'. unfold invoke, event_thread_stop_cb.
  destruct (callback e); [discriminate| |intros HRet; inversion HRet; subst; reflexivity].
  destruct (arg1 e); try discriminate.
  intros H. now apply keeps_cnt_slot_modify in H.
Qed.

#[local] Hint Resolve keeps_cnt_stop keeps_cnt_invoke : cnt.

Lemma keeps_cnt_loop_body i u : keeps_cnt (loop_body i u).
Proof. unfold loop_body. cnt_steps. Qed.

Lemma keeps_cnt_destroy_loop n i : keeps_cnt (destroy_loop n i).
Proof.
  induction n as [|n IH]; simpl.
  - intros s a s' H. discriminate.
  - cnt_steps.
Qed.

#[local] Hint Resolve keeps_cnt_loop_body keeps_cnt_destroy_loop : cnt.

Lemma keeps_cnt_destroy i : keeps_cnt (event_thread_destroy i).
Proof.
  intros s a s'. unfold event_thread_destroy.
  apply (keeps_cnt_bind _ _ (keeps_cnt_destroy_loop _ _)). intros ?. cnt_steps.
Qed.

#[local] Hint Resolve keeps_cnt_destroy : cnt.

Lemma keeps_cnt_loop_out t i u : keeps_cnt (loop_out t i u).
Proof. unfold loop_out. cnt_steps. Qed.

#[local] Hint Resolve keeps_cnt_loop_out : cnt.

Lemma keeps_cnt_loop_step t : keeps_cnt (event_thread_loop_step t).
Proof.
  intros s a s'. unfold event_thread_loop_step.
  destruct (threads s !! t) as [th|]; [|discriminate].
  destruct (th_pc th).
  - destruct (th_signal_ok th).
    + revert s a s'. change (keeps_cnt
        (let* thread := slot_load (th_arg th) in
         let* r := queue_pop (events thread) in
         match r with
         | Some u => set_pc t (InLoop u)
         | None => loop_out t (th_arg th) None
         end)). cnt_steps.
    + apply keeps_cnt_loop_out.
  - revert s a s'. change (keeps_cnt
      (let* thread := slot_load (th_arg th) in
       if running thread then loop_body (th_arg th) update_ev
       else loop_out t (th_arg th) (Some update_ev))). cnt_steps.
  - intros HRet; inversion HRet; subst; reflexivity.
Qed.

#[local] Hint Resolve keeps_cnt_loop_step : cnt.

Lemma keeps_cnt_run_workers l : keeps_cnt (run_workers l).
Proof. induction l as [|t l IH]; simpl; cnt_steps. Qed.

Lemma keeps_cnt_join sch t : keeps_cnt (pthread_join sch t).
Proof.
  induction sch as [|t' sch IH]; intros s a s'; simpl;
    destruct (threads s !! t) as [th|]; try discriminate;
    destruct (th_pc th); try discriminate; try (intros HRet; inversion HRet; subst; reflexivity).
  - apply (keeps_cnt_bind _ _ (keeps_cnt_loop_step t') (fun _ => IH)).
  - apply (keeps_cnt_bind _ _ (keeps_cnt_loop_step t') (fun _ => IH)).
Qed.

#[local] Hint Resolve keeps_cnt_run_workers keeps_cnt_join : cnt.

Lemma keeps_cnt_wait_loop sch l : keeps_cnt (wait_loop sch l).
Proof. induction l as [|i l IH]; simpl; cnt_steps. Qed.

Lemma keeps_cnt_shutdown_loop ok sch l : keeps_cnt (shutdown_loop ok sch l).
Proof. induction l as [|i l IH]; simpl; cnt_steps. Qed.

#[local] Hint Resolve keeps_cnt_wait_loop keeps_cnt_shutdown_loop : cnt.

Lemma keeps_cnt_wait sch : keeps_cnt (event_thread_lib_wait sch).
Proof. unfold event_thread_lib_wait. auto with cnt. Qed.

Lemma keeps_cnt_shutdown ok sch1 sch2 :
  keeps_cnt (event_thread_lib_shutdown ok sch1 sch2).
Proof.
  unfold event_thread_lib_shutdown, event_thread_lib_wait. cnt_steps.
Qed.

(** Inversion of a monadic body that returned. *)
Ltac inv_bind H :=
  repeat match type of H with
    | bind _ _ _ = Ret _ _ =>
        let a := fresh "a" in
        let s := fresh "s" in
        let H1 := fresh "H" in
        apply bind_Ret_inv in H as (a & s & H1 & H)
    | (match ?x with _ => _ end) _ = Ret _ _ => destruct x
    | (if ?x then _ else _) _ = Ret _ _ => destruct x
    end.

Lemma keeps_cnt_pthread_create ok sig i : keeps_cnt (pthread_create ok sig i).
Proof.
  intros s a s'. unfold pthread_create. destruct ok.
  - intros H. apply bind_Ret_inv in H as (? & s1 & H1 & H).
    apply keeps_cnt_slot_modify in H1. inversion H; subst. exact H1.
  - intros HRet; inversion HRet; subst; reflexivity.
Qed.

#[local] Hint Resolve keeps_cnt_pthread_create : cnt.

(** A creation that returns has advanced the counter by one and returns
    either 0 or the new value of the counter, which is a handle of the
    table. *)
Lemma create_returns nm cb a1 a2 env s h s' :
  0 <= g_thread_cnt s < 2 ^ 64 ->
  event_thread_create nm cb a1 a2 env s = Ret h s' ->
  g_thread_cnt s' = g_thread_cnt s + 1 /\
  (h = 0 \/ h = g_thread_cnt s + 1) /\
  in_table (g_thread_cnt s).
Proof.
  intros Hc H. unfold event_thread_create in H.
  set (id := size_t (g_thread_cnt s + 1)) in *.
  set (i := size_t (id - 1)) in *.
  assert (Hi : in_table i).
  { apply bind_Ret_inv in H as (? & ? & H & _).
    unfold slot_modify in H. now case_decide. }
  assert (Hid : id = g_thread_cnt s + 1 /\ in_table (g_thread_cnt s)).
  { unfold in_table, MAX_EVENT_THREADS in *. subst i id. unfold size_t in *.
    destruct (decide (g_thread_cnt s + 1 = 2 ^ 64)) as [E|E].
    - rewrite E in Hi. change (2 ^ 64 mod 2 ^ 64) with 0 in Hi.
      change ((0 - 1) mod 2 ^ 64) with (2 ^ 64 - 1) in Hi. lia.
    - rewrite (Z.mod_small (g_thread_cnt s + 1)) in * by lia.
      rewrite Z.mod_small in Hi by lia. lia. }
  destruct Hid as (Hid & Ht). split; [|split; [|exact Ht]].
  - match type of H with
    | ?m ?s0 = _ => assert (Hk : keeps_cnt m) by cnt_steps;
                    apply Hk in H; rewrite H; simpl; exact Hid
    end.
  - rewrite <- Hid. clear Hid Hi Ht Hc. inv_bind H;
      unfold ret in H; inversion H; auto.
Qed.

(** C8: in every run of calls and thread steps, each creation that
    succeeds returns the value the counter takes when it is incremented,
    so the handles of the successful creations are 1-based, strictly
    increasing in the order of the calls (hence pairwise distinct), and a
    handle once returned is never returned again. *)
Theorem create_handles_increasing l s hs s' :
  0 <= g_thread_cnt s < 2 ^ 64 ->
  run_calls l s = Ret hs s' ->
  StronglySorted Z.lt hs /\
  Forall (fun h => g_thread_cnt s < h <= g_thread_cnt s') hs /\
  g_thread_cnt s <= g_thread_cnt s'.
Proof.
  revert s hs s'. induction l as [|c l IH]; intros s hs s' Hc H.
  - inversion H; subst. split; [constructor|]. split; [constructor|lia].
  - assert (Hstep : forall (m : M unit) s1 (x : unit),
               keeps_cnt m -> m s = Ret x s1 -> run_calls l s1 = Ret hs s' ->
               StronglySorted Z.lt hs /\
               Forall (fun h => g_thread_cnt s < h <= g_thread_cnt s') hs /\
               g_thread_cnt s <= g_thread_cnt s').
    { intros m s1 x Hk Hm Hr. apply Hk in Hm. rewrite <- Hm.
      apply IH; [now rewrite Hm|exact Hr]. }
    destruct c; simpl in H.
    + apply bind_Ret_inv in H as (h & s1 & Hcr & H).
      apply bind_Ret_inv in H as (hs' & s2 & Hr & H).
      inversion H; subst; clear H.
      destruct (create_returns _ _ _ _ _ _ _ _ Hc Hcr) as (Hc1 & Hh & Ht).
      unfold in_table, MAX_EVENT_THREADS in Ht.
      destruct (IH s1 hs' s') as (Hs & Hf & Hle); [lia|exact Hr|].
      assert (Hf' : Forall (fun h => g_thread_cnt s < h <= g_thread_cnt s') hs').
      { eapply Forall_impl; [exact Hf|]. simpl. intros; lia. }
      case_decide as Hz.
      * split; [exact Hs|]. split; [exact Hf'|lia].
      * assert (h = g_thread_cnt s + 1) as -> by (destruct Hh; congruence).
        split; [|split; [|lia]].
        -- constructor; [exact Hs|].
           eapply Forall_impl; [exact Hf|]. simpl. intros; lia.
        -- constructor; [lia|exact Hf'].
    + apply bind_Ret_inv in H as (x & s1 & Hm & H).
      apply keeps_cnt_enqueue in Hm. rewrite <- Hm.
      apply IH; [now rewrite Hm|exact H].
    + apply bind_Ret_inv in H as (x & s1 & Hm & H).
      apply keeps_cnt_stop in Hm. rewrite <- Hm.
      apply IH; [now rewrite Hm|exact H].
    + apply bind_Ret_inv in H as (x & s1 & Hm & H).
      exact (Hstep _ _ _ (keeps_cnt_wait _) Hm H).
    + apply bind_Ret_inv in H as (x & s1 & Hm & H).
      exact (Hstep _ _ _ (keeps_cnt_shutdown _ _ _) Hm H).
    + apply bind_Ret_inv in H as (x & s1 & Hm & H).
      exact (Hstep _ _ _ (keeps_cnt_loop_step _) Hm H).
Qed.

Lemma create_handles_increasing_witness :
  StronglySorted Z.lt [1; 2; 4] /\
  Forall (fun h => 0 < h <= 4) [1; 2; 4] /\ 0 <= 4.
Proof.
  apply (create_handles_increasing
           [call_create "a" (fn_extern 0) p_null p_null all_ok;
            call_enqueue 1 (fn_extern 1) p_null p_null true;
            call_create "b" fn_null p_null p_null all_ok;
            thread_step 1;
            call_create "c" (fn_extern 0) p_null p_null
              {| strdup_ok := false; calloc_queue_ok := true;
                 calloc_event_ok := true; pthread_create_ok := true;
                 signal_ok := true |};
            call_stop 2 true;
            call_create "d" (fn_extern 0) p_null p_null all_ok]
           init_state [1; 2; 4]
           (after (run_calls
                     [call_create "a" (fn_extern 0) p_null p_null all_ok;
                      call_enqueue 1 (fn_extern 1) p_null p_null true;
                      call_create "b" fn_null p_null p_null all_ok;
                      thread_step 1;
                      call_create "c" (fn_extern 0) p_null p_null
                        {| strdup_ok := false; calloc_queue_ok := true;
                           calloc_event_ok := true; pthread_create_ok := true;
                           signal_ok := true |};
                      call_stop 2 true;
                      call_create "d" (fn_extern 0) p_null p_null all_ok])
                  init_state)).
  - simpl. lia.
  - vm_compute. reflexivity.
Defined.

(** ** Teardown *)

(** The loop of [event_thread_destroy] pops and frees every pending
    record, in order, and calls none of them. *)
Lemma destroy_loop_spec i q l :
  forall c s n,
    in_table i ->
    events (slot s i) = Some q ->
    heap s !! q = Some (OQueue c) ->
    data c = l -> NoDup l -> q ∉ l ->
    Forall (fun a => is_Some (heap s !! a)) l ->
    (length l < n)%nat ->
    exists s', destroy_loop n i s = Ret tt s' /\
      same_env s s' /\ g_threads s' = g_threads s /\
      trace s' = trace s /\ freed s' = freed s ++ l /\
      heap s' !! q = Some (OQueue {| size := size c; data := [] |}) /\
      (forall a, a ∈ l -> heap s' !! a = None) /\
      (forall x, x <> q -> x ∉ l -> heap s' !! x = heap s !! x).
Proof.
  induction l as [|a rest IH]; intros c s n Hi Hq Hc Hd Hnd Hql Hlive Hn.
  - destruct n as [|n]; [simpl in Hn; lia|]. simpl.
    rewrite (bind_Ret _ _ _ _ _ (slot_load_in _ _ Hi)). rewrite Hq.
    rewrite (bind_Ret _ _ _ _ _ (queue_pop_empty _ _ _ Hc Hd)).
    exists s. split; [reflexivity|]. split; [apply same_env_refl|].
    rewrite app_nil_r. do 3 (split; [reflexivity|]).
    split; [destruct c; simpl in *; now subst|].
    split; [intros a Ha; now apply elem_of_nil in Ha|]. reflexivity.
  - destruct n as [|n]; [simpl in Hn; lia|]. simpl.
    rewrite (bind_Ret _ _ _ _ _ (slot_load_in _ _ Hi)). rewrite Hq.
    rewrite (bind_Ret _ _ _ _ _ (queue_pop_cons _ _ _ _ _ Hc Hd)).
    apply not_elem_of_cons in Hql as (Hqa & Hqr).
    apply NoDup_cons in Hnd as (Har & Hnd).
    apply Forall_cons in Hlive as ((o & Ha) & Hlive).
    set (s1 := with_heap _ s).
    assert (Ha1 : heap s1 !! a = Some o).
    { subst s1. simpl. now rewrite lookup_insert_ne. }
    rewrite (bind_Ret _ _ _ _ _ (free_live _ _ _ Ha1)).
    set (s2 := with_freed _ _).
    destruct (IH {| size := size c; data := rest |} s2 n)
      as (s' & Hrun & He & Hg & Htr & Hfr & Hhq & Hgone & Hrest);
      try assumption; try reflexivity.
    + subst s2 s1. simpl. rewrite lookup_delete_ne by congruence.
      apply lookup_insert_eq.
    + eapply Forall_impl; [|intros b Hb; exact Hb].
      apply Forall_forall. intros b Hb. subst s2 s1. simpl.
      assert (b <> a) by (intros ->; contradiction).
      assert (b <> q) by (intros ->; contradiction).
      rewrite lookup_delete_ne, lookup_insert_ne by congruence.
      exact (proj1 (Forall_forall _ _) Hlive b Hb).
    + simpl in Hn. lia.
    + exists s'. split; [exact Hrun|]. split; [exact He|].
      split; [exact Hg|]. split; [exact Htr|].
      split; [rewrite Hfr; subst s2 s1; simpl; now rewrite <- app_assoc|].
      split; [exact Hhq|]. split.
      * intros b Hb. apply elem_of_cons in Hb as [->|Hb].
        -- rewrite Hrest; [|congruence|assumption]. subst s2 s1. simpl.
           apply lookup_delete_eq.
        -- now apply Hgone.
      * intros x Hxq Hx. apply not_elem_of_cons in Hx as (Hxa & Hxr).
        rewrite Hrest by assumption. subst s2 s1. simpl.
        now rewrite lookup_delete_ne, lookup_insert_ne by congruence.
Qed.

(** [event_thread_destroy]: the pending records are freed in order, then
    the mailbox and the name; no callback is called. *)
Lemma event_thread_destroy_spec i q c n nm s :
  in_table i ->
  events (slot s i) = Some q -> heap s !! q = Some (OQueue c) ->
  name (slot s i) = Some n -> heap s !! n = Some (OName nm) ->
  NoDup (data c) ->
  Forall (fun a => exists e, heap s !! a = Some (OEvent e)) (data c) ->
  exists s', event_thread_destroy i s = Ret tt s' /\
    same_env s s' /\ g_threads s' = g_threads s /\ trace s' = trace s /\
    freed s' = freed s ++ data c ++ [q; n] /\
    (forall a, a ∈ q :: n :: data c -> heap s' !! a = None) /\
    (forall x, x ∉ q :: n :: data c -> heap s' !! x = heap s !! x).
Proof.
  intros Hi Hq Hc Hn Hnm Hnd Hrec.
  assert (Hqn : q <> n) by (intros ->; congruence).
  assert (Hql : q ∉ data c).
  { intros Hin. destruct (proj1 (Forall_forall _ _) Hrec q Hin) as (e & He).
    congruence. }
  assert (Hnl : n ∉ data c).
  { intros Hin. destruct (proj1 (Forall_forall _ _) Hrec n Hin) as (e & He).
    congruence. }
  unfold event_thread_destroy.
  assert (Hp : pending s i = data c) by (unfold pending; now rewrite Hq, Hc).
  rewrite Hp.
  destruct (destroy_loop_spec i q (data c) c s (S (length (data c))))
    as (s2 & Hd2 & He2 & Hg2 & Htr2 & Hfr2 & Hq2 & Hgone2 & Hrest2);
    try assumption; try reflexivity; try lia.
  { eapply Forall_impl; [exact Hrec|]. intros a (e & He). now exists (OEvent e). }
  rewrite (bind_Ret _ _ _ _ _ Hd2).
  assert (Hs2 : forall j, slot s2 j = slot s j).
  { intros j. unfold slot. now rewrite Hg2. }
  rewrite (bind_Ret _ _ _ _ _ (slot_load_in _ _ Hi)). rewrite Hs2, Hq.
  rewrite (bind_Ret _ _ _ _ _ (free_live _ _ _ Hq2)).
  set (s3 := with_freed _ _).
  rewrite (bind_Ret _ _ _ _ _ (slot_load_in _ _ Hi)).
  change (slot s3 i) with (slot s2 i). rewrite Hs2, Hn.
  assert (Hn3 : heap s3 !! n = Some (OName nm)).
  { subst s3. simpl. rewrite lookup_delete_ne by assumption.
    now rewrite Hrest2 by (assumption || congruence). }
  rewrite (free_live _ _ _ Hn3).
  eexists. split; [reflexivity|]. simpl.
  split; [exact He2|]. split; [exact Hg2|]. split; [exact Htr2|].
  split; [rewrite Hfr2; now rewrite <- !app_assoc|]. split.
  - intros a Ha. apply elem_of_cons in Ha as [->|Ha].
    { rewrite lookup_delete_ne by congruence. apply lookup_delete_eq. }
    apply elem_of_cons in Ha as [->|Ha]; [apply lookup_delete_eq|].
    assert (a <> q) by (intros ->; contradiction).
    assert (a <> n) by (intros ->; contradiction).
    rewrite !lookup_delete_ne by congruence. now apply Hgone2.
  - intros x Hx. apply not_elem_of_cons in Hx as (Hxq & Hx).
    apply not_elem_of_cons in Hx as (Hxn & Hx).
    rewrite !lookup_delete_ne by congruence. now apply Hrest2.
Qed.

(** The exit of a thread at the label [out]: the update record, if the
    thread holds one, is freed first, then the pending records in order,
    then the mailbox and the name; no callback is called. *)
Lemma loop_out_spec t th i uo q c n nm s :
  threads s !! t = Some th ->
  in_table i ->
  events (slot s i) = Some q -> heap s !! q = Some (OQueue c) ->
  name (slot s i) = Some n -> heap s !! n = Some (OName nm) ->
  NoDup (data c) ->
  Forall (fun a => exists e, heap s !! a = Some (OEvent e)) (data c) ->
  match uo with
  | Some u => (exists ue, heap s !! u = Some (OEvent ue)) /\ u ∉ data c
  | None => True
  end ->
  exists s', loop_out t i uo s = Ret tt s' /\
    threads s' = <[t := {| th_arg := th_arg th;
                           th_signal_ok := th_signal_ok th;
                           th_pc := Exited |}]> (threads s) /\
    g_threads s' = g_threads s /\ trace s' = trace s /\
    next_addr s' = next_addr s /\ signals s' = signals s /\
    joined s' = joined s /\ next_tid s' = next_tid s /\
    g_thread_cnt s' = g_thread_cnt s /\
    freed s' = freed s ++ option_list uo ++ data c ++ [q; n] /\
    (forall a, a ∈ option_list uo ++ q :: n :: data c -> heap s' !! a = None) /\
    (forall x, x ∉ option_list uo ++ q :: n :: data c ->
               heap s' !! x = heap s !! x).
Proof.
  intros Ht Hi Hq Hc Hn Hnm Hnd Hrec Hu. unfold loop_out.
  (* free(update_ev) *)
  assert (H1 : exists s1, free uo s = Ret tt s1 /\
            same_env s s1 /\ g_threads s1 = g_threads s /\
            trace s1 = trace s /\ freed s1 = freed s ++ option_list uo /\
            (forall a, a ∈ option_list uo -> heap s1 !! a = None) /\
            (forall x, x ∉ option_list uo -> heap s1 !! x = heap s !! x)).
  { destruct uo as [u|].
    - destruct Hu as ((ue & Hue) & _). rewrite (free_live _ _ _ Hue).
      eexists. split; [reflexivity|]. split; [now repeat split|].
      simpl. do 3 (split; [reflexivity|]). split.
      + intros a Ha. apply list_elem_of_singleton in Ha as ->.
        apply lookup_delete_eq.
      + intros x Hx. apply not_elem_of_cons in Hx as (Hx & _).
        now rewrite lookup_delete_ne.
    - exists s. split; [reflexivity|]. split; [apply same_env_refl|].
      simpl. rewrite app_nil_r. do 3 (split; [reflexivity|]).
      split; [intros a Ha; now apply elem_of_nil in Ha|reflexivity]. }
  destruct H1 as (s1 & Hf1 & He1 & Hg1 & Htr1 & Hfr1 & Hgone1 & Hrest1).
  rewrite (bind_Ret _ _ _ _ _ Hf1).
  assert (Hfresh : forall a nmo, heap s !! a = Some nmo ->
             (forall e, nmo <> OEvent e) -> a ∉ option_list uo).
  { intros a o Ha Ho. destruct uo as [u|]; simpl; [|apply not_elem_of_nil].
    destruct Hu as ((ue & Hue) & _). apply not_elem_of_cons.
    split; [intros ->; rewrite Hue in Ha; injection Ha as <-; now apply (Ho ue)
           |apply not_elem_of_nil]. }
  assert (Huq : q ∉ option_list uo) by (apply (Hfresh _ _ Hc); discriminate).
  assert (Hun : n ∉ option_list uo) by (apply (Hfresh _ _ Hnm); discriminate).
  assert (Hul : forall a, a ∈ data c -> a ∉ option_list uo).
  { intros a Ha. destruct uo as [u|]; simpl; [|apply not_elem_of_nil].
    destruct Hu as (_ & Hu). apply not_elem_of_cons.
    split; [intros ->; contradiction|apply not_elem_of_nil]. }
  assert (Hs1 : forall j, slot s1 j = slot s j).
  { intros j. unfold slot. now rewrite Hg1. }
  destruct (event_thread_destroy_spec i q c n nm s1)
    as (s2 & Hd2 & He2 & Hg2 & Htr2 & Hfr2 & Hgone2 & Hrest2);
    try assumption; try (rewrite Hs1; assumption);
    try (rewrite Hrest1; assumption).
  { apply Forall_forall. intros a Ha.
    destruct (proj1 (Forall_forall _ _) Hrec a Ha) as (e & He).
    rewrite Hrest1 by now apply Hul. now exists e. }
  rewrite (bind_Ret _ _ _ _ _ Hd2).
  destruct He1 as (Ea1 & Eb1 & Ec1 & Ed1 & Ee1 & Ef1).
  destruct He2 as (Ea2 & Eb2 & Ec2 & Ed2 & Ee2 & Ef2).
  assert (Ht2 : threads s2 !! t = Some th) by (now rewrite Ea2, Ea1).
  unfold set_pc. rewrite Ht2.
  eexists. split; [reflexivity|]. simpl.
  split; [now rewrite Ea2, Ea1|]. split; [now rewrite Hg2|].
  split; [now rewrite Htr2|]. split; [now rewrite Eb2|].
  split; [now rewrite Ec2|]. split; [now rewrite Ed2|].
  split; [now rewrite Ee2|]. split; [now rewrite Ef2|].
  split; [rewrite Hfr2, Hfr1; now rewrite <- !app_assoc|]. split.
  - intros a Ha. apply elem_of_app in Ha as [Ha|Ha].
    + destruct (decide (a ∈ q :: n :: data c)) as [Hin|Hnin].
      * now apply Hgone2.
      * rewrite Hrest2 by assumption. now apply Hgone1.
    + now apply Hgone2.
  - intros x Hx. apply not_elem_of_app in Hx as (Hxu & Hx).
    rewrite Hrest2 by assumption. now apply Hrest1.
Qed.

(** ** Steps of a worker thread *)

Lemma mailbox_Some s i q c :
  mailbox s i = Some (q, c) <->
  events (slot s i) = Some q /\ heap s !! q = Some (OQueue c).
Proof.
  unfold mailbox. split.
  - destruct (events (slot s i)) as [q'|]; [|discriminate].
    destruct (heap s !! q') as [[| |c']|] eqn:E; try discriminate.
    intros H. injection H as -> ->. now split.
  - intros (-> & ->). reflexivity.
Qed.

Lemma name_live_Some s i n :
  name_live s i = Some n <->
  name (slot s i) = Some n /\ exists nm, heap s !! n = Some (OName nm).
Proof.
  unfold name_live. split.
  - destruct (name (slot s i)) as [n'|]; [|discriminate].
    destruct (heap s !! n') as [[nm| |]|] eqn:E; try discriminate.
    intros H. injection H as ->. split; [reflexivity|now exists nm].
  - intros (-> & nm & ->). reflexivity.
Qed.

Lemma record_at_inv s P a :
  record_at s P a <-> exists e, heap s !! a = Some (OEvent e) /\ P e.
Proof.
  unfold record_at. split.
  - destruct (heap s !! a) as [[| |e]|]; try contradiction.
    intros H. now exists e.
  - intros (e & -> & H). exact H.
Qed.

Lemma mail_ok_callable i e : in_table i -> mail_ok i e -> callable e.
Proof.
  unfold mail_ok, callable. intros Hi. destruct (callback e); auto.
  now intros ->.
Qed.

Lemma mail_ok_update_ok i e : mail_ok i e -> update_ok i e.
Proof. intros H. now right. Qed.

Lemma update_ok_callable i e :
  in_table i -> update_ok i e -> callback e = fn_null \/ callable e.
Proof. intros Hi [H|H]; [now left|right; eapply mail_ok_callable; eauto]. Qed.

Lemma records_live s P l :
  Forall (record_at s P) l ->
  Forall (fun a => exists e, heap s !! a = Some (OEvent e)) l.
Proof.
  intros HF. eapply Forall_impl; [exact HF|].
  intros a H. apply record_at_inv in H as (e & He & _). now exists e.
Qed.

(** The unfolding of the invariant of a thread that has not exited. *)
Lemma worker_inv_inv s th :
  worker_inv s th ->
  exists q c n nm,
    in_table (th_arg th) /\
    mailbox s (th_arg th) = Some (q, c) /\
    events (slot s (th_arg th)) = Some q /\ heap s !! q = Some (OQueue c) /\
    name_live s (th_arg th) = Some n /\
    name (slot s (th_arg th)) = Some n /\ heap s !! n = Some (OName nm) /\
    NoDup (data c) /\
    match th_pc th with
    | AtStart => start_queue_ok s (th_arg th) (data c)
    | InLoop u =>
        record_at s (update_ok (th_arg th)) u /\ (u ∉ data c) /\
        Forall (record_at s (mail_ok (th_arg th))) (data c)
    | Exited => True
    end.
Proof.
  unfold worker_inv. intros (Hi & H).
  destruct (mailbox s (th_arg th)) as [[q c]|] eqn:Em; [|contradiction].
  destruct (name_live s (th_arg th)) as [n|] eqn:En; [|contradiction].
  destruct H as (Hnd & H).
  pose proof (proj1 (mailbox_Some _ _ _ _) Em) as (Hq & Hc).
  pose proof (proj1 (name_live_Some _ _ _) En) as (Hn & nm & Hnm).
  exists q, c, n, nm. repeat (split; [assumption||reflexivity|]). exact H.
Qed.

(** The pending records of a thread that has not exited are live. *)
Lemma worker_inv_pending_live s th q c :
  worker_inv s th -> th_pc th <> Exited ->
  mailbox s (th_arg th) = Some (q, c) ->
  Forall (fun a => exists e, heap s !! a = Some (OEvent e)) (data c).
Proof.
  intros H Hpc Em.
  destruct (worker_inv_inv _ _ H) as (q' & c' & n & nm & _ & Em' & _ & _ & _ & _
                                      & _ & _ & Hcase).
  rewrite Em in Em'. injection Em' as <- <-.
  destruct (th_pc th) as [|u|]; [| |contradiction].
  - unfold start_queue_ok in Hcase. destruct (data c) as [|u rest]; [constructor|].
    destruct Hcase as (Hu & Hrest). constructor.
    + apply record_at_inv in Hu as (e & He & _). now exists e.
    + exact (records_live _ _ _ Hrest).
  - destruct Hcase as (_ & _ & Hrest). exact (records_live _ _ _ Hrest).
Qed.

(** Every step of a thread that has not exited returns, and is of one of
    the four kinds. *)
Lemma step_spec s t th :
  threads s !! t = Some th -> th_pc th <> Exited -> worker_inv s th ->
  exists q c n s',
    mailbox s (th_arg th) = Some (q, c) /\
    name_live s (th_arg th) = Some n /\
    event_thread_loop_step t s = Ret tt s' /\
    same_rest s s' /\
    step_effect s t th q c n s'.
Proof.
  intros Ht Hpc Hinv.
  pose proof (worker_inv_pending_live s th) as Hlive.
  destruct (worker_inv_inv _ _ Hinv)
    as (q & c & n & nm & Hi & Em & Hq & Hc & En & Hn & Hnm & Hnd & Hcase).
  specialize (Hlive q c Hinv Hpc Em).
  exists q, c, n. unfold event_thread_loop_step. rewrite Ht.
  destruct (th_pc th) as [|u|] eqn:Epc; [| |contradiction].
  - (* before the loop *)
    destruct (th_signal_ok th) eqn:Hsig.
    + rewrite (bind_Ret _ _ _ _ _ (slot_load_in _ _ Hi)). rewrite Hq.
      destruct (data c) as [|u rest] eqn:Hd.
      * rewrite (bind_Ret _ _ _ _ _ (queue_pop_empty _ _ _ Hc Hd)).
        destruct (loop_out_spec t th (th_arg th) None q c n nm s)
          as (s' & Hout & Hth & Hg & Htr & Hna & Hsg & Hj & Hnt & Hcnt & Hfr
              & Hgone & Hrest);
          [try assumption; try (rewrite Hd; assumption); try exact I ..|].
        exists s'. split; [exact Em|]. split; [exact En|].
        split; [exact Hout|]. split; [now repeat split|].
        apply (step_exit _ _ _ _ _ _ _ None); try assumption.
        rewrite Epc. split; [reflexivity|now right].
      * rewrite (bind_Ret _ _ _ _ _ (queue_pop_cons _ _ _ _ _ Hc Hd)).
        unfold set_pc. simpl. rewrite Ht.
        eexists. split; [exact Em|]. split; [exact En|].
        split; [reflexivity|]. split; [now repeat split|].
        apply (step_enter _ _ _ _ _ _ _ u rest); try assumption; reflexivity.
    + destruct (loop_out_spec t th (th_arg th) None q c n nm s)
        as (s' & Hout & Hth & Hg & Htr & Hna & Hsg & Hj & Hnt & Hcnt & Hfr
            & Hgone & Hrest);
        [try assumption; try exact I ..|].
      exists s'. split; [exact Em|]. split; [exact En|].
      split; [exact Hout|]. split; [now repeat split|].
      apply (step_exit _ _ _ _ _ _ _ None); try assumption.
      rewrite Epc. split; [reflexivity|now left].
  - (* in the loop *)
    destruct Hcase as (Hu & Hul & Hmail).
    apply record_at_inv in Hu as (ue & Hue & Huok).
    rewrite (bind_Ret _ _ _ _ _ (slot_load_in _ _ Hi)).
    destruct (running (slot s (th_arg th))) eqn:Hrun.
    + destruct (loop_body_spec (th_arg th) u ue q c s Hi Hue
                  (update_ok_callable _ _ Hi Huok) Hq Hc)
        as (s' & Hb & He & Hp & Hres).
      { intros a rest Hd. rewrite Hd in Hmail.
        apply Forall_cons in Hmail as (Ha & _).
        apply record_at_inv in Ha as (e & He & Hok).
        exists e. split; [exact He|]. eapply mail_ok_callable; eauto. }
      exists s'. split; [exact Em|]. split; [exact En|].
      split; [exact Hb|].
      destruct He as (Eth & Ena & Esg & Ej & Ent & Ecnt).
      split; [now repeat split|].
      destruct (data c) as [|a rest] eqn:Hd.
      * destruct Hres as (Hh & Hf & Htr & Hr).
        now apply (step_idle _ _ _ _ _ _ _ u ue).
      * destruct Hres as (e & Ha & Hh & Hf & Htr & Hr).
        now apply (step_run _ _ _ _ _ _ _ u ue a e rest).
    + destruct (loop_out_spec t th (th_arg th) (Some u) q c n nm s)
        as (s' & Hout & Hth & Hg & Htr & Hna & Hsg & Hj & Hnt & Hcnt & Hfr
            & Hgone & Hrest);
        [try assumption; try (split; [now exists ue|assumption]) ..|].
      exists s'. split; [exact Em|]. split; [exact En|].
      split; [exact Hout|]. split; [now repeat split|].
      apply (step_exit _ _ _ _ _ _ _ (Some u)); try assumption.
      rewrite Epc. now split.
Qed.

Lemma pending_mailbox s i q c :
  mailbox s i = Some (q, c) -> pending s i = data c.
Proof.
  intros H. apply mailbox_Some in H as (Hq & Hc). unfold pending.
  now rewrite Hq, Hc.
Qed.

Lemma pending_after s s' i q c :
  same_fields s s' -> events (slot s i) = Some q ->
  heap s' !! q = Some (OQueue c) -> pending s' i = data c.
Proof.
  intros Hf Hq Hc. apply (pending_mailbox _ _ q). apply mailbox_Some.
  destruct (Hf i) as (-> & _). now split.
Qed.

Lemma same_fields_of_slots s s' :
  g_threads s' = g_threads s -> same_fields s s'.
Proof. intros H i. unfold slot. rewrite H. now repeat split. Qed.

(** ** Ownership of the event records *)

(** C9: the update record is the first item of the mailbox of a new
    worker; the first step of the thread pops it, without calling or
    freeing it, and keeps it as update record; an iteration of the loop
    leaves it live and out of the mailbox, while the record it pops is
    called once and freed at once; and the exit frees the update record,
    then drains the pending records and frees them without calling any,
    then frees the mailbox and the name. *)
Theorem update_record_lifetime s0 nm cb a1 a2 env s t th :
  in_table (g_thread_cnt s0) -> heap_bounded s0 ->
  strdup_ok env = true -> calloc_queue_ok env = true ->
  calloc_event_ok env = true -> pthread_create_ok env = true ->
  threads s !! t = Some th -> th_pc th <> Exited -> worker_inv s th ->
  (exists s1,
     event_thread_create nm cb a1 a2 env s0 = Ret (g_thread_cnt s0 + 1) s1 /\
     pending s1 (g_thread_cnt s0) = [S (S (next_addr s0))] /\
     heap s1 !! S (S (next_addr s0)) =
       Some (OEvent {| callback := cb; arg1 := a1; arg2 := a2 |}) /\
     threads s1 !! next_tid s0 =
       Some {| th_arg := g_thread_cnt s0; th_signal_ok := signal_ok env;
               th_pc := AtStart |} /\
     trace s1 = trace s0 /\ freed s1 = freed s0) /\
  (exists q c n s',
     mailbox s (th_arg th) = Some (q, c) /\
     name_live s (th_arg th) = Some n /\
     event_thread_loop_step t s = Ret tt s' /\
     match th_pc th with
     | AtStart =>
         th_signal_ok th = true ->
         forall u rest, data c = u :: rest ->
           threads s' !! t = Some (at_pc th (InLoop u)) /\
           pending s' (th_arg th) = rest /\
           heap s' !! u = heap s !! u /\
           trace s' = trace s /\ freed s' = freed s
     | InLoop u =>
         if running (slot s (th_arg th)) then
           threads s' !! t = Some th /\
           heap s' !! u = heap s !! u /\
           (u ∉ pending s' (th_arg th)) /\
           exists ue, heap s !! u = Some (OEvent ue) /\
             match data c with
             | [] => trace s' = trace s ++ tick_calls u ue /\
                     freed s' = freed s
             | a :: rest =>
                 exists e, heap s !! a = Some (OEvent e) /\
                   trace s' = trace s ++ tick_calls u ue ++ [(a, e)] /\
                   freed s' = freed s ++ [a] /\
                   heap s' !! a = None /\
                   pending s' (th_arg th) = rest
             end
         else
           threads s' !! t = Some (at_pc th Exited) /\
           trace s' = trace s /\
           freed s' = freed s ++ u :: data c ++ [q; n] /\
           heap s' !! u = None /\
           Forall (fun a => heap s' !! a = None) (data c)
     | Exited => True
     end).
Proof.
  intros Hi0 Hb0 E1 E2 E3 E4 Ht Hpc Hinv. split.
  - rewrite (create_success _ _ _ _ _ _ Hi0 Hb0 E1 E2 E4). rewrite E3.
    eexists. split; [reflexivity|]. simpl.
    split; [|split; [|split; [|split; reflexivity]]].
    + unfold pending, slot. simpl. rewrite lookup_insert_eq. simpl.
      now rewrite lookup_insert_eq.
    + rewrite lookup_insert_ne by lia. apply lookup_insert_eq.
    + apply lookup_insert_eq.
  - destruct (step_spec s t th Ht Hpc Hinv)
      as (q & c & n & s' & Em & En & Hstep & _ & Heff).
    destruct (worker_inv_inv _ _ Hinv)
      as (q' & c' & n' & nm' & Hi & Em' & Hq & Hc & _ & _ & _ & Hnd & Hcase).
    rewrite Em in Em'. injection Em' as <- <-.
    exists q, c, n, s'. do 3 (split; [assumption|]).
    destruct Heff as [u rest Epc Hsig Hd Hth Hh Hg Htr Hfr
                     |u ue Epc Hrun Hd Hue Hth Hh Hsf Hr Htr Hfr
                     |u ue a e rest Epc Hrun Hd Hue Ha Hth Hh Hsf Hr Htr Hfr
                     |uo Hkind Hth Hg Htr Hfr Hgone Hrest].
    + rewrite Epc. intros _ u' rest' Hd'. rewrite Hd in Hd'.
      injection Hd' as <- <-. rewrite Epc in Hcase. rewrite Hd in Hcase.
      destruct Hcase as (Hu & _). apply record_at_inv in Hu as (ue & Hue & _).
      assert (u <> q) by (intros ->; congruence).
      split; [rewrite Hth; apply lookup_insert_eq|].
      split; [|split; [rewrite Hh; now rewrite lookup_insert_ne|now split]].
      apply (pending_after s _ _ q {| size := size c; data := rest |});
        [now apply same_fields_of_slots|assumption|].
      rewrite Hh. apply lookup_insert_eq.
    + rewrite Epc, Hrun. rewrite Hd.
      split; [now rewrite Hth|]. split; [now rewrite Hh|].
      split; [|exists ue; now repeat split].
      rewrite (pending_after s s' _ q c Hsf Hq) by (now rewrite Hh).
      rewrite Hd. apply not_elem_of_nil.
    + rewrite Epc, Hrun. rewrite Hd.
      rewrite Epc in Hcase. destruct Hcase as (_ & Hul & _).
      rewrite Hd in Hul. apply not_elem_of_cons in Hul as (Hua & Hur).
      assert (u <> q) by (intros ->; congruence).
      assert (a <> q) by (intros ->; congruence).
      assert (Hp : pending s' (th_arg th) = rest).
      { apply (pending_after s _ _ q {| size := size c; data := rest |});
          [assumption|assumption|].
        rewrite Hh. rewrite lookup_delete_ne by assumption.
        apply lookup_insert_eq. }
      split; [now rewrite Hth|].
      split; [rewrite Hh; now rewrite lookup_delete_ne, lookup_insert_ne|].
      split; [now rewrite Hp|].
      exists ue. split; [assumption|]. exists e.
      repeat split; try assumption. rewrite Hh. apply lookup_delete_eq.
    + destruct (th_pc th) as [|u|] eqn:Epc; [| |contradiction].
      * destruct Hkind as (-> & [Hsig|Hd]).
        -- intros Hsig'. congruence.
        -- intros _ u rest Hd'. congruence.
      * destruct Hkind as (-> & ->). simpl in *.
        split; [rewrite Hth; apply lookup_insert_eq|].
        split; [assumption|]. split; [assumption|].
        split; [apply Hgone; apply elem_of_cons; now left|].
        apply Forall_forall. intros a Ha. apply Hgone.
        do 3 (apply elem_of_cons; right). exact Ha.
Qed.

Lemma update_record_lifetime_witness :
  (exists s1,
     event_thread_create "probe" (fn_extern 0) (p_extern 0) p_null all_ok
       init_state = Ret 1 s1 /\
     pending s1 0 = [3%nat]) /\
  (exists s', event_thread_loop_step 1 probe_loaded = Ret tt s').
Proof.
  destruct (update_record_lifetime init_state "probe" (fn_extern 0) (p_extern 0)
              p_null all_ok probe_loaded 1%nat
              {| th_arg := 0; th_signal_ok := true; th_pc := InLoop 3 |})
    as ((s1 & Hc & Hp & _) & (q & c & n & s' & _ & _ & Hstep & _)).
  - unfold in_table, MAX_EVENT_THREADS. simpl. lia.
  - apply (bool_decide_unpack _). vm_compute. reflexivity.
  - reflexivity.
  - reflexivity.
  - reflexivity.
  - reflexivity.
  - vm_compute. reflexivity.
  - discriminate.
  - apply (bool_decide_unpack _). vm_compute. reflexivity.
  - split.
    + exists s1. split; [exact Hc|exact Hp].
    + exists s'. exact Hstep.
Defined.

(** ** Preservation of the invariant of a thread *)

Lemma footprint_live s th q c n :
  th_pc th <> Exited ->
  mailbox s (th_arg th) = Some (q, c) -> name_live s (th_arg th) = Some n ->
  footprint s th =
  q :: n :: match th_pc th with InLoop u => [u] | _ => [] end ++ data c.
Proof.
  intros Hpc Em En. unfold footprint. rewrite Em, En.
  destruct (th_pc th); [reflexivity|reflexivity|contradiction].
Qed.

(** A stop record bound to slot [i] clears the flag of slot [i] only. *)
Lemma clears_other i j e :
  update_ok i e -> j <> i -> clears e j = false.
Proof.
  intros Hok Hne. unfold clears. apply bool_decide_eq_false_2.
  intros (Hcb & Ha). destruct Hok as [Hn|Hm]; [congruence|].
  unfold mail_ok in Hm. rewrite Hcb in Hm. congruence.
Qed.

(** What a step leaves in place, and the invariant of the thread after
    it. *)
Lemma step_effect_inv s t th q c n s' :
  threads s !! t = Some th -> worker_inv s th ->
  mailbox s (th_arg th) = Some (q, c) -> name_live s (th_arg th) = Some n ->
  step_effect s t th q c n s' ->
  (forall x, is_Some (heap s' !! x) -> is_Some (heap s !! x)) /\
  (forall x, x ∉ footprint s th -> heap s' !! x = heap s !! x) /\
  same_fields s s' /\
  (forall j, j <> th_arg th -> running (slot s' j) = running (slot s j)) /\
  exists th', threads s' = <[t := th']> (threads s) /\
    th_arg th' = th_arg th /\ th_signal_ok th' = th_signal_ok th /\
    (th_pc th' = Exited \/
     (worker_inv s' th' /\ th_pc th' <> Exited /\
      forall x, x ∈ footprint s' th' -> x ∈ footprint s th)).
Proof.
  intros Ht Hinv Em En Heff.
  destruct (worker_inv_inv _ _ Hinv)
    as (q' & c' & n' & nm & Hi & Em' & Hq & Hc & En' & Hn & Hnm & Hnd & Hcase).
  rewrite Em in Em'. injection Em' as <- <-.
  rewrite En in En'. injection En' as <-.
  assert (Hqn : q <> n) by (intros ->; congruence).
  destruct Heff as [u rest Epc Hsig Hd Hth Hh Hg Htr Hfr
                   |u ue Epc Hrun Hd Hue Hth Hh Hsf Hr Htr Hfr
                   |u ue a e rest Epc Hrun Hd Hue Ha Hth Hh Hsf Hr Htr Hfr
                   |uo Hkind Hth Hg Htr Hfr Hgone Hrest].
  - (* entering the loop *)
    assert (Hfp : footprint s th = q :: n :: data c).
    { rewrite (footprint_live s th q c n); [now rewrite Epc|congruence|
                                             assumption..]. }
    rewrite Epc, Hd in Hcase. destruct Hcase as (Hu & Hrest).
    rewrite Hd in Hnd. apply NoDup_cons in Hnd as (Hur & Hnd).
    pose proof (same_fields_of_slots _ _ Hg) as Hsf.
    assert (Hother : forall x, x <> q -> heap s' !! x = heap s !! x).
    { intros x Hx. rewrite Hh. now rewrite lookup_insert_ne. }
    assert (Hrec : forall P x, x <> q -> record_at s P x -> record_at s' P x).
    { intros P x Hx. unfold record_at. now rewrite Hother. }
    assert (Hev : forall P x, record_at s P x -> x <> q).
    { intros P x Hx ->. apply record_at_inv in Hx as (? & ? & _). congruence. }
    split; [|split; [|split; [exact Hsf|split]]].
    + intros x. rewrite Hh. destruct (decide (x = q)) as [->|Hx].
      * intros _. now exists (OQueue c).
      * now rewrite lookup_insert_ne.
    + intros x Hx. rewrite Hfp in Hx. apply not_elem_of_cons in Hx as (Hx & _).
      now apply Hother.
    + intros j _. unfold slot. now rewrite Hg.
    + exists (at_pc th (InLoop u)). split; [exact Hth|].
      split; [reflexivity|]. split; [reflexivity|]. right.
      assert (Em1 : mailbox s' (th_arg th) =
                    Some (q, {| size := size c; data := rest |})).
      { apply mailbox_Some. destruct (Hsf (th_arg th)) as (-> & _).
        split; [assumption|]. rewrite Hh. apply lookup_insert_eq. }
      assert (En1 : name_live s' (th_arg th) = Some n).
      { apply name_live_Some. destruct (Hsf (th_arg th)) as (_ & -> & _).
        split; [assumption|]. exists nm. now rewrite Hother. }
      split; [|split; [discriminate|]].
      * unfold worker_inv. simpl. split; [assumption|]. rewrite Em1, En1.
        simpl. split; [assumption|]. split; [|split; [assumption|]].
        -- apply Hrec; [eapply Hev; eauto|assumption].
        -- eapply Forall_impl; [exact Hrest|]. intros x Hx.
           apply Hrec; [eapply Hev; eauto|assumption].
      * intros x. rewrite Hfp, Hd. unfold footprint. simpl.
        rewrite Em1, En1. intros Hx.
        repeat (apply elem_of_cons in Hx as [->|Hx]);
          repeat (first [apply list_elem_of_here|apply list_elem_of_further]).
        exact Hx.
  - (* an iteration on an empty mailbox *)
    rewrite Epc in Hcase. destruct Hcase as (Hu & Hul & Hmail).
    assert (Huok : update_ok (th_arg th) ue).
    { apply record_at_inv in Hu as (ue' & Hue' & Hok). congruence. }
    split; [now rewrite Hh|]. split; [intros x _; now rewrite Hh|].
    split; [exact Hsf|]. split.
    + intros j Hj. rewrite Hr. now rewrite (clears_other _ _ _ Huok Hj).
    + exists th. split; [rewrite Hth; symmetry; now apply insert_id|].
      split; [reflexivity|]. split; [reflexivity|]. right.
      assert (Em1 : mailbox s' (th_arg th) = Some (q, c)).
      { apply mailbox_Some. destruct (Hsf (th_arg th)) as (-> & _).
        now rewrite Hh. }
      assert (En1 : name_live s' (th_arg th) = Some n).
      { apply name_live_Some. destruct (Hsf (th_arg th)) as (_ & -> & _).
        split; [assumption|]. exists nm. now rewrite Hh. }
      split; [|split; [congruence|]].
      * unfold worker_inv. split; [assumption|]. rewrite Em1, En1, Epc.
        split; [assumption|]. unfold record_at. rewrite Hh.
        split; [exact Hu|split; assumption].
      * intros x. unfold footprint. now rewrite Em1, En1, Em, En.
  - (* an iteration that runs the head of the mailbox *)
    rewrite Epc in Hcase. destruct Hcase as (Hu & Hul & Hmail).
    assert (Huok : update_ok (th_arg th) ue).
    { apply record_at_inv in Hu as (ue' & Hue' & Hok). congruence. }
    rewrite Hd in Hmail, Hul, Hnd.
    apply Forall_cons in Hmail as (Haok & Hmail).
    assert (Heok : mail_ok (th_arg th) e).
    { apply record_at_inv in Haok as (e' & He' & Hok). congruence. }
    apply not_elem_of_cons in Hul as (Hua & Hur).
    apply NoDup_cons in Hnd as (Har & Hnd).
    assert (Haq : a <> q) by (intros ->; congruence).
    assert (Han : a <> n) by (intros ->; congruence).
    assert (Huq : u <> q) by (intros ->; congruence).
    assert (Hfp : footprint s th = q :: n :: u :: a :: rest).
    { rewrite (footprint_live s th q c n); [now rewrite Epc, Hd|congruence|
                                             assumption..]. }
    assert (Hother : forall x, x <> q -> x <> a -> heap s' !! x = heap s !! x).
    { intros x Hx Hx'. rewrite Hh.
      now rewrite lookup_delete_ne, lookup_insert_ne. }
    assert (Hev : forall P x, record_at s P x -> x <> q).
    { intros P x Hx ->. apply record_at_inv in Hx as (? & ? & _). congruence. }
    split; [|split; [|split; [exact Hsf|split]]].
    + intros x. rewrite Hh. destruct (decide (x = a)) as [->|Hxa].
      * rewrite lookup_delete_eq. now intros [? [=]].
      * rewrite lookup_delete_ne by congruence.
        destruct (decide (x = q)) as [->|Hx].
        -- intros _. now exists (OQueue c).
        -- now rewrite lookup_insert_ne.
    + intros x Hx. rewrite Hfp in Hx.
      apply not_elem_of_cons in Hx as (Hx1 & Hx).
      apply not_elem_of_cons in Hx as (Hx2 & Hx).
      apply not_elem_of_cons in Hx as (Hx3 & Hx).
      apply not_elem_of_cons in Hx as (Hx4 & Hx). now apply Hother.
    + intros j Hj. rewrite Hr.
      rewrite (clears_other _ _ _ Huok Hj).
      now rewrite (clears_other _ _ _ (mail_ok_update_ok _ _ Heok) Hj).
    + exists th. split; [rewrite Hth; symmetry; now apply insert_id|].
      split; [reflexivity|]. split; [reflexivity|]. right.
      assert (Em1 : mailbox s' (th_arg th) =
                    Some (q, {| size := size c; data := rest |})).
      { apply mailbox_Some. destruct (Hsf (th_arg th)) as (-> & _).
        split; [assumption|]. rewrite Hh.
        rewrite lookup_delete_ne by congruence. apply lookup_insert_eq. }
      assert (En1 : name_live s' (th_arg th) = Some n).
      { apply name_live_Some. destruct (Hsf (th_arg th)) as (_ & -> & _).
        split; [assumption|]. exists nm. rewrite Hother; congruence. }
      split; [|split; [congruence|]].
      * unfold worker_inv. split; [assumption|]. rewrite Em1, En1, Epc.
        simpl. split; [assumption|]. split; [|split; [assumption|]].
        -- unfold record_at. rewrite Hother by congruence. exact Hu.
        -- apply Forall_forall. intros x Hx.
           pose proof (proj1 (Forall_forall _ _) Hmail x Hx) as Hx'.
           unfold record_at. rewrite Hother; [exact Hx'|eapply Hev; eauto|].
           intros ->. contradiction.
      * intros x. rewrite Hfp. unfold footprint. rewrite Em1, En1, Epc.
        simpl. intros Hx.
        repeat (apply elem_of_cons in Hx as [->|Hx]);
          repeat (first [apply list_elem_of_here|apply list_elem_of_further]).
        exact Hx.
  - (* the exit *)
    pose proof (same_fields_of_slots _ _ Hg) as Hsf.
    assert (Hfp : forall x, x ∈ option_list uo ++ q :: n :: data c ->
                            x ∈ footprint s th).
    { intros x Hx. destruct (th_pc th) as [|u|] eqn:Epc; [| |contradiction].
      - destruct Hkind as (-> & _). simpl in Hx.
        rewrite (footprint_live s th q c n); [now rewrite Epc|congruence|
                                               assumption..].
      - destruct Hkind as (-> & _). simpl in Hx.
        rewrite (footprint_live s th q c n); [rewrite Epc|congruence|
                                               assumption..].
        simpl. repeat (apply elem_of_cons in Hx as [->|Hx]);
          repeat (first [apply list_elem_of_here|apply list_elem_of_further]).
        exact Hx. }
    split; [|split; [|split; [exact Hsf|split]]].
    + intros x Hx.
      destruct (decide (x ∈ option_list uo ++ q :: n :: data c)) as [Hin|Hnin].
      * rewrite Hgone in Hx by assumption. now destruct Hx.
      * now rewrite Hrest in Hx.
    + intros x Hx. apply Hrest. intros Hin. apply Hx. now apply Hfp.
    + intros j _. unfold slot. now rewrite Hg.
    + exists (at_pc th Exited). split; [exact Hth|].
      split; [reflexivity|]. split; [reflexivity|]. now left.
Qed.

Lemma heap_bounded_live s a o :
  heap_bounded s -> heap s !! a = Some o -> (a < next_addr s)%nat.
Proof. intros Hb H. exact (map_Forall_lookup_1 _ _ _ _ Hb H). Qed.

(** An enqueue on the mailbox of a thread that has not exited, when the
    mailbox is not full, puts the new record at the tail and keeps the
    invariant of the thread. *)
Lemma enqueue_inv s th h cb a1 a2 :
  worker_inv s th -> th_pc th <> Exited -> heap_bounded s ->
  th_arg th = h - 1 -> room s (th_arg th) ->
  mail_ok (h - 1) {| callback := cb; arg1 := a1; arg2 := a2 |} ->
  exists q c n,
    mailbox s (th_arg th) = Some (q, c) /\
    name_live s (th_arg th) = Some n /\
    event_thread_enqueue_event h cb a1 a2 true s =
      Ret 0 (enqueued q c {| callback := cb; arg1 := a1; arg2 := a2 |} s) /\
    let s' := enqueued q c {| callback := cb; arg1 := a1; arg2 := a2 |} s in
    worker_inv s' th /\ heap_bounded s' /\
    mailbox s' (th_arg th) =
      Some (q, {| size := size c; data := data c ++ [next_addr s] |}) /\
    name_live s' (th_arg th) = Some n /\
    (forall x, x <> q -> x <> next_addr s -> heap s' !! x = heap s !! x).
Proof.
  intros Hinv Hpc Hb Harg Hroom Hok.
  destruct (worker_inv_inv _ _ Hinv)
    as (q & c & n & nm & Hi & Em & Hq & Hc & En & Hn & Hnm & Hnd & Hcase).
  unfold room in Hroom. rewrite Em in Hroom.
  pose proof (worker_inv_pending_live _ _ _ _ Hinv Hpc Em) as Hlive.
  exists q, c, n. split; [exact Em|]. split; [exact En|].
  assert (Hfresh : heap s !! next_addr s = None)
    by (apply (heap_bounded_fresh _ _ Hb); lia).
  assert (Hh : 1 <= h <= MAX_EVENT_THREADS).
  { unfold in_table in Hi. rewrite Harg in Hi. lia. }
  rewrite Harg in Hq.
  split; [exact (enqueue_live h cb a1 a2 q c s Hh Hq Hc Hroom Hfresh)|].
  rewrite <- Harg in Hq.
  set (e := {| callback := cb; arg1 := a1; arg2 := a2 |}) in *.
  set (na := next_addr s) in *.
  assert (Hnaq : na <> q) by (intros E; rewrite E in Hfresh; congruence).
  assert (Hnan : na <> n) by (intros E; rewrite E in Hfresh; congruence).
  assert (Hother : forall x, x <> q -> x <> na ->
            heap (enqueued q c e s) !! x = heap s !! x).
  { intros x Hx Hx'. unfold enqueued. simpl. fold na.
    now rewrite !lookup_insert_ne by congruence. }
  assert (Hnew : heap (enqueued q c e s) !! na = Some (OEvent e)).
  { unfold enqueued. simpl. fold na. rewrite lookup_insert_ne by congruence.
    apply lookup_insert_eq. }
  assert (Hrec : forall P x, record_at s P x -> record_at (enqueued q c e s) P x).
  { intros P x Hx. pose proof Hx as Hx'.
    apply record_at_inv in Hx' as (e' & He' & _).
    unfold record_at. rewrite Hother; [exact Hx| |]; intros ->; congruence. }
  assert (Hnal : na ∉ data c).
  { intros Hin. destruct (proj1 (Forall_forall _ _) Hlive na Hin) as (e' & He').
    congruence. }
  assert (Em1 : mailbox (enqueued q c e s) (th_arg th) =
                Some (q, {| size := size c; data := data c ++ [na] |})).
  { apply mailbox_Some. split; [exact Hq|]. unfold enqueued. simpl. fold na.
    apply lookup_insert_eq. }
  assert (En1 : name_live (enqueued q c e s) (th_arg th) = Some n).
  { apply name_live_Some. split; [exact Hn|]. exists nm.
    rewrite Hother; congruence. }
  simpl. split; [|split; [|split; [exact Em1|split; [exact En1|exact Hother]]]].
  - unfold worker_inv. split; [exact Hi|]. rewrite Em1, En1. simpl. split.
    + apply NoDup_app. split; [exact Hnd|]. split; [|apply NoDup_singleton].
      intros x Hx Hx'. apply list_elem_of_singleton in Hx' as ->. contradiction.
    + rewrite <- Harg in Hok.
      assert (Hnew' : record_at (enqueued q c e s) (mail_ok (th_arg th)) na).
      { unfold record_at. now rewrite Hnew. }
      destruct (th_pc th) as [|u|]; [| |contradiction].
      * unfold start_queue_ok in *. destruct (data c) as [|u rest]; simpl.
        -- split; [|constructor]. unfold record_at. rewrite Hnew. now right.
        -- destruct Hcase as (Hu & Hrest). split; [now apply Hrec|].
           apply Forall_app. split; [|now constructor].
           eapply Forall_impl; [exact Hrest|]. intros x. apply Hrec.
      * destruct Hcase as (Hu & Hul & Hmail).
        split; [now apply Hrec|]. split.
        -- apply not_elem_of_app. split; [assumption|].
           apply not_elem_of_cons. split; [|apply not_elem_of_nil].
           intros ->. apply record_at_inv in Hu as (? & ? & _). congruence.
        -- apply Forall_app. split; [|now constructor].
           eapply Forall_impl; [exact Hmail|]. intros x. apply Hrec.
  - unfold heap_bounded, enqueued. simpl. fold na.
    apply map_Forall_insert_2; [pose proof (heap_bounded_live _ _ _ Hb Hc); lia|].
    apply map_Forall_insert_2; [lia|].
    eapply map_Forall_impl; [exact Hb|]. simpl. intros; lia.
Qed.

(** ** FIFO order of a mailbox *)

Lemma mail_calls_app u tr1 tr2 :
  mail_calls u (tr1 ++ tr2) = mail_calls u tr1 ++ mail_calls u tr2.
Proof. unfold mail_calls. now rewrite filter_app, fmap_app. Qed.

Lemma mail_calls_tick u ue : mail_calls u (tick_calls u ue) = [].
Proof.
  unfold tick_calls, mail_calls. destruct (callback ue); [reflexivity| |];
    (rewrite filter_cons_False; [reflexivity|]; simpl; intros H; now apply H).
Qed.

Lemma mail_calls_one u a e : a <> u -> mail_calls u [(a, e)] = [e].
Proof.
  intros H. unfold mail_calls. now rewrite filter_cons_True.
Qed.

Lemma no_stop_clears e i : no_stop e -> clears e i = false.
Proof.
  intros H. unfold clears. apply bool_decide_eq_false_2. intros (E & _).
  now apply H.
Qed.

Lemma produced_app l1 l2 : produced (l1 ++ l2) = produced l1 ++ produced l2.
Proof.
  induction l1 as [|[f a1 a2 [|]|] l1 IH]; simpl; now rewrite ?IH.
Qed.

Lemma produced_consume n : produced (replicate n consume) = [].
Proof. induction n; simpl; auto. Qed.


(** An enqueue of the producer keeps the invariant and adds its record, if
    it was allocated, to the records produced. *)
Lemma fifo_produce t i u tr0 P s h f a1 a2 ok :
  fifo_inv t i u tr0 P s -> i = h - 1 ->
  (ok = true -> (length (pending s i) < 32)%nat) ->
  exists r s',
    event_thread_enqueue_event h (fn_extern f) a1 a2 ok s = Ret r s' /\
    fifo_inv t i u tr0
      (P ++ produced [produce f a1 a2 ok]) s' /\
    (length (pending s' i) <=
     length (pending s i) + length (produced [produce f a1 a2 ok]))%nat.
Proof.
  intros (Hb & Hrun & th & q & c & T & evs & Ht & Harg & Hsig & Hinv & Em
          & Hsz & Hu & Hns & Htr & HP & Hpc) -> Hcap.
  assert (Hlive : th_pc th <> Exited) by (intros E; now rewrite E in Hpc).
  destruct ok.
  - assert (Hroom : room s (th_arg th)).
    { unfold room. rewrite Harg, Em. unfold has_room. rewrite Hsz.
      specialize (Hcap eq_refl).
      rewrite (pending_mailbox _ _ _ _ Em) in Hcap. lia. }
    destruct (enqueue_inv s th h (fn_extern f) a1 a2 Hinv Hlive Hb Harg Hroom I)
      as (q' & c' & n & Em' & En & Henq & Hinv' & Hb' & Em1 & En1 & Hother).
    rewrite Harg, Em in Em'. injection Em' as <- <-.
    set (e := {| callback := fn_extern f; arg1 := a1; arg2 := a2 |}) in *.
    set (s' := enqueued q c e s) in *.
    rewrite Harg in Em1.
    exists 0, s'. split; [exact Henq|].
    pose proof (proj1 (mailbox_Some _ _ _ _) Em) as (Hq & Hc).
    assert (Hfresh : heap s !! next_addr s = None)
      by (apply (heap_bounded_fresh _ _ Hb); lia).
    assert (Hnew : heap s' !! next_addr s = Some (OEvent e)).
    { subst s'. unfold enqueued. simpl.
      rewrite lookup_insert_ne by (intros E; rewrite <- E in Hfresh; congruence).
      apply lookup_insert_eq. }
    assert (Hrec : forall Q x, record_at s Q x -> record_at s' Q x).
    { intros Q x Hx. pose proof Hx as Hx'.
      apply record_at_inv in Hx' as (e' & He' & _).
      unfold record_at. rewrite Hother; [exact Hx| |]; intros ->; congruence. }
    assert (Hholds : forall x e', holds s x e' -> holds s' x e').
    { intros x e' Hx. unfold holds in *.
      rewrite Hother; [exact Hx| |]; intros ->; congruence. }
    split; [|rewrite (pending_mailbox _ _ _ _ Em1), (pending_mailbox _ _ _ _ Em);
             simpl; rewrite length_app; simpl; lia].
    split; [exact Hb'|]. split; [exact Hrun|].
    exists th, q, {| size := size c; data := data c ++ [next_addr s] |}, T,
      (evs ++ [e]).
    split; [exact Ht|]. split; [exact Harg|]. split; [exact Hsig|].
    split; [exact Hinv'|]. split; [exact Em1|]. split; [exact Hsz|].
    split; [now apply Hrec|].
    split.
    { simpl. apply Forall_app. split.
      - eapply Forall_impl; [exact Hns|]. intros x. apply Hrec.
      - constructor; [|constructor]. unfold record_at. rewrite Hnew.
        unfold no_stop. simpl. discriminate. }
    split; [exact Htr|]. split; [simpl; now rewrite app_assoc, HP|].
    destruct (th_pc th) as [|u'|]; [| |contradiction].
    + destruct Hpc as (-> & rest & Hd & Hf2). split; [reflexivity|].
      exists (rest ++ [next_addr s]). simpl. rewrite Hd. split; [reflexivity|].
      apply Forall2_app; [|now repeat constructor].
      eapply Forall2_impl; [exact Hf2|]. exact Hholds.
    + destruct Hpc as (-> & Hf2). split; [reflexivity|]. simpl.
      apply Forall2_app; [|now repeat constructor].
      eapply Forall2_impl; [exact Hf2|]. exact Hholds.
  - assert (Hh : h <= MAX_EVENT_THREADS).
    { destruct (worker_inv_inv _ _ Hinv) as (q1 & c1 & n1 & nm1 & Hi & _).
      unfold in_table in Hi. rewrite Harg in Hi. lia. }
    rewrite (enqueue_calloc_failure _ _ _ _ _ Hh).
    exists (-1), s. split; [reflexivity|]. split; [|simpl; lia].
    simpl. rewrite app_nil_r. split; [exact Hb|]. split; [exact Hrun|].
    exists th, q, c, T, evs. repeat (split; [assumption|]). exact Hpc.
Qed.

(** A step of the worker keeps the invariant; it takes one record out of
    the mailbox unless the mailbox is empty. *)
Lemma fifo_consume t i u tr0 P s :
  fifo_inv t i u tr0 P s ->
  exists s',
    event_thread_loop_step t s = Ret tt s' /\
    fifo_inv t i u tr0 P s' /\
    length (pending s' i) = pred (length (pending s i)).
Proof.
  intros (Hb & Hrun & th & q & c & T & evs & Ht & Harg & Hsig & Hinv & Em
          & Hsz & Hu & Hns & Htr & HP & Hpc).
  assert (Hlive : th_pc th <> Exited) by (intros E; now rewrite E in Hpc).
  subst i.
  destruct (step_spec s t th Ht Hlive Hinv)
    as (q' & c' & n & s' & Em' & En & Hstep & Hsame & Heff).
  rewrite Em in Em'. injection Em' as <- <-.
  destruct (step_effect_inv s t th q c n s' Ht Hinv Em En Heff)
    as (Hdom & Hframe & Hsf & Hother & th' & Hth' & Harg' & Hsig' & Hinv').
  destruct Hsame as (Hna & _).
  exists s'. split; [exact Hstep|].
  assert (Hb' : heap_bounded s').
  { unfold heap_bounded. apply map_Forall_lookup. intros x o Hx. rewrite Hna.
    destruct (Hdom x) as (o' & Ho'); [now exists o|].
    exact (heap_bounded_live _ _ _ Hb Ho'). }
  assert (Ht' : threads s' !! t = Some th').
  { rewrite Hth'. apply lookup_insert_eq. }
  pose proof (proj1 (mailbox_Some _ _ _ _) Em) as (Hq & Hc).
  destruct Heff as [u0 rest Epc Hsg Hd Hth Hh Hg Htr' Hfr
                   |u0 ue Epc Hr0 Hd Hue Hth Hh Hsf' Hr Htr' Hfr
                   |u0 ue a e rest Epc Hr0 Hd Hue Ha Hth Hh Hsf' Hr Htr' Hfr
                   |uo Hkind Hth Hg Htr' Hfr Hgone Hrest].
  - (* entering the loop *)
    rewrite Epc in Hpc. destruct Hpc as (-> & rest' & Hd' & Hf2).
    rewrite Hd in Hd'. injection Hd' as -> <-.
    assert (Eth : th' = at_pc th (InLoop u)).
    { rewrite Hth in Ht'. rewrite lookup_insert_eq in Ht'. congruence. }
    destruct Hinv' as [E|(Hinv' & _ & _)]; [rewrite Eth in E; discriminate|].
    assert (Em1 : mailbox s' (th_arg th) = Some (q, {| size := size c; data := rest |})).
    { apply mailbox_Some. destruct (Hsf (th_arg th)) as (-> & _).
      split; [assumption|]. rewrite Hh. apply lookup_insert_eq. }
    assert (Hkeep : forall x, x <> q -> heap s' !! x = heap s !! x).
    { intros x Hx. rewrite Hh. now rewrite lookup_insert_ne. }
    assert (Hrec : forall Q x, record_at s Q x -> record_at s' Q x).
    { intros Q x Hx. pose proof Hx as Hx'.
      apply record_at_inv in Hx' as (e' & He' & _).
      unfold record_at. rewrite Hkeep; [exact Hx|]. intros ->. congruence. }
    split; [|rewrite (pending_mailbox _ _ _ _ Em1), (pending_mailbox _ _ _ _ Em);
             now rewrite Hd].
    split; [exact Hb'|]. split; [unfold slot; now rewrite Hg|].
    exists th', q, {| size := size c; data := rest |}, [], evs.
    split; [exact Ht'|]. split; [now rewrite Eth|]. split; [now rewrite Eth|].
    split; [exact Hinv'|]. split; [exact Em1|]. split; [exact Hsz|].
    split; [now apply Hrec|].
    rewrite Hd in Hns. apply Forall_cons in Hns as (_ & Hns).
    split; [eapply Forall_impl; [exact Hns|]; intros x; apply Hrec|].
    split; [now rewrite Htr'|]. split; [exact HP|].
    rewrite Eth. simpl. split; [reflexivity|].
    eapply Forall2_impl; [exact Hf2|]. intros x e Hx. unfold holds in *.
    rewrite Hkeep; [exact Hx|]. intros ->. congruence.
  - (* an iteration on an empty mailbox *)
    rewrite Epc in Hpc. destruct Hpc as (-> & Hf2).
    assert (Eth : th' = th).
    { rewrite Hth in Ht'. congruence. }
    destruct Hinv' as [E|(Hinv' & _ & _)]; [rewrite Eth in E; congruence|].
    assert (Hue' : no_stop ue).
    { apply record_at_inv in Hu as (? & ? & ?). congruence. }
    assert (Em1 : mailbox s' (th_arg th) = Some (q, c)).
    { apply mailbox_Some. destruct (Hsf (th_arg th)) as (-> & _). now rewrite Hh. }
    split; [|rewrite (pending_mailbox _ _ _ _ Em1), (pending_mailbox _ _ _ _ Em);
             now rewrite Hd].
    split; [exact Hb'|].
    split; [rewrite Hr; now rewrite (no_stop_clears _ _ Hue')|].
    exists th, q, c, (T ++ tick_calls u ue), evs.
    split; [congruence|]. split; [reflexivity|]. split; [exact Hsig|].
    split; [congruence|]. split; [exact Em1|]. split; [exact Hsz|].
    split; [unfold record_at; now rewrite Hh|].
    split; [unfold record_at; now rewrite Hh|].
    split; [rewrite Htr', Htr; now rewrite app_assoc|].
    split; [rewrite mail_calls_app, mail_calls_tick, app_nil_r; exact HP|].
    rewrite Epc. split; [reflexivity|]. unfold holds. now rewrite Hh.
  - (* an iteration that runs the head of the mailbox *)
    rewrite Epc in Hpc. destruct Hpc as (-> & Hf2).
    assert (Eth : th' = th).
    { rewrite Hth in Ht'. congruence. }
    destruct Hinv' as [E|(Hinv' & _ & _)]; [rewrite Eth in E; congruence|].
    assert (Hue' : no_stop ue).
    { apply record_at_inv in Hu as (? & ? & ?). congruence. }
    rewrite Hd in Hns, Hf2. apply Forall_cons in Hns as (Hae & Hns).
    assert (He' : no_stop e).
    { apply record_at_inv in Hae as (? & ? & ?). congruence. }
    destruct evs as [|e0 evs]; [inversion Hf2|].
    apply Forall2_cons in Hf2 as (Ha0 & Hf2).
    assert (e0 = e) as -> by (unfold holds in Ha0; congruence).
    destruct (worker_inv_inv _ _ Hinv)
      as (q1 & c1 & n1 & nm1 & _ & Em2 & _ & _ & _ & _ & _ & Hnd & Hcase).
    rewrite Em in Em2. injection Em2 as <- <-.
    rewrite Epc in Hcase. destruct Hcase as (_ & Hul & _).
    rewrite Hd in Hnd, Hul. apply NoDup_cons in Hnd as (Har & Hnd).
    apply not_elem_of_cons in Hul as (Hua & Hur).
    assert (Haq : a <> q) by (intros ->; congruence).
    assert (Hkeep : forall x, x <> q -> x <> a -> heap s' !! x = heap s !! x).
    { intros x Hx Hx'. rewrite Hh.
      now rewrite lookup_delete_ne, lookup_insert_ne. }
    assert (Em1 : mailbox s' (th_arg th) = Some (q, {| size := size c; data := rest |})).
    { apply mailbox_Some. destruct (Hsf (th_arg th)) as (-> & _).
      split; [assumption|]. rewrite Hh.
      rewrite lookup_delete_ne by congruence. apply lookup_insert_eq. }
    split; [|rewrite (pending_mailbox _ _ _ _ Em1), (pending_mailbox _ _ _ _ Em);
             now rewrite Hd].
    split; [exact Hb'|].
    split; [rewrite Hr; now rewrite (no_stop_clears _ _ Hue'),
                                    (no_stop_clears _ _ He')|].
    exists th, q, {| size := size c; data := rest |},
      (T ++ tick_calls u ue ++ [(a, e)]), evs.
    split; [congruence|]. split; [reflexivity|]. split; [exact Hsig|].
    split; [congruence|]. split; [exact Em1|]. split; [exact Hsz|].
    split.
    { unfold record_at. rewrite Hkeep; [exact Hu| |congruence].
      intros ->. apply record_at_inv in Hu as (? & ? & _). congruence. }
    split.
    { simpl. apply Forall_forall. intros x Hx.
      pose proof (proj1 (Forall_forall _ _) Hns x Hx) as Hx'.
      unfold record_at. rewrite Hkeep; [exact Hx'| |].
      - intros ->. apply record_at_inv in Hx' as (? & ? & _). congruence.
      - intros ->. contradiction. }
    split; [rewrite Htr', Htr; now rewrite <- app_assoc|].
    split.
    { rewrite !mail_calls_app, mail_calls_tick.
      rewrite mail_calls_one by congruence. simpl.
      rewrite <- HP. now rewrite <- app_assoc. }
    rewrite Epc. split; [reflexivity|]. simpl.
    apply Forall2_same_length_lookup. split;
      [exact (Forall2_length _ _ _ Hf2)|].
    intros k x e1 Hx He1. unfold holds.
    pose proof (Forall2_lookup_lr _ _ _ _ _ _ Hf2 Hx He1) as Hxe.
    assert (Hxin : x ∈ rest) by (eapply list_elem_of_lookup_2; eauto).
    rewrite Hkeep; [exact Hxe| |].
    + intros ->. unfold holds in Hxe. congruence.
    + intros ->. contradiction.
  - (* the exit cannot happen *)
    destruct (th_pc th) as [|u0|] eqn:Epc; [| |contradiction].
    + destruct Hkind as (_ & [Hs|Hd]); [congruence|].
      destruct Hpc as (_ & rest & Hd' & _). congruence.
    + destruct Hkind as (_ & Hr). congruence.
Qed.

Lemma within_capacity_le l :
  forall n m, (m <= n)%nat -> within_capacity n l -> within_capacity m l.
Proof.
  induction l as [|[f a1 a2 [|]|] l IH]; intros n m Hle; simpl.
  - auto.
  - intros (Hn & H). split; [lia|]. apply (IH (S n)); [lia|exact H].
  - apply IH. exact Hle.
  - apply IH. lia.
Qed.

Lemma fifo_run h t u tr0 l :
  forall P s,
    fifo_inv t (h - 1) u tr0 P s ->
    within_capacity (length (pending s (h - 1))) l ->
    exists s',
      run_schedule h t l s = Ret tt s' /\
      fifo_inv t (h - 1) u tr0 (P ++ produced l) s' /\
      (length (pending s' (h - 1)) <=
       length (pending s (h - 1)) + length (produced l))%nat.
Proof.
  induction l as [|[f a1 a2 ok|] l IH]; intros P s Hinv Hcap; simpl.
  - exists s. rewrite app_nil_r. split; [reflexivity|]. split; [exact Hinv|lia].
  - destruct (fifo_produce _ _ _ _ _ _ h f a1 a2 ok Hinv eq_refl)
      as (r & s1 & Henq & Hinv1 & Hlen).
    { intros ->. simpl in Hcap. apply Hcap. }
    rewrite (bind_Ret _ _ _ _ _ Henq).
    destruct (IH _ _ Hinv1) as (s' & Hrun & Hinv' & Hlen').
    { destruct ok; simpl in Hcap, Hlen.
      - apply (within_capacity_le l (S (length (pending s (h - 1)))));
          [lia|apply Hcap].
      - apply (within_capacity_le l (length (pending s (h - 1))));
          [lia|exact Hcap]. }
    exists s'. split; [exact Hrun|]. split.
    + simpl in Hinv'. rewrite <- app_assoc in Hinv'.
      destruct ok; exact Hinv'.
    + destruct ok; simpl in *; lia.
  - destruct (fifo_consume _ _ _ _ _ _ Hinv) as (s1 & Hstep & Hinv1 & Hlen).
    rewrite (bind_Ret _ _ _ _ _ Hstep).
    destruct (IH _ _ Hinv1) as (s' & Hrun & Hinv' & Hlen').
    { simpl in Hcap. now rewrite Hlen. }
    exists s'. split; [exact Hrun|]. split; [exact Hinv'|lia].
Qed.



(** The invariant holds when the worker has just been created. *)
Lemma fifo_init nm cb a1 a2 env s0 :
  in_table (g_thread_cnt s0) -> heap_bounded s0 ->
  strdup_ok env = true -> calloc_queue_ok env = true ->
  calloc_event_ok env = true -> pthread_create_ok env = true ->
  signal_ok env = true ->
  cb <> fn_event_thread_stop_cb ->
  exists s1,
    event_thread_create nm cb a1 a2 env s0 = Ret (g_thread_cnt s0 + 1) s1 /\
    fifo_inv (next_tid s0) (g_thread_cnt s0) (S (S (next_addr s0)))
      (trace s0) [] s1.
Proof.
  intros Hi Hb E1 E2 E3 E4 E5 Hcb.
  rewrite (create_success _ _ _ _ _ _ Hi Hb E1 E2 E4). rewrite E3, E5.
  eexists. split; [reflexivity|].
  set (na := next_addr s0). set (u := S (S na)). set (q := S na).
  set (e := {| callback := cb; arg1 := a1; arg2 := a2 |}).
  set (s1 := with_threads _ _).
  assert (Hslot : slot s1 (g_thread_cnt s0) =
                  {| running := true; name := Some na; events := Some q;
                     tid := next_tid s0 |}).
  { unfold slot. subst s1. simpl. now rewrite lookup_insert_eq. }
  assert (Hq : heap s1 !! q = Some (OQueue {| size := 32; data := [u] |})).
  { subst s1. simpl. apply lookup_insert_eq. }
  assert (Hu : heap s1 !! u = Some (OEvent e)).
  { subst s1 q u. simpl. rewrite lookup_insert_ne by lia. apply lookup_insert_eq. }
  assert (Hn : heap s1 !! na = Some (OName nm)).
  { subst s1 q u. simpl. rewrite !lookup_insert_ne by lia. apply lookup_insert_eq. }
  assert (Em : mailbox s1 (g_thread_cnt s0) =
               Some (q, {| size := 32; data := [u] |})).
  { apply mailbox_Some. rewrite Hslot. now split. }
  assert (En : name_live s1 (g_thread_cnt s0) = Some na).
  { apply name_live_Some. rewrite Hslot. split; [reflexivity|now exists nm]. }
  assert (Huok : record_at s1 (update_ok (g_thread_cnt s0)) u).
  { unfold record_at. rewrite Hu. unfold update_ok, mail_ok. simpl.
    destruct cb; [now left|contradiction|now right]. }
  split; [|split].
  - unfold heap_bounded. subst s1. simpl. fold na.
    apply map_Forall_insert_2; [lia|].
    apply map_Forall_insert_2; [lia|].
    apply map_Forall_insert_2; [lia|].
    eapply map_Forall_impl; [exact Hb|]. simpl. intros; fold na; lia.
  - now rewrite Hslot.
  - exists {| th_arg := g_thread_cnt s0; th_signal_ok := true; th_pc := AtStart |},
      q, {| size := 32; data := [u] |}, [], [].
    split; [subst s1; simpl; apply lookup_insert_eq|].
    split; [reflexivity|]. split; [reflexivity|]. split.
    { unfold worker_inv. simpl. split; [exact Hi|]. rewrite Em, En. simpl.
      split; [apply NoDup_singleton|]. split; [exact Huok|constructor]. }
    split; [exact Em|]. split; [reflexivity|].
    assert (Hns : record_at s1 no_stop u).
    { unfold record_at. rewrite Hu. exact Hcb. }
    split; [exact Hns|]. split; [simpl; now repeat constructor|].
    split; [subst s1; simpl; now rewrite app_nil_r|]. split; [reflexivity|].
    simpl. split; [reflexivity|]. exists []. split; [reflexivity|constructor].
Qed.



(** C5 (failing input): a creation in which only the allocation of the
    update record fails still returns the handle 1 and starts the worker.
    The first record the producer enqueues is then what the worker pops
    before its loop and keeps as its update record: its callback is
    called on every iteration, before and after the callbacks of the
    records enqueued behind it, and never as a mailbox event.  The calls
    are not the records enqueued, in the order of the enqueues. *)
Theorem first_event_becomes_update_record :
  exists s1 s',
    event_thread_create "probe" (fn_extern 0) (p_extern 0) p_null
      no_update_record init_state = Ret 1 s1 /\
    run_schedule 1 1 three_events s1 = Ret tt s' /\
    produced three_events =
      [{| callback := fn_extern 1; arg1 := p_extern 1; arg2 := p_null |};
       {| callback := fn_extern 2; arg1 := p_extern 2; arg2 := p_null |};
       {| callback := fn_extern 3; arg1 := p_extern 3; arg2 := p_null |}] /\
    snd <$> trace s' =
      [{| callback := fn_extern 1; arg1 := p_extern 1; arg2 := p_null |};
       {| callback := fn_extern 2; arg1 := p_extern 2; arg2 := p_null |};
       {| callback := fn_extern 1; arg1 := p_extern 1; arg2 := p_null |};
       {| callback := fn_extern 3; arg1 := p_extern 3; arg2 := p_null |};
       {| callback := fn_extern 1; arg1 := p_extern 1; arg2 := p_null |}].
Proof.
  eexists. eexists. split; [vm_compute; reflexivity|].
  split; [vm_compute; reflexivity|]. split; reflexivity.
Qed.

(** ** The invariant of the system of workers *)

(** The addresses a thread owns are in use. *)
Lemma footprint_in_use s th x :
  worker_inv s th -> x ∈ footprint s th -> is_Some (heap s !! x).
Proof.
  intros Hinv Hx.
  destruct (worker_inv_inv _ _ Hinv)
    as (q & c & n & nm & Hi & Em & Hq & Hc & En & Hn & Hnm & Hnd & Hcase).
  unfold footprint in Hx. rewrite Em, En in Hx.
  destruct (th_pc th) as [|u|] eqn:Epc.
  - apply elem_of_cons in Hx as [->|Hx]; [eexists; eassumption|].
    apply elem_of_cons in Hx as [->|Hx]; [eexists; eassumption|].
    assert (Hpc : th_pc th <> Exited) by congruence.
    pose proof (worker_inv_pending_live _ _ _ _ Hinv Hpc Em) as Hl.
    destruct (proj1 (Forall_forall _ _) Hl x Hx) as (e & He). eexists; eassumption.
  - apply elem_of_cons in Hx as [->|Hx]; [eexists; eassumption|].
    apply elem_of_cons in Hx as [->|Hx]; [eexists; eassumption|].
    destruct Hcase as (Hu & _ & Hmail).
    apply elem_of_cons in Hx as [->|Hx].
    + apply record_at_inv in Hu as (e & He & _). eexists; eassumption.
    + pose proof (proj1 (Forall_forall _ _) Hmail x Hx) as Hx'.
      apply record_at_inv in Hx' as (e & He & _). eexists; eassumption.
  - now apply elem_of_nil in Hx.
Qed.

(** The invariant of a thread only depends on its slot and on the heap at
    the addresses it owns. *)
Lemma worker_agree s s' th :
  same_fields s s' ->
  (forall x, x ∈ footprint s th -> heap s' !! x = heap s !! x) ->
  worker_inv s th -> th_pc th <> Exited ->
  worker_inv s' th /\ footprint s' th = footprint s th /\
  mailbox s' (th_arg th) = mailbox s (th_arg th).
Proof.
  intros Hsf Hag Hinv Hpc.
  destruct (worker_inv_inv _ _ Hinv)
    as (q & c & n & nm & Hi & Em & Hq & Hc & En & Hn & Hnm & Hnd & Hcase).
  rewrite (footprint_live s th q c n Hpc Em En) in Hag.
  assert (Hq' : heap s' !! q = heap s !! q)
    by (apply Hag; apply list_elem_of_here).
  assert (Hn' : heap s' !! n = heap s !! n)
    by (apply Hag; apply list_elem_of_further, list_elem_of_here).
  assert (Em1 : mailbox s' (th_arg th) = Some (q, c)).
  { apply mailbox_Some. destruct (Hsf (th_arg th)) as (-> & _).
    split; [assumption|congruence]. }
  assert (En1 : name_live s' (th_arg th) = Some n).
  { apply name_live_Some. destruct (Hsf (th_arg th)) as (_ & -> & _).
    split; [assumption|]. exists nm. congruence. }
  assert (Hrec : forall P x,
             x ∈ match th_pc th with InLoop u => [u] | _ => [] end ++ data c ->
             record_at s P x -> record_at s' P x).
  { intros P x Hx. unfold record_at. rewrite Hag; [auto|].
    now do 2 apply list_elem_of_further. }
  split; [|split; [|congruence]].
  - unfold worker_inv. split; [exact Hi|]. rewrite Em1, En1.
    split; [exact Hnd|].
    destruct (th_pc th) as [|u|]; [| |contradiction]; simpl in Hrec.
    + unfold start_queue_ok in *. destruct (data c) as [|u rest]; [exact I|].
      destruct Hcase as (Hu & Hrest). split.
      * apply Hrec; [apply list_elem_of_here|exact Hu].
      * apply Forall_forall. intros x Hx. apply Hrec.
        -- now apply list_elem_of_further.
        -- exact (proj1 (Forall_forall _ _) Hrest x Hx).
    + destruct Hcase as (Hu & Hul & Hmail).
      split; [apply Hrec; [apply list_elem_of_here|exact Hu]|].
      split; [exact Hul|]. apply Forall_forall. intros x Hx. apply Hrec.
      * now apply list_elem_of_further.
      * exact (proj1 (Forall_forall _ _) Hmail x Hx).
  - unfold footprint. now rewrite Em1, En1, Em, En.
Qed.

Lemma footprint_exited s th : th_pc th = Exited -> footprint s th = [].
Proof. intros E. unfold footprint. now rewrite E. Qed.

(** An operation that only touches what one thread owns, and at most
    adds fresh addresses to it, keeps the invariant of the system. *)
Lemma system_inv_frame s s' t th th' :
  system_inv s -> threads s !! t = Some th -> th_pc th <> Exited ->
  threads s' = <[t := th']> (threads s) -> th_arg th' = th_arg th ->
  same_fields s s' -> heap_bounded s' ->
  (forall x, x ∉ footprint s th -> (x < next_addr s)%nat ->
             heap s' !! x = heap s !! x) ->
  (th_pc th' = Exited \/
   (worker_inv s' th' /\
    forall x, x ∈ footprint s' th' ->
              x ∈ footprint s th \/ (next_addr s <= x)%nat)) ->
  system_inv s'.
Proof.
  intros (Hb & Hok & Hap) Ht Hpc Hth Harg Hsf Hb' Hframe Hnew.
  pose proof (map_Forall_lookup_1 _ _ _ _ Hok Ht) as [E|(Hinv & Htid)];
    [contradiction|].
  assert (Hbelow : forall t2 th2 x,
             threads s !! t2 = Some th2 -> x ∈ footprint s th2 ->
             (x < next_addr s)%nat).
  { intros t2 th2 x H2 Hx.
    pose proof (map_Forall_lookup_1 _ _ _ _ Hok H2) as [E|(Hinv2 & _)].
    - rewrite (footprint_exited _ _ E) in Hx. now apply elem_of_nil in Hx.
    - destruct (footprint_in_use _ _ _ Hinv2 Hx) as (o & Ho).
      exact (heap_bounded_live _ _ _ Hb Ho). }
  assert (Hdisj : forall t2 th2 x,
             t2 <> t -> threads s !! t2 = Some th2 ->
             x ∈ footprint s th2 -> x ∉ footprint s th).
  { intros t2 th2 x Hne H2 Hx.
    pose proof (map_Forall_lookup_1 _ _ _ _ Hap H2) as Hap2.
    pose proof (map_Forall_lookup_1 _ _ _ _ Hap2 Ht) as [E|HF];
      [contradiction|].
    exact (proj1 (Forall_forall _ _) HF x Hx). }
  assert (Hold : forall t2 th2,
             t2 <> t -> threads s !! t2 = Some th2 ->
             footprint s' th2 = footprint s th2 /\
             (th_pc th2 <> Exited -> worker_inv s' th2)).
  { intros t2 th2 Hne H2.
    destruct (decide (th_pc th2 = Exited)) as [E|E].
    - rewrite !(footprint_exited _ _ E). split; [reflexivity|contradiction].
    - pose proof (map_Forall_lookup_1 _ _ _ _ Hok H2) as [E'|(Hinv2 & _)];
        [contradiction|].
      destruct (worker_agree s s' th2 Hsf) as (Hw & Hf & _); try assumption.
      + intros x Hx. apply Hframe; [eapply Hdisj; eauto|eapply Hbelow; eauto].
      + split; [exact Hf|intros _; exact Hw]. }
  assert (Hnew' : forall x, x ∈ footprint s' th' ->
                            x ∈ footprint s th \/ (next_addr s <= x)%nat).
  { intros x Hx. destruct Hnew as [E|(_ & Hn)]; [|now apply Hn].
    rewrite (footprint_exited _ _ E) in Hx. now apply elem_of_nil in Hx. }
  split; [exact Hb'|]. split.
  - apply map_Forall_lookup. intros t2 th2 H2. rewrite Hth in H2.
    destruct (decide (t2 = t)) as [->|Hne].
    + rewrite lookup_insert_eq in H2. injection H2 as <-.
      destruct Hnew as [E|(Hw & _)]; [now left|right].
      split; [exact Hw|]. rewrite Harg. destruct (Hsf (th_arg th)) as (_ & _ & ->).
      exact Htid.
    + rewrite lookup_insert_ne in H2 by congruence.
      destruct (Hold _ _ Hne H2) as (_ & Hw).
      pose proof (map_Forall_lookup_1 _ _ _ _ Hok H2) as [E|(_ & Htid2)];
        [now left|].
      destruct (decide (th_pc th2 = Exited)) as [E|E]; [now left|right].
      split; [now apply Hw|]. destruct (Hsf (th_arg th2)) as (_ & _ & ->).
      exact Htid2.
  - apply map_Forall_lookup. intros t1 th1 H1. rewrite Hth in H1.
    unfold apart. apply map_Forall_lookup. intros t2 th2 H2. rewrite Hth in H2.
    destruct (decide (t1 = t2)) as [->|H12]; [now left|right].
    apply Forall_forall. intros x Hx Hx'.
    destruct (decide (t1 = t)) as [->|H1t].
    + rewrite lookup_insert_eq in H1. injection H1 as <-.
      rewrite lookup_insert_ne in H2 by congruence.
      destruct (Hold _ _ (not_eq_sym H12) H2) as (Hf2 & _).
      rewrite Hf2 in Hx'. destruct (Hnew' _ Hx) as [Hin|Hge].
      * exact (Hdisj _ _ _ (not_eq_sym H12) H2 Hx' Hin).
      * pose proof (Hbelow _ _ _ H2 Hx'). lia.
    + rewrite lookup_insert_ne in H1 by congruence.
      destruct (Hold _ _ H1t H1) as (Hf1 & _). rewrite Hf1 in Hx.
      destruct (decide (t2 = t)) as [->|H2t].
      * rewrite lookup_insert_eq in H2. injection H2 as <-.
        destruct (Hnew' _ Hx') as [Hin|Hge].
        -- exact (Hdisj _ _ _ H1t H1 Hx Hin).
        -- pose proof (Hbelow _ _ _ H1 Hx). lia.
      * rewrite lookup_insert_ne in H2 by congruence.
        destruct (Hold _ _ H2t H2) as (Hf2 & _). rewrite Hf2 in Hx'.
        pose proof (map_Forall_lookup_1 _ _ _ _ Hap H1) as Hap1.
        pose proof (map_Forall_lookup_1 _ _ _ _ Hap1 H2) as [E|HF];
          [contradiction|].
        exact (proj1 (Forall_forall _ _) HF x Hx Hx').
Qed.

(** A step of a thread that has not exited keeps the invariant of the
    system, and touches nothing another thread relies on. *)
Lemma step_system_inv s t th :
  system_inv s -> threads s !! t = Some th -> th_pc th <> Exited ->
  exists q c n s' th',
    mailbox s (th_arg th) = Some (q, c) /\
    name_live s (th_arg th) = Some n /\
    event_thread_loop_step t s = Ret tt s' /\
    step_effect s t th q c n s' /\
    system_inv s' /\ same_rest s s' /\ same_fields s s' /\
    threads s' = <[t := th']> (threads s) /\
    th_arg th' = th_arg th /\ th_signal_ok th' = th_signal_ok th /\
    (forall j, j <> th_arg th -> running (slot s' j) = running (slot s j)) /\
    (forall x, x ∉ footprint s th -> heap s' !! x = heap s !! x) /\
    (forall x, x ∈ footprint s' th' -> x ∈ footprint s th).
Proof.
  intros Hsys Ht Hpc.
  pose proof Hsys as (Hb & Hok & _).
  pose proof (map_Forall_lookup_1 _ _ _ _ Hok Ht) as [E|(Hinv & Htid)];
    [contradiction|].
  destruct (step_spec s t th Ht Hpc Hinv)
    as (q & c & n & s' & Em & En & Hstep & Hsame & Heff).
  destruct (step_effect_inv s t th q c n s' Ht Hinv Em En Heff)
    as (Hdom & Hframe & Hsf & Hother & th' & Hth' & Harg' & Hsig' & Hinv').
  exists q, c, n, s', th'. do 4 (split; [assumption|]).
  assert (Hb' : heap_bounded s').
  { destruct Hsame as (Hna & _). unfold heap_bounded.
    apply map_Forall_lookup. intros x o Hx. rewrite Hna.
    destruct (Hdom x) as (o' & Ho'); [now exists o|].
    exact (heap_bounded_live _ _ _ Hb Ho'). }
  split.
  { apply (system_inv_frame s s' t th th'); try assumption.
    - intros x Hx _. now apply Hframe.
    - destruct Hinv' as [E|(Hw & _ & Hsub)]; [now left|right].
      split; [exact Hw|]. intros x Hx. left. now apply Hsub. }
  do 7 (split; [assumption|]).
  intros x Hx. destruct Hinv' as [E|(_ & _ & Hsub)]; [|now apply Hsub].
  rewrite (footprint_exited _ _ E) in Hx. now apply elem_of_nil in Hx.
Qed.

(** The record a stop of slot [i] enqueues. *)
Lemma stop_record_ok i :
  mail_ok i {| callback := fn_event_thread_stop_cb; arg1 := p_thread i;
               arg2 := p_null |}.
Proof. reflexivity. Qed.

Lemma pthread_kill_live t th s :
  threads s !! t = Some th -> handler_installed s ->
  pthread_kill t s = Ret tt (with_signals (signals s ++ [t]) s).
Proof.
  intros Ht Hh. unfold pthread_kill. rewrite Ht. now rewrite decide_True.
Qed.

Lemma pthread_kill_no_handler t th s :
  threads s !! t = Some th -> ~ handler_installed s ->
  pthread_kill t s = Fault (KilledBySignal t).
Proof.
  intros Ht Hh. unfold pthread_kill. rewrite Ht. now rewrite decide_False.
Qed.

(** A stop of a worker whose thread has not exited and whose mailbox is
    not full, once the handler of the signal is installed, returns 0,
    puts the stop record at the tail of the mailbox, sends the signal to
    the thread of the slot, and keeps the invariant of the system. *)
Lemma stop_live s t th :
  system_inv s -> threads s !! t = Some th -> th_pc th <> Exited ->
  handler_installed s -> room s (th_arg th) ->
  exists q c s',
    mailbox s (th_arg th) = Some (q, c) /\
    s' = with_signals (signals s ++ [t])
           (enqueued q c {| callback := fn_event_thread_stop_cb;
                            arg1 := p_thread (th_arg th); arg2 := p_null |} s) /\
    event_thread_stop (th_arg th + 1) true s = Ret 0 s' /\
    system_inv s' /\
    mailbox s' (th_arg th) =
      Some (q, {| size := size c; data := data c ++ [next_addr s] |}) /\
    heap s' !! next_addr s =
      Some (OEvent {| callback := fn_event_thread_stop_cb;
                      arg1 := p_thread (th_arg th); arg2 := p_null |}) /\
    (forall x, x <> q -> x <> next_addr s -> heap s' !! x = heap s !! x).
Proof.
  intros Hsys Ht Hpc Hhandler Hroom.
  pose proof Hsys as (Hb & Hok & _).
  pose proof (map_Forall_lookup_1 _ _ _ _ Hok Ht) as [E|(Hinv & Htid)];
    [contradiction|].
  set (i := th_arg th) in *. set (h := i + 1).
  assert (Hih : i = h - 1) by (subst h; lia).
  assert (Hmok : mail_ok (h - 1)
            {| callback := fn_event_thread_stop_cb; arg1 := p_thread i;
               arg2 := p_null |}).
  { rewrite <- Hih. apply stop_record_ok. }
  destruct (enqueue_inv s th h fn_event_thread_stop_cb (p_thread i) p_null
              Hinv Hpc Hb Hih Hroom Hmok)
    as (q & c & n & Em & En & Henq & Hinv' & Hb' & Em1 & En1 & Hother).
  fold i in Em, En, Em1, En1.
  set (e := {| callback := fn_event_thread_stop_cb; arg1 := p_thread i;
               arg2 := p_null |}) in *.
  set (s1 := enqueued q c e s) in *.
  exists q, c, (with_signals (signals s ++ [t]) s1).
  split; [exact Em|]. split; [reflexivity|].
  destruct (worker_inv_inv _ _ Hinv)
    as (q' & c' & n' & nm & Hi & Em' & Hq & Hc & _ & Hn & Hnm & _ & _).
  fold i in Hi, Em', Hq. rewrite Em in Em'. injection Em' as <- <-.
  assert (Hfresh : heap s !! next_addr s = None)
    by (apply (heap_bounded_fresh _ _ Hb); lia).
  split.
  { unfold event_thread_stop. fold h.
    rewrite get_event_thread_valid
      by (unfold in_table, MAX_EVENT_THREADS in *; lia).
    replace (h - 1) with i by lia.
    rewrite (bind_Ret _ _ _ _ _ Henq). rewrite decide_True by reflexivity.
    rewrite (bind_Ret _ _ _ _ _ (slot_load_in _ _ Hi)).
    change (slot s1 i) with (slot s i). rewrite Htid.
    rewrite (bind_Ret _ _ _ _ _ (pthread_kill_live t th s1 Ht Hhandler)).
    reflexivity. }
  split.
  { apply (system_inv_frame s _ t th th); try assumption.
    - simpl. symmetry. now apply insert_id.
    - reflexivity.
    - intros j. now repeat split.
    - intros x Hx Hlt. simpl. apply Hother; [|lia].
      intros ->. apply Hx.
      rewrite (footprint_live s th q c n Hpc Em En). apply list_elem_of_here.
    - right. split; [exact Hinv'|]. intros x Hx.
      change (footprint (with_signals (signals s ++ [t]) s1) th)
        with (footprint s1 th) in Hx.
      rewrite (footprint_live s1 th q _ n Hpc Em1 En1) in Hx.
      rewrite (footprint_live s th q c n Hpc Em En). simpl in *.
      rewrite app_assoc in Hx. rewrite !app_comm_cons in Hx.
      apply elem_of_app in Hx as [Hx|Hx]; [now left|right].
      apply list_elem_of_singleton in Hx as ->. lia. }
  split; [exact Em1|]. split; [|exact Hother].
  subst s1. unfold enqueued. simpl.
  rewrite lookup_insert_ne by (intros E; rewrite <- E in Hfresh; congruence).
  apply lookup_insert_eq.
Qed.

(** ** Termination of a worker that was told to stop *)

Lemma record_at_not_queue s P x q c :
  record_at s P x -> heap s !! q = Some (OQueue c) -> x <> q.
Proof.
  intros Hx Hq ->. apply record_at_inv in Hx as (e & He & _). congruence.
Qed.

(** A step of a thread that will stop leaves a thread that will stop, and
    brings it closer to its exit. *)
Lemma step_progress s t th q c n s' th' :
  threads s !! t = Some th -> worker_inv s th ->
  mailbox s (th_arg th) = Some (q, c) -> name_live s (th_arg th) = Some n ->
  step_effect s t th q c n s' -> same_fields s s' ->
  threads s' !! t = Some th' ->
  will_stop s th ->
  will_stop s' th' /\ (steps_to_exit s' th' < steps_to_exit s th)%nat.
Proof.
  intros Ht Hinv Em En Heff Hsf Ht' Hws.
  destruct (worker_inv_inv _ _ Hinv)
    as (q' & c' & n' & nm & Hi & Em' & Hq & Hc & _ & _ & _ & Hnd & Hcase).
  rewrite Em in Em'. injection Em' as <- <-.
  destruct Heff as [u rest Epc Hsig Hd Hth Hh Hg Htr Hfr
                   |u ue Epc Hrun Hd Hue Hth Hh _ Hr Htr Hfr
                   |u ue a e rest Epc Hrun Hd Hue Ha Hth Hh _ Hr Htr Hfr
                   |uo Hkind Hth Hg Htr Hfr Hgone Hrest].
  - (* entering the loop *)
    assert (Eth : th' = at_pc th (InLoop u)).
    { rewrite Hth, lookup_insert_eq in Ht'. congruence. }
    subst th'.
    assert (Em1 : mailbox s' (th_arg th) =
                  Some (q, {| size := size c; data := rest |})).
    { apply mailbox_Some. destruct (Hsf (th_arg th)) as (-> & _).
      split; [assumption|]. rewrite Hh. apply lookup_insert_eq. }
    assert (Hrun' : running (slot s' (th_arg th)) = running (slot s (th_arg th))).
    { unfold slot. now rewrite Hg. }
    split.
    + destruct Hws as [E|[Hr|Hsp]]; [congruence|right; left|right; right].
      * simpl. now rewrite Hrun'.
      * unfold stop_pending in *. simpl. rewrite Em1. rewrite Em, Epc, Hd in Hsp.
        simpl. eapply Exists_impl; [exact Hsp|]. intros x Hx.
        unfold record_at. rewrite Hh.
        rewrite lookup_insert_ne; [exact Hx|].
        apply not_eq_sym. eapply record_at_not_queue; eauto.
    + unfold steps_to_exit. simpl. rewrite Epc.
      rewrite (pending_mailbox _ _ _ _ Em1), (pending_mailbox _ _ _ _ Em), Hd.
      simpl. destruct (running (slot s' (th_arg th))); lia.
  - (* an iteration on an empty mailbox *)
    assert (Eth : th' = th) by (rewrite Hth in Ht'; congruence). subst th'.
    assert (Em1 : mailbox s' (th_arg th) = Some (q, c)).
    { apply mailbox_Some. destruct (Hsf (th_arg th)) as (-> & _).
      now rewrite Hh. }
    assert (Hcl : clears ue (th_arg th) = true).
    { destruct Hws as [E|[Hr'|Hsp]]; [congruence|congruence|].
      unfold stop_pending in Hsp. rewrite Em, Epc, Hd in Hsp.
      apply Exists_cons in Hsp as [Hx|Hx]; [|now apply Exists_nil in Hx].
      apply record_at_inv in Hx as (e' & He' & Hx). congruence. }
    assert (Hrun' : running (slot s' (th_arg th)) = false).
    { rewrite Hr. now rewrite Hcl. }
    split; [right; now left|].
    unfold steps_to_exit. rewrite Epc, Hrun', Hrun.
    rewrite (pending_mailbox _ _ _ _ Em1), (pending_mailbox _ _ _ _ Em). lia.
  - (* an iteration that runs the head of the mailbox *)
    assert (Eth : th' = th) by (rewrite Hth in Ht'; congruence). subst th'.
    rewrite Epc in Hcase. destruct Hcase as (Hu & Hul & Hmail).
    rewrite Hd in Hnd. apply NoDup_cons in Hnd as (Har & Hnd).
    assert (Haq : a <> q) by (intros ->; congruence).
    assert (Em1 : mailbox s' (th_arg th) =
                  Some (q, {| size := size c; data := rest |})).
    { apply mailbox_Some. destruct (Hsf (th_arg th)) as (-> & _).
      split; [assumption|]. rewrite Hh.
      rewrite lookup_delete_ne by congruence. apply lookup_insert_eq. }
    split.
    + destruct Hws as [E|[Hr'|Hsp]]; [congruence|congruence|].
      unfold stop_pending in Hsp. rewrite Em, Epc, Hd in Hsp.
      apply Exists_cons in Hsp as [Hx|Hsp].
      { apply record_at_inv in Hx as (e' & He' & Hx).
        assert (e' = ue) by congruence. subst e'.
        right; left. rewrite Hr. now rewrite Hx. }
      apply Exists_cons in Hsp as [Hx|Hsp].
      { apply record_at_inv in Hx as (e' & He' & Hx).
        assert (e' = e) by congruence. subst e'.
        right; left. rewrite Hr. rewrite Hx. now rewrite orb_true_r. }
      right; right. unfold stop_pending. rewrite Em1, Epc. simpl.
      apply Exists_cons_tl. apply Exists_exists in Hsp as (x & Hx & Hrx).
      apply Exists_exists. exists x. split; [exact Hx|].
      unfold record_at. rewrite Hh.
      rewrite lookup_delete_ne by (intros ->; contradiction).
      rewrite lookup_insert_ne; [exact Hrx|].
      apply not_eq_sym. eapply record_at_not_queue; eauto.
    + unfold steps_to_exit. rewrite Epc, Hrun.
      rewrite (pending_mailbox _ _ _ _ Em1), (pending_mailbox _ _ _ _ Em), Hd.
      simpl. destruct (running (slot s' (th_arg th))); lia.
  - (* the exit *)
    assert (Eth : th' = at_pc th Exited).
    { rewrite Hth, lookup_insert_eq in Ht'. congruence. }
    subst th'. split; [now left|].
    unfold steps_to_exit. simpl.
    destruct (th_pc th); [lia| |contradiction].
    destruct (running (slot s (th_arg th))); lia.
Qed.

(** ** What a stop and a step leave to the other workers *)

Lemma keeps_slots_ret {A} (a : A) : keeps_slots (ret a).
Proof. intros s b s' H. inversion H; subst; reflexivity. Qed.

Lemma keeps_slots_bind {A B} (m : M A) (k : A -> M B) :
  keeps_slots m -> (forall a, keeps_slots (k a)) -> keeps_slots (bind m k).
Proof.
  intros Hm Hk s b s'' H. apply bind_Ret_inv in H as (a & s' & H1 & H2).
  rewrite (Hk _ _ _ _ H2). exact (Hm _ _ _ H1).
Qed.

Lemma keeps_slots_slot_load i : keeps_slots (slot_load i).
Proof.
  intros s a s'. unfold slot_load. case_decide; [|discriminate].
  intros HRet; inversion HRet; subst; reflexivity.
Qed.

Lemma keeps_slots_alloc ok o : keeps_slots (alloc ok o).
Proof.
  intros s a s'. unfold alloc.
  destruct ok; intros HRet; inversion HRet; subst; reflexivity.
Qed.

Lemma keeps_slots_load_queue p : keeps_slots (load_queue p).
Proof.
  intros s a s'. unfold load_queue. destruct p as [x|]; [|discriminate].
  destruct (heap s !! x) as [[| |]|]; try discriminate.
  intros HRet; inversion HRet; subst; reflexivity.
Qed.

Lemma keeps_slots_store x o : keeps_slots (store x o).
Proof.
  intros s a s'. unfold store. destruct (heap s !! x); [|discriminate].
  intros HRet; inversion HRet; subst; reflexivity.
Qed.

Lemma keeps_slots_pthread_kill t : keeps_slots (pthread_kill t).
Proof.
  intros s a s'. unfold pthread_kill.
  destruct (threads s !! t); [|discriminate].
  destruct (decide (handler_installed s)); [|discriminate].
  intros HRet; inversion HRet; subst; reflexivity.
Qed.

Lemma keeps_slots_fail {A} f : keeps_slots (@fail A f).
Proof. intros s b s' H. discriminate. Qed.

Create HintDb slots.
#[local] Hint Resolve keeps_slots_ret keeps_slots_fail keeps_slots_slot_load
  keeps_slots_alloc keeps_slots_load_queue keeps_slots_store
  keeps_slots_pthread_kill : slots.

Ltac slots_steps :=
  repeat first
    [ solve [auto with slots]
    | apply keeps_slots_bind; [|intros ?]
    | match goal with
      | |- keeps_slots (match ?x with _ => _ end) => destruct x
      end ].

(** Neither an enqueue nor a stop writes to the table of slots: the
    [running] flags are what they were. *)
Lemma keeps_slots_enqueue h cb a1 a2 ok :
  keeps_slots (event_thread_enqueue_event h cb a1 a2 ok).
Proof. unfold event_thread_enqueue_event, queue_push. slots_steps. Qed.

#[local] Hint Resolve keeps_slots_enqueue : slots.

Lemma keeps_slots_stop h ok : keeps_slots (event_thread_stop h ok).
Proof. unfold event_thread_stop. slots_steps. Qed.

(** What a thread relies on is untouched by an operation on what another
    thread owns. *)
Lemma others_unchanged s s' t th t2 th2 :
  system_inv s -> threads s !! t = Some th ->
  threads s !! t2 = Some th2 -> t2 <> t -> th_pc th2 <> Exited ->
  same_fields s s' ->
  (forall x, x ∉ footprint s th -> (x < next_addr s)%nat ->
             heap s' !! x = heap s !! x) ->
  worker_inv s th2 /\ worker_inv s' th2 /\
  mailbox s' (th_arg th2) = mailbox s (th_arg th2) /\
  (forall x, x ∈ footprint s th2 -> heap s' !! x = heap s !! x).
Proof.
  intros (Hb & Hok & Hap) Ht H2 Hne Hpc2 Hsf Hframe.
  pose proof (map_Forall_lookup_1 _ _ _ _ Hok H2) as [E|(Hinv2 & _)];
    [contradiction|].
  assert (Hag : forall x, x ∈ footprint s th2 -> heap s' !! x = heap s !! x).
  { intros x Hx. apply Hframe.
    - pose proof (map_Forall_lookup_1 _ _ _ _ Hap H2) as Hap2.
      pose proof (map_Forall_lookup_1 _ _ _ _ Hap2 Ht) as [E|HF];
        [contradiction|].
      exact (proj1 (Forall_forall _ _) HF x Hx).
    - destruct (footprint_in_use _ _ _ Hinv2 Hx) as (o & Ho).
      exact (heap_bounded_live _ _ _ Hb Ho). }
  destruct (worker_agree s s' th2 Hsf Hag Hinv2 Hpc2) as (Hw & _ & Hm).
  split; [exact Hinv2|]. split; [exact Hw|]. split; [exact Hm|exact Hag].
Qed.

(** Whether a thread will stop, and how many steps it needs, only depends
    on its slot and on the heap at the addresses it owns. *)
Lemma will_stop_agree s s' th :
  worker_inv s th -> th_pc th <> Exited ->
  mailbox s' (th_arg th) = mailbox s (th_arg th) ->
  running (slot s' (th_arg th)) = running (slot s (th_arg th)) ->
  (forall x, x ∈ footprint s th -> heap s' !! x = heap s !! x) ->
  (stop_pending s th -> stop_pending s' th) /\
  (will_stop s th -> will_stop s' th) /\
  steps_to_exit s' th = steps_to_exit s th.
Proof.
  intros Hinv Hpc Hm Hr Hag.
  destruct (worker_inv_inv _ _ Hinv)
    as (q & c & n & nm & Hi & Em & Hq & Hc & En & Hn & Hnm & Hnd & Hcase).
  assert (Em1 : mailbox s' (th_arg th) = Some (q, c)) by congruence.
  rewrite (footprint_live s th q c n Hpc Em En) in Hag.
  assert (Hsp : stop_pending s th -> stop_pending s' th).
  { intros Hsp. unfold stop_pending in *. rewrite Em1. rewrite Em in Hsp.
    apply Exists_exists in Hsp as (x & Hx & Hrx).
    apply Exists_exists. exists x. split; [exact Hx|].
    unfold record_at. rewrite Hag; [exact Hrx|].
    do 2 apply list_elem_of_further.
    destruct (th_pc th); simpl; assumption. }
  split; [exact Hsp|]. split.
  - intros [E|[Hrun|H]]; [now left|right; left; congruence|right; right; auto].
  - unfold steps_to_exit.
    rewrite (pending_mailbox _ _ _ _ Em1), (pending_mailbox _ _ _ _ Em), Hr.
    reflexivity.
Qed.

(** A stop puts a stop record on the way of the thread of its slot. *)
Lemma stop_live_pending s t th :
  system_inv s -> threads s !! t = Some th -> th_pc th <> Exited ->
  handler_installed s -> room s (th_arg th) ->
  exists s',
    event_thread_stop (th_arg th + 1) true s = Ret 0 s' /\
    system_inv s' /\ g_threads s' = g_threads s /\ threads s' = threads s /\
    signals s' = signals s ++ [t] /\ joined s' = joined s /\
    stop_pending s' th /\
    length (pending s' (th_arg th)) = S (length (pending s (th_arg th))) /\
    (forall t2 th2, threads s !! t2 = Some th2 -> t2 <> t ->
                    th_pc th2 <> Exited ->
                    worker_inv s th2 /\
                    mailbox s' (th_arg th2) = mailbox s (th_arg th2) /\
                    (forall x, x ∈ footprint s th2 ->
                               heap s' !! x = heap s !! x)).
Proof.
  intros Hsys Ht Hpc Hhandler Hroom.
  destruct (stop_live s t th Hsys Ht Hpc Hhandler Hroom)
    as (q & c & s' & Em & Es' & Hstop & Hsys' & Em1 & Hnew & Hother).
  exists s'. split; [exact Hstop|]. split; [exact Hsys'|].
  do 4 (split; [now rewrite Es'|]). split; [|split].
  - unfold stop_pending. rewrite Em1. simpl.
    apply Exists_exists. exists (next_addr s). split.
    + destruct (th_pc th); simpl; rewrite ?app_comm_cons;
        apply elem_of_app; right; apply list_elem_of_here.
    + unfold record_at. rewrite Hnew. unfold clears.
      apply bool_decide_eq_true_2. now split.
  - rewrite (pending_mailbox _ _ _ _ Em1), (pending_mailbox _ _ _ _ Em).
    simpl. rewrite length_app. simpl. lia.
  - intros t2 th2 H2 Hne Hpc2.
    pose proof Hsys as (Hb & Hok & _).
    pose proof (map_Forall_lookup_1 _ _ _ _ Hok Ht) as [E|(Hinv & _)];
      [contradiction|].
    destruct (worker_inv_inv _ _ Hinv)
      as (q' & c' & n & nm & _ & Em' & _ & _ & En & _).
    rewrite Em in Em'. injection Em' as <- <-.
    destruct (others_unchanged s s' t th t2 th2 Hsys Ht H2 Hne Hpc2)
      as (Hw & _ & Hm & Hag).
    + intros j. rewrite Es'. now repeat split.
    + intros x Hx Hlt. apply Hother; [|lia]. intros ->. apply Hx.
      rewrite (footprint_live s th q c n Hpc Em En). apply list_elem_of_here.
    + split; [exact Hw|]. split; [exact Hm|exact Hag].
Qed.

(** A live thread is the thread of its slot. *)
Lemma live_thread_of_slot s t th :
  system_inv s -> threads s !! t = Some th -> th_pc th <> Exited ->
  worker_inv s th /\ tid (slot s (th_arg th)) = t.
Proof.
  intros (_ & Hok & _) Ht Hpc.
  pose proof (map_Forall_lookup_1 _ _ _ _ Hok Ht) as [E|H]; [contradiction|].
  exact H.
Qed.

Lemma table_indices_spec i : i ∈ table_indices <-> in_table i.
Proof.
  unfold table_indices, in_table. rewrite elem_of_seqZ. lia.
Qed.

Lemma steps_to_exit_bound s th :
  (steps_to_exit s th <= length (pending s (th_arg th)) + 3)%nat.
Proof.
  unfold steps_to_exit. destruct (th_pc th); [lia| |lia].
  destruct (running (slot s (th_arg th))); lia.
Qed.

(** ** Status of enqueue and stop *)

(** An enqueue returns -1 exactly when the handle is above the table or
    the record cannot be allocated.  The status of [con_queue_push] is
    dropped, so no failure of the push can make it return -1.  Handle 0 is
    not among the handles rejected. *)
Lemma enqueue_failure_iff h cb a1 a2 ok s :
  (exists s', event_thread_enqueue_event h cb a1 a2 ok s = Ret (-1) s') <->
  (h > MAX_EVENT_THREADS \/ ok = false).
Proof.
  split.
  - intros (s' & H). apply enqueue_status in H as [(_ & _ & H)|(H & _)].
    + exact H.
    + discriminate.
  - intros [H|H].
    + exists s. now apply enqueue_above_table.
    + destruct (decide (h > MAX_EVENT_THREADS)) as [Hh|Hh].
      * exists s. now apply enqueue_above_table.
      * exists s. subst ok. apply enqueue_calloc_failure. lia.
Qed.

(** A stop returns -1 exactly when the handle is above the table or the
    stop record cannot be allocated. *)
Lemma stop_failure_iff h ok s :
  (exists s', event_thread_stop h ok s = Ret (-1) s') <->
  (h > MAX_EVENT_THREADS \/ ok = false).
Proof.
  unfold event_thread_stop, get_event_thread.
  destruct (decide (h > MAX_EVENT_THREADS)) as [Hh|Hh].
  - split; [now left|]. intros _. now exists s.
  - split.
    + intros (s' & H). apply bind_Ret_inv in H as (r & s1 & Henq & H).
      apply enqueue_status in Henq as [(_ & _ & Hc)|(-> & _ & _)];
        [exact Hc|].
      rewrite decide_True in H by reflexivity.
      apply bind_Ret_inv in H as (? & ? & _ & H).
      apply bind_Ret_inv in H as (? & ? & _ & H). discriminate.
    + intros [H | ->]; [contradiction|].
      rewrite (bind_Ret _ _ _ _ _
                 (enqueue_calloc_failure h _ _ _ s ltac:(lia))).
      rewrite decide_False by discriminate. now exists s.
Qed.

(** ** Termination of a worker that was told to stop, under any schedule *)

Lemma step_exited t th s :
  threads s !! t = Some th -> th_pc th = Exited ->
  event_thread_loop_step t s = Ret tt s.
Proof.
  intros Ht Epc. unfold event_thread_loop_step. now rewrite Ht, Epc.
Qed.

Lemma join_exited sch t th s :
  threads s !! t = Some th -> th_pc th = Exited ->
  pthread_join sch t s = Ret tt (with_joined (joined s ++ [t]) s).
Proof.
  intros Ht Epc. destruct sch; simpl; now rewrite Ht, Epc.
Qed.

Lemma steps_to_exit_pos s th :
  th_pc th <> Exited -> (0 < steps_to_exit s th)%nat.
Proof.
  intros Hpc. unfold steps_to_exit. destruct (th_pc th); [lia| |contradiction].
  destruct (running (slot s (th_arg th))); lia.
Qed.

(** A join on a thread that will stop returns, with the thread exited,
    under every schedule that runs threads of the system and gives the
    joined thread the steps it needs; the steps of the other threads in
    between do not matter. *)
Lemma join_terminates sch :
  forall s t th,
    system_inv s -> threads s !! t = Some th -> will_stop s th ->
    Forall (fun t' => is_Some (threads s !! t')) sch ->
    (steps_to_exit s th <= turns t sch)%nat ->
    exists s' th',
      pthread_join sch t s = Ret tt s' /\ system_inv s' /\
      threads s' !! t = Some th' /\ th_pc th' = Exited /\
      th_arg th' = th_arg th /\ same_fields s s' /\
      joined s' = joined s ++ [t] /\ signals s' = signals s /\
      next_addr s' = next_addr s.
Proof.
  induction sch as [|t' sch IH]; intros s t th Hsys Ht Hws Hall Hturns.
  - destruct (decide (th_pc th = Exited)) as [Epc|Hpc].
    + rewrite (join_exited _ _ _ _ Ht Epc).
      exists (with_joined (joined s ++ [t]) s), th.
      split; [reflexivity|]. split; [exact Hsys|]. split; [exact Ht|].
      split; [exact Epc|]. split; [reflexivity|].
      split; [intros j; now repeat split|]. now repeat split.
    + pose proof (steps_to_exit_pos s th Hpc). unfold turns in Hturns.
      simpl in Hturns. lia.
  - destruct (decide (th_pc th = Exited)) as [Epc|Hpc].
    { rewrite (join_exited _ _ _ _ Ht Epc).
      exists (with_joined (joined s ++ [t]) s), th.
      split; [reflexivity|]. split; [exact Hsys|]. split; [exact Ht|].
      split; [exact Epc|]. split; [reflexivity|].
      split; [intros j; now repeat split|]. now repeat split. }
    apply Forall_cons in Hall as ((th2 & Ht2) & Hall).
    assert (Hjoin : forall s1,
              event_thread_loop_step t' s = Ret tt s1 ->
              pthread_join (t' :: sch) t s = pthread_join sch t s1).
    { intros s1 Hstep. simpl. rewrite Ht.
      destruct (th_pc th); [| |contradiction];
        now rewrite (bind_Ret _ _ _ _ _ Hstep). }
    destruct (decide (th_pc th2 = Exited)) as [Epc2|Hpc2].
    { (* a step of a thread that has exited changes nothing *)
      assert (Hne : t' <> t) by (intros ->; congruence).
      rewrite (Hjoin s (step_exited _ _ _ Ht2 Epc2)).
      apply (IH s t th Hsys Ht Hws Hall).
      unfold turns in *. now rewrite filter_cons_False in Hturns. }
    destruct (step_system_inv s t' th2 Hsys Ht2 Hpc2)
      as (q & c & n & s1 & th1 & Em & En & Hstep & Heff & Hsys1 & Hsame & Hsf
          & Hth1 & Harg1 & Hsig1 & Hrun1 & Hframe1 & Hsub1).
    rewrite (Hjoin s1 Hstep).
    assert (Hall1 : Forall (fun t0 => is_Some (threads s1 !! t0)) sch).
    { eapply Forall_impl; [exact Hall|]. simpl. intros x Hx. rewrite Hth1.
      destruct (decide (x = t')) as [->|Hxne].
      - rewrite lookup_insert_eq. eauto.
      - now rewrite lookup_insert_ne. }
    destruct Hsame as (Hna & Hsg & Hj & _).
    destruct (live_thread_of_slot s t th Hsys Ht Hpc) as (Hinv & Htid).
    destruct (decide (t' = t)) as [->|Hne].
    + (* a step of the joined thread *)
      assert (th2 = th) by congruence. subst th2.
      assert (Ht1 : threads s1 !! t = Some th1).
      { rewrite Hth1. apply lookup_insert_eq. }
      destruct (step_progress s t th q c n s1 th1 Ht Hinv Em En Heff Hsf Ht1 Hws)
        as (Hws1 & Hlt).
      destruct (IH s1 t th1 Hsys1 Ht1 Hws1 Hall1) as
        (s' & th' & Hjoin' & Hsys' & Ht' & Epc' & Harg' & Hsf' & Hj' & Hsg'
         & Hna').
      { unfold turns in *. rewrite filter_cons_True in Hturns by reflexivity.
        simpl in Hturns. lia. }
      exists s', th'. split; [exact Hjoin'|]. split; [exact Hsys'|].
      split; [exact Ht'|]. split; [exact Epc'|]. split; [congruence|].
      split; [exact (same_fields_trans _ _ _ Hsf Hsf')|].
      split; [congruence|]. split; congruence.
    + (* a step of another thread *)
      assert (Ht1 : threads s1 !! t = Some th).
      { rewrite Hth1. now rewrite lookup_insert_ne. }
      destruct (live_thread_of_slot s t' th2 Hsys Ht2 Hpc2) as (_ & Htid2).
      assert (Hargne : th_arg th <> th_arg th2).
      { intros E. apply Hne. rewrite <- Htid2, <- Htid. now rewrite E. }
      destruct (others_unchanged s s1 t' th2 t th Hsys Ht2 Ht) as
        (_ & _ & Hm & Hag); [congruence|exact Hpc|exact Hsf| |].
      { intros x Hx _. now apply Hframe1. }
      destruct (will_stop_agree s s1 th Hinv Hpc Hm (Hrun1 _ Hargne) Hag)
        as (_ & Hws1 & Hst1).
      destruct (IH s1 t th Hsys1 Ht1 (Hws1 Hws) Hall1) as
        (s' & th' & Hjoin' & Hsys' & Ht' & Epc' & Harg' & Hsf' & Hj' & Hsg'
         & Hna').
      { unfold turns in *. rewrite filter_cons_False in Hturns by congruence.
        lia. }
      exists s', th'. split; [exact Hjoin'|]. split; [exact Hsys'|].
      split; [exact Ht'|]. split; [exact Epc'|]. split; [exact Harg'|].
      split; [exact (same_fields_trans _ _ _ Hsf Hsf')|].
      split; [congruence|]. split; congruence.
Qed.


(** ** Shutdown and wait *)

(** X5: a stop of a live worker that is sent while no worker has got
    past its call of [signal] kills the process: the stop record is
    queued, and the signal of [pthread_kill] meets the default action of
    SIGUSR1, since the handler is installed by the workers only. *)
Lemma stop_without_handler s t th :
  system_inv s -> threads s !! t = Some th -> th_pc th <> Exited ->
  ~ handler_installed s -> room s (th_arg th) ->
  event_thread_stop (th_arg th + 1) true s = Fault (KilledBySignal t).
Proof.
  intros Hsys Ht Hpc Hhandler Hroom.
  pose proof Hsys as (Hb & Hok & _).
  destruct (live_thread_of_slot s t th Hsys Ht Hpc) as (Hinv & Htid).
  destruct (enqueue_inv s th (th_arg th + 1) fn_event_thread_stop_cb
              (p_thread (th_arg th)) p_null Hinv Hpc Hb ltac:(lia) Hroom)
    as (q & c & n & Em & En & Henq & _).
  { replace (th_arg th + 1 - 1) with (th_arg th) by lia. apply stop_record_ok. }
  destruct (worker_inv_inv _ _ Hinv) as (_ & _ & _ & _ & Hi & _).
  unfold event_thread_stop.
  rewrite get_event_thread_valid
    by (unfold in_table, MAX_EVENT_THREADS in *; lia).
  replace (th_arg th + 1 - 1) with (th_arg th) by lia.
  rewrite (bind_Ret _ _ _ _ _ Henq). rewrite decide_True by reflexivity.
  rewrite (bind_Ret _ _ _ _ _ (slot_load_in _ _ Hi)).
  match goal with
  | |- context [slot ?s1 (th_arg th)] =>
      change (slot s1 (th_arg th)) with (slot s (th_arg th))
  end.
  rewrite Htid. unfold bind.
  match goal with
  | |- context [pthread_kill t ?s1] =>
      now rewrite (pthread_kill_no_handler t th s1 Ht Hhandler)
  end.
Qed.

(** An enqueue on a handle of the table whose slot has no live mailbox
    goes through a null or dangling pointer: the slot was never used, its
    creation failed, or its worker has exited and freed the mailbox. *)
Lemma enqueue_dead_mailbox h cb a1 a2 s :
  1 <= h <= MAX_EVENT_THREADS -> mailbox s (h - 1) = None ->
  event_thread_enqueue_event h cb a1 a2 true s =
  Fault (match events (slot s (h - 1)) with
         | Some q => BadAccess q
         | None => NullDeref
         end).
Proof.
  intros Hh Em. unfold event_thread_enqueue_event.
  rewrite get_event_thread_valid by assumption.
  unfold alloc at 1. unfold bind at 1.
  erewrite bind_Ret; [|eapply store_live; simpl; apply lookup_insert_eq].
  erewrite bind_Ret; [|apply slot_load_in; unfold in_table; lia].
  match goal with
  | |- context [slot ?s1 (h - 1)] =>
      change (slot s1 (h - 1)) with (slot s (h - 1))
  end.
  unfold mailbox in Em.
  destruct (events (slot s (h - 1))) as [q|]; [|reflexivity].
  unfold bind, queue_push, bind, load_queue. simpl.
  rewrite insert_insert_eq.
  destruct (decide (q = next_addr s)) as [->|Hne].
  - now rewrite lookup_insert_eq.
  - rewrite lookup_insert_ne by congruence.
    destruct (heap s !! q) as [[| |]|]; try reflexivity. discriminate.
Qed.

(** X7: a creation that fails returns 0 but has taken a slot of the
    table for good: the counter has advanced, the slot is left marked
    running although no thread was started, and it has no live mailbox
    (the pointer is null, or dangling after the [free] of the error
    path). *)
Lemma create_failure_leaves_running nm cb a1 a2 env s :
  in_table (g_thread_cnt s) -> heap_bounded s ->
  mailbox s (g_thread_cnt s) = None ->
  strdup_ok env && calloc_queue_ok env && pthread_create_ok env = false ->
  exists s', event_thread_create nm cb a1 a2 env s = Ret 0 s' /\
    g_thread_cnt s' = g_thread_cnt s + 1 /\
    running (slot s' (g_thread_cnt s)) = true /\
    mailbox s' (g_thread_cnt s) = None /\
    threads s' = threads s.
Proof.
  intros Hi Hb Em E.
  assert (H0 : heap s !! next_addr s = None)
    by (apply (heap_bounded_fresh _ _ Hb); lia).
  assert (H1 : heap s !! S (next_addr s) = None)
    by (apply (heap_bounded_fresh _ _ Hb); lia).
  destruct (strdup_ok env) eqn:E1; simpl in *.
  - destruct (calloc_queue_ok env) eqn:E2; simpl in *.
    + rewrite (create_spawn_failure _ _ _ _ _ _ Hi Hb E1 E2 E).
      eexists. split; [reflexivity|]. split; [reflexivity|].
      unfold mailbox, slot. simpl. rewrite lookup_insert_eq. simpl.
      split; [reflexivity|]. split; [|reflexivity].
      destruct (calloc_event_ok env).
      * rewrite lookup_insert_ne by lia. now rewrite H1.
      * now rewrite H1.
    + rewrite (create_queue_failure _ _ _ _ _ _ Hi H0 E1 E2).
      eexists. split; [reflexivity|]. split; [reflexivity|].
      unfold mailbox, slot. simpl. rewrite lookup_insert_eq. simpl.
      now repeat split.
  - rewrite (create_strdup_failure _ _ _ _ _ _ Hi E1).
    eexists. split; [reflexivity|]. split; [reflexivity|].
    unfold mailbox, slot in *. simpl. rewrite lookup_insert_eq. simpl.
    split; [reflexivity|]. split; [exact Em|reflexivity].
Qed.

(** The shutdown that follows a creation whose [pthread_create] failed
    calls [event_thread_stop] on the slot the creation left marked
    running, which enqueues through the pointer to the mailbox that the
    creation has freed. *)
Lemma shutdown_after_failed_creation :
  exists s1,
    event_thread_create "probe" (fn_extern 0) (p_extern 0) p_null no_thread
      init_state = Ret 0 s1 /\
    running (slot s1 0) = true /\
    event_thread_lib_shutdown (fun _ => true) idle idle s1 =
    Fault (BadAccess 2).
Proof.
  eexists. split; [vm_compute; reflexivity|].
  split; vm_compute; reflexivity.
Qed.

(** The shutdown that follows a creation at once, before the new worker
    has made its call of [signal], kills the process. *)
Lemma shutdown_before_handler :
  event_thread_lib_shutdown (fun _ => true) idle idle probe_created =
  Fault (KilledBySignal 1).
Proof. vm_compute. reflexivity. Qed.

(** C6 (failing input): two workers are running, the first in its loop,
    the second not yet.  The scan of [event_thread_lib_shutdown] stops
    both, and both are marked running when [event_thread_lib_wait] is
    called.  While the caller is blocked in the join of the first thread,
    the second worker runs, calls its stop record and clears its own
    [running] flag; the scan then reads the flag of its slot as cleared
    and does not join it.  [event_thread_lib_wait], and with it
    [event_thread_lib_shutdown], returns with one thread joined, while the
    second thread is still in its loop and owns its mailbox and its
    name. *)
Theorem wait_skips_worker_that_cleared_its_flag :
  exists s1 s',
    shutdown_loop (fun _ => true) idle table_indices two_workers = Ret tt s1 /\
    running (slot s1 0) = true /\ running (slot s1 1) = true /\
    tid (slot s1 0) = 1%nat /\ tid (slot s1 1) = 2%nat /\
    signals s1 = [1%nat; 2%nat] /\
    event_thread_lib_wait overtaking s1 = Ret tt s' /\
    event_thread_lib_shutdown (fun _ => true) idle overtaking two_workers
    = Ret tt s' /\
    joined s' = [1%nat] /\
    threads s' !! 2%nat =
      Some {| th_arg := 1; th_signal_ok := true; th_pc := InLoop 6 |} /\
    mailbox s' 1 = Some (5%nat, {| size := 32; data := [] |}).
Proof.
  eexists. eexists. split; [vm_compute; reflexivity|].
  do 5 (split; [vm_compute; reflexivity|]).
  split; [vm_compute; reflexivity|].
  split; [vm_compute; reflexivity|].
  split; vm_compute; [reflexivity|]. split; reflexivity.
Qed.

(** * Further properties of event_thread.c *)

(** ** Status and effect of an enqueue *)

(** X1: [event_thread_enqueue_event] returns -1 exactly when the handle is
    above [MAX_EVENT_THREADS] or the record cannot be allocated, and a call
    that fails leaves the program state as it found it: nothing is
    allocated, queued or written. *)
Theorem enqueue_fails_without_effect h cb a1 a2 ok s :
  ((exists s', event_thread_enqueue_event h cb a1 a2 ok s = Ret (-1) s') <->
   (h > MAX_EVENT_THREADS \/ ok = false)) /\
  ((h > MAX_EVENT_THREADS \/ ok = false) <->
   event_thread_enqueue_event h cb a1 a2 ok s = Ret (-1) s).
Proof.
  split; [apply enqueue_failure_iff|]. split.
  - intros [H|H].
    + now apply enqueue_above_table.
    + destruct (decide (h > MAX_EVENT_THREADS)) as [Hh|Hh].
      * now apply enqueue_above_table.
      * subst ok. apply enqueue_calloc_failure. lia.
  - intros H. apply enqueue_status in H as [(_ & _ & H)|(H & _)];
      [exact H|discriminate].
Qed.

(** X2: an enqueue on a handle in 1..32 whose slot has a live mailbox
    that is not full returns 0: the record is allocated at a fresh address
    with the callback and the two arguments given, it goes behind the
    records pending, and the slots, the threads, the calls made and the
    frees are left as they were. *)
Theorem enqueue_appends_at_tail h cb a1 a2 q c s :
  1 <= h <= MAX_EVENT_THREADS ->
  mailbox s (h - 1) = Some (q, c) -> has_room c ->
  heap_bounded s ->
  exists s',
    event_thread_enqueue_event h cb a1 a2 true s = Ret 0 s' /\
    pending s' (h - 1) = pending s (h - 1) ++ [next_addr s] /\
    heap s !! next_addr s = None /\
    heap s' !! next_addr s =
      Some (OEvent {| callback := cb; arg1 := a1; arg2 := a2 |}) /\
    (forall x, x <> q -> x <> next_addr s -> heap s' !! x = heap s !! x) /\
    g_threads s' = g_threads s /\ threads s' = threads s /\
    trace s' = trace s /\ freed s' = freed s /\
    g_thread_cnt s' = g_thread_cnt s.
Proof.
  intros Hh Em Hroom Hb. pose proof Em as Em0.
  apply mailbox_Some in Em as (Hq & Hc).
  assert (Hfresh : heap s !! next_addr s = None)
    by (apply (heap_bounded_fresh _ _ Hb); lia).
  assert (Hne : next_addr s <> q) by (intros E; rewrite E in Hfresh; congruence).
  eexists. split; [now apply (enqueue_live h cb a1 a2 q c s)|].
  split.
  { rewrite (pending_mailbox _ _ _ _ Em0).
    unfold pending. simpl.
    change (slot _ (h - 1)) with (slot s (h - 1)). rewrite Hq.
    now rewrite lookup_insert_eq. }
  split; [exact Hfresh|].
  split.
  { simpl. rewrite lookup_insert_ne by congruence. apply lookup_insert_eq. }
  split.
  { intros x Hx1 Hx2. simpl. now rewrite !lookup_insert_ne by congruence. }
  now repeat split.
Qed.

Lemma enqueue_appends_at_tail_witness :
  exists s',
    event_thread_enqueue_event 1 (fn_extern 7) (p_extern 7) p_null true
      probe_loaded = Ret 0 s' /\
    pending s' 0 = [4%nat; 5%nat; 6%nat; 7%nat].
Proof.
  destruct (enqueue_appends_at_tail 1 (fn_extern 7) (p_extern 7) p_null 2%nat
              {| size := 32; data := [4%nat; 5%nat; 6%nat] |} probe_loaded)
    as (s' & H & Hp & _).
  - unfold MAX_EVENT_THREADS. lia.
  - vm_compute. reflexivity.
  - apply (bool_decide_unpack _). vm_compute. reflexivity.
  - apply (bool_decide_unpack _). vm_compute. reflexivity.
  - exists s'. split; [exact H|]. change (1 - 1) with 0 in Hp. rewrite Hp.
    vm_compute. reflexivity.
Defined.

(** ** Status and effect of a stop *)

(** X3: [event_thread_stop] returns -1 exactly when the handle is above
    [MAX_EVENT_THREADS] or the stop record cannot be allocated, and a stop
    that fails leaves the state as it found it: no record is queued and no
    signal is sent. *)
Theorem stop_fails_without_effect h ok s :
  ((exists s', event_thread_stop h ok s = Ret (-1) s') <->
   (h > MAX_EVENT_THREADS \/ ok = false)) /\
  ((h > MAX_EVENT_THREADS \/ ok = false) <->
   event_thread_stop h ok s = Ret (-1) s).
Proof.
  split; [apply stop_failure_iff|]. split.
  - intros H. unfold event_thread_stop, get_event_thread.
    destruct (decide (h > MAX_EVENT_THREADS)) as [Hh|Hh]; [reflexivity|].
    destruct H as [H | ->]; [contradiction|].
    rewrite (bind_Ret _ _ _ _ _
               (enqueue_calloc_failure h _ _ _ s ltac:(lia))).
    now rewrite decide_False by discriminate.
  - intros H. apply (stop_failure_iff h ok s). now exists s.
Qed.

(** X4: a stop of a worker whose thread has not exited is asynchronous.
    With the handler of SIGUSR1 installed and room in the mailbox, it
    returns 0 after it has put a record with [event_thread_stop_cb] and
    the address of the slot behind the records pending in the mailbox, and
    sent the signal to the thread of the slot; the [running] flag and the
    rest of the table are as before when it returns, and nothing was
    called or freed. *)
Theorem stop_queues_record_and_signals s t th :
  system_inv s -> threads s !! t = Some th -> th_pc th <> Exited ->
  handler_installed s -> room s (th_arg th) ->
  exists s',
    event_thread_stop (th_arg th + 1) true s = Ret 0 s' /\
    pending s' (th_arg th) = pending s (th_arg th) ++ [next_addr s] /\
    heap s' !! next_addr s =
      Some (OEvent {| callback := fn_event_thread_stop_cb;
                      arg1 := p_thread (th_arg th); arg2 := p_null |}) /\
    signals s' = signals s ++ [t] /\
    g_threads s' = g_threads s /\ threads s' = threads s /\
    trace s' = trace s /\ freed s' = freed s /\
    system_inv s'.
Proof.
  intros Hsys Ht Hpc Hh Hroom.
  destruct (stop_live s t th Hsys Ht Hpc Hh Hroom)
    as (q & c & s' & Em & Es & Hstop & Hsys' & Em' & Hrec & _).
  exists s'. split; [exact Hstop|].
  split.
  { rewrite (pending_mailbox _ _ _ _ Em), (pending_mailbox _ _ _ _ Em').
    reflexivity. }
  split; [exact Hrec|]. subst s'.
  repeat (split; [reflexivity|]). exact Hsys'.
Qed.

Lemma stop_queues_record_and_signals_witness :
  exists s',
    event_thread_stop 1 true probe_loaded = Ret 0 s' /\
    pending s' 0 = [4%nat; 5%nat; 6%nat; 7%nat] /\ signals s' = [1%nat].
Proof.
  destruct (stop_queues_record_and_signals probe_loaded 1%nat
              {| th_arg := 0; th_signal_ok := true; th_pc := InLoop 3 |})
    as (s' & H & Hp & _ & Hs & _).
  - apply (bool_decide_unpack _). vm_compute. reflexivity.
  - vm_compute. reflexivity.
  - discriminate.
  - apply (bool_decide_unpack _). vm_compute. reflexivity.
  - apply (@bool_decide_unpack _ (room_dec probe_loaded 0)).
    vm_compute. reflexivity.
  - exists s'. split; [exact H|]. change (th_arg _) with 0 in Hp.
    rewrite Hp, Hs. vm_compute. split; reflexivity.
Defined.

(** X6: a call on a handle of the table whose slot has no live mailbox
    is not rejected: [get_event_thread] checks the range only, so an
    enqueue and a stop allocate their record and then go through the null
    or dangling pointer the slot holds.  This is the case of a handle
    that was never returned, of a slot left by a creation that failed,
    and of a worker that has exited. *)
Theorem calls_on_slot_without_mailbox h cb a1 a2 s :
  1 <= h <= MAX_EVENT_THREADS -> mailbox s (h - 1) = None ->
  event_thread_enqueue_event h cb a1 a2 true s =
    Fault (match events (slot s (h - 1)) with
           | Some q => BadAccess q
           | None => NullDeref
           end) /\
  event_thread_stop h true s =
    Fault (match events (slot s (h - 1)) with
           | Some q => BadAccess q
           | None => NullDeref
           end).
Proof.
  intros Hh Em. split; [now apply enqueue_dead_mailbox|].
  unfold event_thread_stop. rewrite get_event_thread_valid by exact Hh.
  unfold bind. now rewrite (enqueue_dead_mailbox _ _ _ _ _ Hh Em).
Qed.

Lemma calls_on_slot_without_mailbox_witness :
  event_thread_enqueue_event 5 (fn_extern 1) p_null p_null true probe_created
    = Fault NullDeref /\
  event_thread_stop 5 true probe_created = Fault NullDeref.
Proof.
  apply (calls_on_slot_without_mailbox 5 (fn_extern 1) p_null p_null
           probe_created).
  - unfold MAX_EVENT_THREADS. lia.
  - vm_compute. reflexivity.
Defined.

Lemma stop_without_handler_witness :
  event_thread_stop 1 true probe_created = Fault (KilledBySignal 1).
Proof.
  apply (stop_without_handler probe_created 1%nat
           {| th_arg := 0; th_signal_ok := true; th_pc := AtStart |}).
  - apply (bool_decide_unpack _). vm_compute. reflexivity.
  - vm_compute. reflexivity.
  - discriminate.
  - apply (@bool_decide_unpack _ (not_dec (handler_installed_dec probe_created))).
    vm_compute. reflexivity.
  - apply (@bool_decide_unpack _ (room_dec probe_created 0)).
    vm_compute. reflexivity.
Defined.

Lemma create_failure_leaves_running_witness :
  exists s', event_thread_create "probe" (fn_extern 0) p_null p_null no_thread
               probe_created = Ret 0 s' /\
    g_thread_cnt s' = 2 /\ running (slot s' 1) = true /\
    mailbox s' 1 = None.
Proof.
  destruct (create_failure_leaves_running "probe" (fn_extern 0) p_null p_null
              no_thread probe_created)
    as (s' & H & Hc & Hr & Hm & _).
  - vm_compute. split; [discriminate|reflexivity].
  - apply (bool_decide_unpack _). vm_compute. reflexivity.
  - vm_compute. reflexivity.
  - reflexivity.
  - exists s'. split; [exact H|]. split; [exact Hc|]. split; [exact Hr|exact Hm].
Defined.


(** What a step adds to the two logs and takes from the heap. *)
Lemma step_effect_logs s t th q c n s' :
  step_effect s t th q c n s' ->
  (exists T, trace s' = trace s ++ T) /\ (exists F, freed s' = freed s ++ F).
Proof.
  intros [u rest Epc Hsig Hd Hth Hh Hg Htr Hfr
         |u ue Epc Hrun Hd Hue Hth Hh _ Hr Htr Hfr
         |u ue a e rest Epc Hrun Hd Hue Ha Hth Hh _ Hr Htr Hfr
         |uo Hkind Hth Hg Htr Hfr Hgone Hrest].
  - split; [exists []|exists []]; rewrite app_nil_r; assumption.
  - split; [eexists; exact Htr|exists []; rewrite app_nil_r; assumption].
  - split; eexists; eassumption.
  - split; [exists []; rewrite app_nil_r; assumption|eexists; exact Hfr].
Qed.

(** X10: whatever the order in which the scheduler runs them, the steps of
    the worker threads of a well-formed system all return: no step reads
    or frees an address that is not live, none calls a null pointer.  The
    system stays well-formed, nothing is allocated, the two logs only
    grow, and the handle counter, the signals, the joins and the pointer
    fields of the table are left as they were. *)
Theorem worker_steps_keep_invariant l :
  forall s,
    system_inv s -> Forall (fun t => is_Some (threads s !! t)) l ->
    exists s',
      run_workers l s = Ret tt s' /\ system_inv s' /\
      same_rest s s' /\ same_fields s s' /\
      (forall x, is_Some (heap s' !! x) -> is_Some (heap s !! x)) /\
      (exists T, trace s' = trace s ++ T) /\
      (exists F, freed s' = freed s ++ F).
Proof.
  induction l as [|t l IH]; intros s Hsys Hall.
  - exists s. split; [reflexivity|]. split; [exact Hsys|].
    split; [now repeat split|]. split; [intros j; now repeat split|].
    split; [auto|]. split; exists []; now rewrite app_nil_r.
  - apply Forall_cons in Hall as ((th & Ht) & Hall). simpl.
    destruct (decide (th_pc th = Exited)) as [Epc|Hpc].
    { rewrite (bind_Ret _ _ _ _ _ (step_exited _ _ _ Ht Epc)).
      now apply IH. }
    destruct (step_system_inv s t th Hsys Ht Hpc)
      as (q & c & n & s1 & th1 & Em & En & Hstep & Heff & Hsys1 & Hsame & Hsf
          & Hth1 & _).
    pose proof Hsys as (_ & Hok & _).
    pose proof (map_Forall_lookup_1 _ _ _ _ Hok Ht) as [E|(Hinv & _)];
      [contradiction|].
    destruct (step_effect_inv s t th q c n s1 Ht Hinv Em En Heff)
      as (Hdom & _).
    destruct (step_effect_logs _ _ _ _ _ _ _ Heff) as ((T1 & HT1) & (F1 & HF1)).
    rewrite (bind_Ret _ _ _ _ _ Hstep).
    destruct (IH s1 Hsys1) as
      (s' & Hrun & Hsys' & Hsame' & Hsf' & Hdom' & (T & HT) & (F & HF)).
    { eapply Forall_impl; [exact Hall|]. simpl. intros x Hx. rewrite Hth1.
      destruct (decide (x = t)) as [->|Hxne].
      - rewrite lookup_insert_eq. eauto.
      - now rewrite lookup_insert_ne. }
    exists s'. split; [exact Hrun|]. split; [exact Hsys'|].
    split.
    { destruct Hsame as (? & ? & ? & ? & ?), Hsame' as (? & ? & ? & ? & ?).
      repeat split; congruence. }
    split; [exact (same_fields_trans _ _ _ Hsf Hsf')|].
    split; [auto|].
    split; [exists (T1 ++ T); now rewrite HT, HT1, app_assoc
           |exists (F1 ++ F); now rewrite HF, HF1, app_assoc].
Qed.

Lemma worker_steps_keep_invariant_witness :
  exists s',
    run_workers [2; 1; 2; 1; 1]%nat two_workers = Ret tt s' /\
    system_inv s' /\ trace s' <> [].
Proof.
  destruct (worker_steps_keep_invariant [2; 1; 2; 1; 1]%nat two_workers)
    as (s' & Hrun & Hsys & _).
  - apply (bool_decide_unpack _). vm_compute. reflexivity.
  - apply (bool_decide_unpack _). vm_compute. reflexivity.
  - exists s'. split; [exact Hrun|]. split; [exact Hsys|].
    assert (E : run_workers [2; 1; 2; 1; 1]%nat two_workers = Ret tt s')
      by exact Hrun.
    vm_compute in E. injection E as <-. discriminate.
Defined.

(** X11: a worker whose call of [signal] fails gives up at once: its first
    step calls nothing, not even the update callback, frees the records of
    the mailbox, the mailbox and the name, and ends the thread.  The
    [running] flag of its slot stays set and the slot keeps the two
    pointers that were freed. *)
Theorem signal_failure_ends_worker s t th :
  system_inv s -> threads s !! t = Some th ->
  th_pc th = AtStart -> th_signal_ok th = false ->
  exists q c n s',
    mailbox s (th_arg th) = Some (q, c) /\
    name_live s (th_arg th) = Some n /\
    event_thread_loop_step t s = Ret tt s' /\
    threads s' !! t = Some (at_pc th Exited) /\
    trace s' = trace s /\
    freed s' = freed s ++ data c ++ [q; n] /\
    slot s' (th_arg th) = slot s (th_arg th) /\
    mailbox s' (th_arg th) = None /\ name_live s' (th_arg th) = None.
Proof.
  intros Hsys Ht Epc Hsig.
  assert (Hpc : th_pc th <> Exited) by (rewrite Epc; discriminate).
  destruct (step_system_inv s t th Hsys Ht Hpc)
    as (q & c & n & s' & th' & Em & En & Hstep & Heff & _).
  exists q, c, n, s'. split; [exact Em|]. split; [exact En|].
  split; [exact Hstep|].
  destruct Heff as [u rest Epc' Hsig' Hd Hth Hh Hg Htr Hfr
                   |u ue Epc' Hrun Hd Hue Hth Hh _ Hr Htr Hfr
                   |u ue a e rest Epc' Hrun Hd Hue Ha Hth Hh _ Hr Htr Hfr
                   |uo Hkind Hth Hg Htr Hfr Hgone Hrest];
    try congruence.
  rewrite Epc in Hkind. destruct Hkind as (-> & _).
  split; [rewrite Hth; apply lookup_insert_eq|].
  split; [exact Htr|]. split; [exact Hfr|].
  assert (Hslot : slot s' (th_arg th) = slot s (th_arg th))
    by (unfold slot; now rewrite Hg).
  split; [exact Hslot|].
  apply mailbox_Some in Em as (Hq & _).
  apply name_live_Some in En as (Hn & _).
  split.
  - unfold mailbox. rewrite Hslot, Hq.
    rewrite Hgone; [reflexivity|]. simpl. apply list_elem_of_here.
  - unfold name_live. rewrite Hslot, Hn.
    rewrite Hgone; [reflexivity|]. simpl.
    apply list_elem_of_further, list_elem_of_here.
Qed.

Lemma signal_failure_ends_worker_witness :
  exists s',
    event_thread_loop_step 1
      (after (event_thread_create "probe" (fn_extern 0) (p_extern 0) p_null deaf)
             init_state) = Ret tt s' /\
    trace s' = [] /\ freed s' = [3%nat; 2%nat; 1%nat] /\
    running (slot s' 0) = true.
Proof.
  destruct (signal_failure_ends_worker
              (after (event_thread_create "probe" (fn_extern 0) (p_extern 0)
                        p_null deaf) init_state) 1%nat
              {| th_arg := 0; th_signal_ok := false; th_pc := AtStart |})
    as (q & c & n & s' & _ & _ & Hstep & _).
  - apply (bool_decide_unpack _). vm_compute. reflexivity.
  - vm_compute. reflexivity.
  - reflexivity.
  - reflexivity.
  - exists s'. split; [exact Hstep|].
    assert (E : event_thread_loop_step 1
      (after (event_thread_create "probe" (fn_extern 0) (p_extern 0) p_null deaf)
             init_state) = Ret tt s') by exact Hstep.
    vm_compute in E. injection E as <-. repeat split; reflexivity.
Defined.



(** A worker that was created well and is not stopped stays in its loop:
    a join on its thread does not return, however many steps the thread
    is given. *)
Lemma fifo_inv_alive t i u tr0 P s :
  fifo_inv t i u tr0 P s ->
  running (slot s i) = true /\
  exists th, threads s !! t = Some th /\ th_arg th = i /\ th_pc th <> Exited.
Proof.
  intros (Hb & Hrun & th & q & c & T & evs & Ht & Harg & Hsig & Hinv & Em
          & Hsz & Hu & Hns & Htr & HP & Hpc).
  split; [exact Hrun|]. exists th. split; [exact Ht|]. split; [exact Harg|].
  intros E. now rewrite E in Hpc.
Qed.

Lemma fifo_inv_join_blocks t i u tr0 P n :
  forall s, fifo_inv t i u tr0 P s ->
            pthread_join (replicate n t) t s = Blocked.
Proof.
  induction n as [|n IH]; intros s Hinv;
    destruct (fifo_inv_alive _ _ _ _ _ _ Hinv) as (_ & th & Ht & _ & Hpc);
    simpl; rewrite Ht.
  - destruct (th_pc th); [reflexivity|reflexivity|contradiction].
  - destruct (fifo_consume _ _ _ _ _ _ Hinv) as (s1 & Hstep & Hinv1 & _).
    destruct (th_pc th); [| |contradiction];
      rewrite (bind_Ret _ _ _ _ _ Hstep); now apply IH.
Qed.

(** X13: a worker does not leave its loop on its own.  After a creation in
    which nothing failed, and whatever one producer enqueues (callbacks of
    collaborators, never on a full mailbox) and however the steps of the
    worker are interleaved with the enqueues, the worker has not exited,
    its [running] flag is set, and a [pthread_join] on its thread has not
    returned after any number of further steps: only a stop ends it. *)
Theorem worker_runs_until_stopped nm cb a1 a2 env s0 l :
  in_table (g_thread_cnt s0) -> heap_bounded s0 ->
  strdup_ok env = true -> calloc_queue_ok env = true ->
  calloc_event_ok env = true -> pthread_create_ok env = true ->
  signal_ok env = true ->
  cb <> fn_event_thread_stop_cb ->
  within_capacity 1 l ->
  exists s1 s' th,
    event_thread_create nm cb a1 a2 env s0 = Ret (g_thread_cnt s0 + 1) s1 /\
    run_schedule (g_thread_cnt s0 + 1) (next_tid s0) l s1 = Ret tt s' /\
    running (slot s' (g_thread_cnt s0)) = true /\
    threads s' !! next_tid s0 = Some th /\ th_pc th <> Exited /\
    forall n, pthread_join (replicate n (next_tid s0)) (next_tid s0) s'
              = Blocked.
Proof.
  intros Hi Hb E1 E2 E3 E4 E5 Hcb Hcap.
  destruct (fifo_init nm cb a1 a2 env s0 Hi Hb E1 E2 E3 E4 E5 Hcb)
    as (s1 & Hcr & Hinv1).
  replace (g_thread_cnt s0) with (g_thread_cnt s0 + 1 - 1) in Hinv1 at 1 by lia.
  assert (Hp1 : length (pending s1 (g_thread_cnt s0 + 1 - 1)) = 1%nat).
  { destruct Hinv1 as (_ & _ & th & q & c & T & evs & _ & _ & _ & _ & Em & _).
    rewrite (pending_mailbox _ _ _ _ Em).
    rewrite (create_success _ _ _ _ _ _ Hi Hb E1 E2 E4) in Hcr.
    injection Hcr as <-. rewrite E3 in Em. apply mailbox_Some in Em as (Hq & Hc).
    unfold slot in Hq. simpl in Hq. rewrite Z.add_simpl_r in Hq.
    rewrite lookup_insert_eq in Hq. simpl in Hq. injection Hq as <-.
    simpl in Hc. rewrite lookup_insert_eq in Hc. now injection Hc as <-. }
  destruct (fifo_run _ _ _ _ l _ _ Hinv1) as (s' & Hrun & Hinv' & _);
    [now rewrite Hp1|].
  destruct (fifo_inv_alive _ _ _ _ _ _ Hinv') as (Hr & th & Ht & _ & Hpc).
  rewrite Z.add_simpl_r in Hr.
  exists s1, s', th. split; [exact Hcr|]. split; [exact Hrun|].
  split; [exact Hr|]. split; [exact Ht|]. split; [exact Hpc|].
  intros n. exact (fifo_inv_join_blocks _ _ _ _ _ n s' Hinv').
Qed.

Lemma worker_runs_until_stopped_witness :
  exists s1 s',
    event_thread_create "probe" (fn_extern 0) (p_extern 0) p_null all_ok
      init_state = Ret 1 s1 /\
    run_schedule 1 1 three_events s1 = Ret tt s' /\
    running (slot s' 0) = true /\
    pthread_join (replicate 9 1%nat) 1 s' = Blocked.
Proof.
  destruct (worker_runs_until_stopped "probe" (fn_extern 0) (p_extern 0) p_null
              all_ok init_state three_events)
    as (s1 & s' & th & Hcr & Hrun & Hr & _ & _ & Hj).
  - unfold in_table, MAX_EVENT_THREADS. simpl. lia.
  - apply (bool_decide_unpack _). vm_compute. reflexivity.
  - reflexivity.
  - reflexivity.
  - reflexivity.
  - reflexivity.
  - reflexivity.
  - discriminate.
  - apply (bool_decide_unpack _). vm_compute. reflexivity.
  - exists s1, s'. split; [exact Hcr|]. split; [exact Hrun|].
    split; [exact Hr|exact (Hj 9%nat)].
Defined.

(** X14: the workers do not interfere.  A step of one worker leaves every
    other live worker as it was: its thread, its slot with the [running]
    flag, its mailbox with the records pending, and every heap object it
    owns. *)
Theorem step_leaves_other_workers s t th t2 th2 :
  system_inv s -> threads s !! t = Some th -> th_pc th <> Exited ->
  threads s !! t2 = Some th2 -> t2 <> t -> th_pc th2 <> Exited ->
  exists s',
    event_thread_loop_step t s = Ret tt s' /\
    threads s' !! t2 = Some th2 /\
    th_arg th2 <> th_arg th /\
    slot s' (th_arg th2) = slot s (th_arg th2) /\
    mailbox s' (th_arg th2) = mailbox s (th_arg th2) /\
    (forall x, x ∈ footprint s th2 -> heap s' !! x = heap s !! x) /\
    footprint s' th2 = footprint s th2 /\
    worker_inv s' th2.
Proof.
  intros Hsys Ht Hpc Ht2 Hne Hpc2.
  destruct (step_system_inv s t th Hsys Ht Hpc)
    as (q & c & n & s' & th' & Em & En & Hstep & Heff & Hsys' & Hsame & Hsf
        & Hth' & Harg' & Hsig' & Hrun' & Hframe & Hsub).
  destruct (live_thread_of_slot s t th Hsys Ht Hpc) as (_ & Htid).
  destruct (live_thread_of_slot s t2 th2 Hsys Ht2 Hpc2) as (Hinv2 & Htid2).
  assert (Hargne : th_arg th2 <> th_arg th).
  { intros E. apply Hne. rewrite <- Htid2, <- Htid. now rewrite E. }
  destruct (others_unchanged s s' t th t2 th2 Hsys Ht Ht2 Hne Hpc2 Hsf)
    as (_ & Hinv2' & Hm & Hag).
  { intros x Hx _. now apply Hframe. }
  destruct (worker_agree s s' th2 Hsf Hag Hinv2 Hpc2) as (_ & Hfp & _).
  exists s'. split; [exact Hstep|].
  split; [rewrite Hth'; now rewrite lookup_insert_ne by congruence|].
  split; [exact Hargne|].
  split.
  { destruct (Hsf (th_arg th2)) as (He & Hn & Hti).
    pose proof (Hrun' _ Hargne) as Hr.
    destruct (slot s' (th_arg th2)), (slot s (th_arg th2)). simpl in *.
    congruence. }
  split; [exact Hm|]. split; [exact Hag|]. split; [exact Hfp|exact Hinv2'].
Qed.

Lemma step_leaves_other_workers_witness :
  exists s',
    event_thread_loop_step 1 two_workers = Ret tt s' /\
    slot s' 1 = slot two_workers 1 /\
    mailbox s' 1 = mailbox two_workers 1.
Proof.
  destruct (step_leaves_other_workers two_workers 1%nat
              {| th_arg := 0; th_signal_ok := true; th_pc := InLoop 3 |}
              2%nat {| th_arg := 1; th_signal_ok := true; th_pc := AtStart |})
    as (s' & Hstep & _ & _ & Hs & Hm & _).
  - apply (bool_decide_unpack _). vm_compute. reflexivity.
  - vm_compute. reflexivity.
  - discriminate.
  - vm_compute. reflexivity.
  - discriminate.
  - discriminate.
  - exists s'. split; [exact Hstep|]. split; [exact Hs|exact Hm].
Defined.

(** The exit of a thread frees its mailbox, and no step brings a freed
    mailbox back: after a join, the mailbox of the thread joined is
    gone, while its slot still holds the pointer. *)
Lemma join_frees_mailbox sch :
  forall s t th q s',
    system_inv s -> threads s !! t = Some th ->
    events (slot s (th_arg th)) = Some q ->
    (th_pc th <> Exited \/ heap s !! q = None) ->
    pthread_join sch t s = Ret tt s' ->
    heap s' !! q = None /\ events (slot s' (th_arg th)) = Some q.
Proof.
  induction sch as [|t' sch IH]; intros s t th q s' Hsys Ht Hq Hor H.
  - simpl in H. rewrite Ht in H.
    destruct (th_pc th) eqn:Epc; try discriminate.
    injection H as <-. simpl. split; [|exact Hq].
    destruct Hor as [Hc|Hd]; [congruence|exact Hd].
  - destruct (decide (th_pc th = Exited)) as [Epc|Hpc].
    { rewrite (join_exited _ _ _ _ Ht Epc) in H. injection H as <-. simpl.
      split; [|exact Hq]. destruct Hor as [Hc|Hd]; [contradiction|exact Hd]. }
    assert (Hb : (let* _ := event_thread_loop_step t' in pthread_join sch t) s
                 = Ret tt s').
    { simpl in H. rewrite Ht in H.
      destruct (th_pc th); [exact H|exact H|contradiction]. }
    apply bind_Ret_inv in Hb as ([] & s1 & Hstep & Hjoin).
    destruct (threads s !! t') as [th2|] eqn:Ht2;
      [|unfold event_thread_loop_step in Hstep; rewrite Ht2 in Hstep;
        discriminate].
    destruct (decide (th_pc th2 = Exited)) as [Epc2|Hpc2].
    { rewrite (step_exited _ _ _ Ht2 Epc2) in Hstep. injection Hstep as <-.
      exact (IH s t th q s' Hsys Ht Hq Hor Hjoin). }
    destruct (step_system_inv s t' th2 Hsys Ht2 Hpc2)
      as (q2 & c2 & n2 & s1' & th1 & Em & En & Hstep' & Heff & Hsys1 & Hsame
          & Hsf & Hth1 & Harg1 & _).
    rewrite Hstep' in Hstep. injection Hstep as <-.
    destruct (live_thread_of_slot s t' th2 Hsys Ht2 Hpc2) as (Hinv2 & _).
    destruct (step_effect_inv s t' th2 q2 c2 n2 s1' Ht2 Hinv2 Em En Heff)
      as (Hdom & _).
    assert (Hq1 : events (slot s1' (th_arg th)) = Some q).
    { destruct (Hsf (th_arg th)) as (-> & _). exact Hq. }
    destruct (decide (t' = t)) as [->|Hne].
    + assert (th2 = th) by congruence. subst th2.
      assert (Ht1 : threads s1' !! t = Some th1).
      { rewrite Hth1. apply lookup_insert_eq. }
      rewrite <- Harg1 in Hq1.
      destruct (IH s1' t th1 q s' Hsys1 Ht1 Hq1) as (Hd & He); [|exact Hjoin|].
      * destruct (decide (th_pc th1 = Exited)) as [E1|E1]; [right|now left].
        apply mailbox_Some in Em as (Hq2 & _).
        assert (q2 = q) by congruence. subst q2.
        destruct Heff as [u rest Epc' Hsig' Hd Hth Hh Hg Htr Hfr
                         |u ue Epc' Hrun Hd Hue Hth Hh _ Hr Htr Hfr
                         |u ue a e rest Epc' Hrun Hd Hue Ha Hth Hh _ Hr Htr Hfr
                         |uo Hkind Hth Hg Htr Hfr Hgone Hrest].
        -- rewrite Hth, lookup_insert_eq in Ht1. injection Ht1 as <-.
           discriminate.
        -- rewrite Hth in Ht1. congruence.
        -- rewrite Hth in Ht1. congruence.
        -- apply Hgone. apply elem_of_app. right. apply list_elem_of_here.
      * split; [exact Hd|]. now rewrite <- Harg1.
    + assert (Ht1 : threads s1' !! t = Some th).
      { rewrite Hth1. now rewrite lookup_insert_ne. }
      exact (IH s1' t th q s' Hsys1 Ht1 Hq1 (or_introl Hpc) Hjoin).
Qed.

(** X15: a handle outlives its worker.  When a worker has been stopped and
    its thread joined, the slot still holds the pointer to the mailbox
    that the exit has freed, and [get_event_thread] still accepts the
    handle: an enqueue or a stop on it goes through the dangling
    pointer. *)
Theorem handle_dangles_after_exit s t th sch cb a1 a2 :
  system_inv s -> threads s !! t = Some th -> th_pc th <> Exited ->
  handler_installed s -> room s (th_arg th) ->
  Forall (fun t' => is_Some (threads s !! t')) sch ->
  (length (pending s (th_arg th)) + 4 <= turns t sch)%nat ->
  exists s1 s' q,
    event_thread_stop (th_arg th + 1) true s = Ret 0 s1 /\
    pthread_join sch t s1 = Ret tt s' /\
    events (slot s' (th_arg th)) = Some q /\ heap s' !! q = None /\
    event_thread_enqueue_event (th_arg th + 1) cb a1 a2 true s'
    = Fault (BadAccess q) /\
    event_thread_stop (th_arg th + 1) true s' = Fault (BadAccess q).
Proof.
  intros Hsys Ht Hpc Hhandler Hroom Hall Hturns.
  destruct (stop_live_pending s t th Hsys Ht Hpc Hhandler Hroom)
    as (s1 & Hstop & Hsys1 & Hg1 & Hth1 & Hsg1 & Hj1 & Hsp1 & Hlen1 & _).
  assert (Ht1 : threads s1 !! t = Some th) by (now rewrite Hth1).
  destruct (join_terminates sch s1 t th Hsys1 Ht1) as
    (s' & th' & Hjoin & _); [right; now right| | |].
  { now rewrite Hth1. }
  { pose proof (steps_to_exit_bound s1 th). lia. }
  destruct (live_thread_of_slot s t th Hsys Ht Hpc) as (Hinv & _).
  destruct (worker_inv_inv _ _ Hinv)
    as (q & c & n & nm & Hi & _ & Hq & _).
  assert (Hq1 : events (slot s1 (th_arg th)) = Some q).
  { unfold slot. rewrite Hg1. exact Hq. }
  destruct (join_frees_mailbox sch s1 t th q s' Hsys1 Ht1 Hq1 (or_introl Hpc)
              Hjoin) as (Hdead & Hq').
  assert (Hh : 1 <= th_arg th + 1 <= MAX_EVENT_THREADS)
    by (unfold in_table, MAX_EVENT_THREADS in *; lia).
  assert (Em : mailbox s' (th_arg th + 1 - 1) = None).
  { rewrite Z.add_simpl_r. unfold mailbox. now rewrite Hq', Hdead. }
  assert (Henq : forall cb' b1 b2,
            event_thread_enqueue_event (th_arg th + 1) cb' b1 b2 true s'
            = Fault (BadAccess q)).
  { intros cb' b1 b2.
    rewrite (enqueue_dead_mailbox _ cb' b1 b2 s' Hh Em).
    rewrite Z.add_simpl_r. now rewrite Hq'. }
  exists s1, s', q. split; [exact Hstop|]. split; [exact Hjoin|].
  split; [exact Hq'|]. split; [exact Hdead|]. split; [apply Henq|].
  unfold event_thread_stop. rewrite get_event_thread_valid by exact Hh.
  unfold bind. now rewrite Henq.
Qed.

Lemma handle_dangles_after_exit_witness :
  exists s1 s',
    event_thread_stop 1 true probe_loaded = Ret 0 s1 /\
    pthread_join (replicate 7 1%nat) 1 s1 = Ret tt s' /\
    event_thread_enqueue_event 1 (fn_extern 8) p_null p_null true s'
    = Fault (BadAccess 2).
Proof.
  destruct (handle_dangles_after_exit probe_loaded 1%nat
              {| th_arg := 0; th_signal_ok := true; th_pc := InLoop 3 |}
              (replicate 7 1%nat) (fn_extern 8) p_null p_null)
    as (s1 & s' & q & Hstop & Hjoin & Hq & _ & Henq & _).
  - apply (bool_decide_unpack _). vm_compute. reflexivity.
  - vm_compute. reflexivity.
  - discriminate.
  - apply (bool_decide_unpack _). vm_compute. reflexivity.
  - apply (@bool_decide_unpack _ (room_dec probe_loaded 0)).
    vm_compute. reflexivity.
  - apply (bool_decide_unpack _). vm_compute. reflexivity.
  - vm_compute. lia.
  - exists s1, s'. split; [exact Hstop|]. split; [exact Hjoin|].
    assert (E1 : event_thread_stop 1 true probe_loaded = Ret 0 s1)
      by exact Hstop.
    vm_compute in E1. injection E1 as <-.
    assert (E2 : pthread_join (replicate 7 1%nat) 1
                   (after (event_thread_stop 1 true) probe_loaded) = Ret tt s').
    { rewrite <- Hjoin. vm_compute. reflexivity. }
    vm_compute in E2. injection E2 as <-.
    vm_compute. reflexivity.
Defined.
